(** * Order-book trading over state channels: a verification development

    Shallow embedding of the two cores of the repository:

    - [Channel]: [StateChannelManager] of [src/lib/protocol/channel.ts]
      with the types of [src/lib/protocol/types.ts] and
      [verifyStateUpdateSignature] of the signature utilities;
    - [Matcher]: [PredictionMarketMatcher] (the prediction-market
      matching engine);

    and, for the export of force-exit proofs, [JSON]: what
    [JSON.stringify] and [JSON.parse] do on the values of the manager.
    Beside them stand [AuditLog], the bounded log of
    [src/lib/matching/audit-log.ts], and [StateManager], the synchronous
    methods of the state manager of the prediction market.

    Conventions.  A JavaScript [number] that the code uses as a counter or
    a Unix timestamp is a [Z]; a price, a quantity or a balance is an exact
    rational [Q] (floating-point rounding is outside the model).  A [Map]
    or a plain object used as a dictionary is a [gmap string _]; an array
    is a [list].  [Date.now()] and the random order/fill ids are inputs of
    the functions that read them. *)

From Stdlib Require Import ZArith QArith Qminmax Lia Lqa List String Ascii Bool Sorted.
From Stdlib Require Import DecimalString DecimalPos DecimalZ DecimalFacts.
From stdpp Require Import gmap strings list fin_maps.

Local Open Scope Z_scope.

(* ===================================================================== *)
(** * Part I: definitions                                                 *)
(* ===================================================================== *)

(** ** JSON text

    [exportProof] and [importProof] go through [JSON.stringify] and
    [JSON.parse] of the JavaScript runtime; this is what the two do on the
    values that the manager hands them. *)

Module JSON.

(** The values that [JSON.stringify] writes and [JSON.parse] builds:
    numbers are the integers (written in decimal, as JavaScript writes
    them below 1e21), strings are byte strings, and an object is the list
    of its properties in insertion order (property names here are never
    array indices, which JavaScript would move to the front). *)
#[local] Unset Elimination Schemes.
Inductive json :=
| JNull
| JBool (b : bool)
| JNum (n : Z)
| JStr (s : string)
| JArr (l : list json)
| JObj (l : list (string * json)).
#[local] Set Elimination Schemes.

Abbreviation text := (list ascii).

Definition lit (s : string) : text := list_ascii_of_string s.

(** *** [JSON.stringify(value, null, 2)] *)

Definition hex_digit (n : nat) : ascii := nth n (lit "0123456789abcdef") "0"%char.

(** QuoteJSONString, one code unit. *)
Definition escape_char (c : ascii) : text :=
  match nat_of_ascii c with
  | 34%nat => ["\"%char; "034"%char]
  | 92%nat => lit "\\"
  | 8%nat => lit "\b"
  | 9%nat => lit "\t"
  | 10%nat => lit "\n"
  | 12%nat => lit "\f"
  | 13%nat => lit "\r"
  | n => if (n <? 32)%nat
         then lit "\u00" ++ [hex_digit (n / 16); hex_digit (n mod 16)]
         else [c]
  end.

Fixpoint escape (s : string) : text :=
  match s with
  | EmptyString => []
  | String c s' => escape_char c ++ escape s'
  end.

Definition quote (s : string) : text := "034"%char :: escape s ++ ["034"%char].

Definition print_number (n : Z) : text :=
  lit (NilZero.string_of_int (Z.to_int n)).

(** A line feed and the indentation of the new line. *)
Definition newline (ind : nat) : text := "010"%char :: repeat " "%char ind.

(** The items of an array or an object, separated by a comma and a new
    line. *)
Definition print_items {A} (pr : A -> text) (ind : nat) : list A -> text :=
  fix go (l : list A) : text :=
    match l with
    | [] => []
    | x :: l' =>
        match l' with
        | [] => pr x
        | _ => pr x ++ ","%char :: newline ind ++ go l'
        end
    end.

Fixpoint print (ind : nat) (v : json) : text :=
  match v with
  | JNull => lit "null"
  | JBool true => lit "true"
  | JBool false => lit "false"
  | JNum n => print_number n
  | JStr s => quote s
  | JArr l =>
      match l with
      | [] => lit "[]"
      | _ => "["%char :: newline (ind + 2)
             ++ print_items (print (ind + 2)) (ind + 2) l
             ++ newline ind ++ ["]"%char]
      end
  | JObj l =>
      match l with
      | [] => lit "{}"
      | _ => "{"%char :: newline (ind + 2)
             ++ print_items
                  (fun kv => quote (fst kv) ++ ":"%char :: " "%char :: print (ind + 2) (snd kv))
                  (ind + 2) l
             ++ newline ind ++ ["}"%char]
      end
  end.

Definition stringify (v : json) : string := string_of_list_ascii (print 0 v).

(** *** [JSON.parse] *)

Definition is_ws (c : ascii) : bool :=
  match nat_of_ascii c with
  | 32%nat | 9%nat | 10%nat | 13%nat => true
  | _ => false
  end.

Fixpoint skip_ws (s : text) : text :=
  match s with
  | c :: r => if is_ws c then skip_ws r else s
  | [] => []
  end.

Definition hex_value (c : ascii) : option nat :=
  let n := nat_of_ascii c in
  if (48 <=? n)%nat && (n <=? 57)%nat then Some (n - 48)%nat
  else if (97 <=? n)%nat && (n <=? 102)%nat then Some (n - 87)%nat
  else if (65 <=? n)%nat && (n <=? 70)%nat then Some (n - 55)%nat
  else None.

(** The character that a two-character escape stands for. *)
Definition unescape (e : ascii) : option ascii :=
  match nat_of_ascii e with
  | 34%nat => Some "034"%char
  | 92%nat => Some "\"%char
  | 47%nat => Some "/"%char
  | 98%nat => Some "008"%char
  | 102%nat => Some "012"%char
  | 110%nat => Some "010"%char
  | 114%nat => Some "013"%char
  | 116%nat => Some "009"%char
  | _ => None
  end.

(** A string, from behind its opening quote to its closing quote.  An
    escape above [ÿ] has no byte: [None]. *)
Fixpoint parse_string (s : text) : option (string * text) :=
  match s with
  | [] => None
  | c :: r =>
      if (c =? "034")%char then Some (EmptyString, r)
      else if (c =? "\")%char then
        match r with
        | [] => None
        | e :: r' =>
            if (e =? "u")%char then
              match r' with
              | h1 :: h2 :: h3 :: h4 :: r'' =>
                  match hex_value h1, hex_value h2, hex_value h3, hex_value h4 with
                  | Some a, Some b, Some c', Some d =>
                      let code := (((a * 16 + b) * 16 + c') * 16 + d)%nat in
                      if (code <? 256)%nat then
                        match parse_string r'' with
                        | Some (str, rest) => Some (String (ascii_of_nat code) str, rest)
                        | None => None
                        end
                      else None
                  | _, _, _, _ => None
                  end
              | _ => None
              end
            else
              match unescape e with
              | Some c' =>
                  match parse_string r' with
                  | Some (str, rest) => Some (String c' str, rest)
                  | None => None
                  end
              | None => None
              end
        end
      else if (nat_of_ascii c <? 32)%nat then None
      else
        match parse_string r with
        | Some (str, rest) => Some (String c str, rest)
        | None => None
        end
  end.

Definition is_digit (c : ascii) : bool :=
  (48 <=? nat_of_ascii c)%nat && (nat_of_ascii c <=? 57)%nat.

(** The characters a number token is made of. *)
Definition is_number_char (c : ascii) : bool :=
  is_digit c || (c =? "-")%char || (c =? "+")%char || (c =? ".")%char
  || (c =? "e")%char || (c =? "E")%char.

Fixpoint span_number (s : text) : text * text :=
  match s with
  | c :: r =>
      if is_number_char c
      then let '(t, r') := span_number r in (c :: t, r')
      else ([], s)
  | [] => ([], [])
  end.

(** [0] or a non-zero digit followed by digits. *)
Definition unsigned_token (t : text) : bool :=
  match t with
  | [] => false
  | c :: r =>
      if (c =? "0")%char then match r with [] => true | _ => false end
      else is_digit c && forallb is_digit r
  end.

Definition integer_token (t : text) : bool :=
  match t with
  | c :: r => if (c =? "-")%char then unsigned_token r else unsigned_token t
  | [] => false
  end.

(** A number with a fraction or an exponent is not an integer: [None]. *)
Definition parse_number (s : text) : option (Z * text) :=
  let '(t, r) := span_number s in
  if integer_token t then
    match NilZero.int_of_string (string_of_list_ascii t) with
    | Some d => Some (Z.of_int d, r)
    | None => None
    end
  else None.

Fixpoint expect (w : text) (s : text) : option text :=
  match w, s with
  | [], _ => Some s
  | a :: w', b :: s' => if (a =? b)%char then expect w' s' else None
  | _ :: _, [] => None
  end.

(** A later property of the same name replaces the value of the earlier
    one, in its place. *)
Fixpoint obj_set (k : string) (v : json) (o : list (string * json))
    : list (string * json) :=
  match o with
  | [] => [(k, v)]
  | (k', v') :: o' =>
      if String.eqb k' k then (k', v) :: o' else (k', v') :: obj_set k v o'
  end.

(** Recursive descent; [n] bounds the number of nested calls. *)
Fixpoint parse_value (n : nat) (s : text) : option (json * text) :=
  match n with
  | O => None
  | S n' =>
      match skip_ws s with
      | [] => None
      | c :: r =>
          if (c =? "n")%char then option_map (pair JNull) (expect (lit "ull") r)
          else if (c =? "t")%char then option_map (pair (JBool true)) (expect (lit "rue") r)
          else if (c =? "f")%char then option_map (pair (JBool false)) (expect (lit "alse") r)
          else if (c =? "034")%char then
            match parse_string r with
            | Some (str, r') => Some (JStr str, r')
            | None => None
            end
          else if (c =? "[")%char then
            match skip_ws r with
            | [] => None
            | c2 :: r2 =>
                if (c2 =? "]")%char then Some (JArr [], r2)
                else parse_elements n' (c2 :: r2) []
            end
          else if (c =? "{")%char then
            match skip_ws r with
            | [] => None
            | c2 :: r2 =>
                if (c2 =? "}")%char then Some (JObj [], r2)
                else parse_members n' (c2 :: r2) []
            end
          else if is_digit c || (c =? "-")%char then
            match parse_number (c :: r) with
            | Some (z, r') => Some (JNum z, r')
            | None => None
            end
          else None
      end
  end
with parse_elements (n : nat) (s : text) (acc : list json) : option (json * text) :=
  match n with
  | O => None
  | S n' =>
      match parse_value n' s with
      | None => None
      | Some (v, r) =>
          match skip_ws r with
          | [] => None
          | c :: r' =>
              if (c =? ",")%char then parse_elements n' r' (acc ++ [v])
              else if (c =? "]")%char then Some (JArr (acc ++ [v]), r')
              else None
          end
      end
  end
with parse_members (n : nat) (s : text) (acc : list (string * json))
    : option (json * text) :=
  match n with
  | O => None
  | S n' =>
      match skip_ws s with
      | [] => None
      | c :: r =>
          if (c =? "034")%char then
            match parse_string r with
            | None => None
            | Some (k, r1) =>
                match skip_ws r1 with
                | [] => None
                | c1 :: r2 =>
                    if (c1 =? ":")%char then
                      match parse_value n' r2 with
                      | None => None
                      | Some (v, r3) =>
                          match skip_ws r3 with
                          | [] => None
                          | c3 :: r4 =>
                              if (c3 =? ",")%char
                              then parse_members n' r4 (obj_set k v acc)
                              else if (c3 =? "}")%char
                                   then Some (JObj (obj_set k v acc), r4)
                                   else None
                          end
                      end
                    else None
                end
            end
          else None
      end
  end.

(** [JSON.parse]: one value, then only white space; [None] is the
    [SyntaxError]. *)
Definition parse (s : string) : option json :=
  let t := list_ascii_of_string s in
  match parse_value (S (length t)) t with
  | Some (v, r) => match skip_ws r with [] => Some v | _ => None end
  | None => None
  end.

End JSON.

Module Channel.

(** ** Protocol types ([src/lib/protocol/types.ts]) *)

Inductive IntentSide := buy | sell.

Record OrderIntent := {
  oi_marketId : string;
  oi_side : IntentSide;
  oi_quantity : string;
  oi_limitPrice : string;
  oi_nonce : Z;
  expiresAt : Z;
  oi_signature : string;
  oi_userAddress : string
}.

Record Fill := {
  orderId : string;
  fillPrice : string;
  fillQuantity : string;
  fee : string;
  f_timestamp : Z;
  batchId : option string;
  f_operatorSignature : string
}.

Record Balances := { base : string; quote : string }.

Record StateUpdate := {
  su_channelId : string;
  su_sequence : Z;
  su_balances : Balances;
  cumulativeFees : string;
  su_timestamp : Z;
  userSignature : string;
  operatorSignature : string
}.

Inductive ChannelStatus := opening | active | closing | closed | disputed.

Record ChannelState := {
  id : string;
  userAddress : string;
  operatorAddress : string;
  sequence : Z;
  balances : Balances;
  status : ChannelStatus;
  latestState : option StateUpdate;
  nextNonce : Z
}.

Record ForceExitProof := {
  p_channelId : string;
  p_latestState : StateUpdate;
  orderIntents : list OrderIntent;
  p_fills : list Fill;
  generatedAt : Z
}.

Record EIP712Domain := {
  d_name : string;
  d_version : string;
  chainId : Z;
  verifyingContract : string
}.

(** The message that is signed for a state update (the [value] object of
    [verifyStateUpdateSignature]). *)
Record StateUpdateValue := {
  v_channelId : string;
  v_sequence : Z;
  baseBalance : string;
  quoteBalance : string;
  v_cumulativeFees : string;
  v_timestamp : Z
}.

(** Per-channel audit record: the value type of the [auditLog] map. *)
Record AuditRecord := {
  orders : list OrderIntent;
  fills : list Fill;
  states : list StateUpdate
}.

(** The two private maps of [StateChannelManager]. *)
Record Manager := {
  channels : gmap string ChannelState;
  auditLog : gmap string AuditRecord
}.

Definition new_manager : Manager := {| channels := ∅; auditLog := ∅ |}.

(** Field updates written the way the code assigns them. *)
Definition set_accepted (ch : ChannelState) (newState : StateUpdate) : ChannelState :=
  {| id := id ch; userAddress := userAddress ch;
     operatorAddress := operatorAddress ch;
     sequence := su_sequence newState;
     balances := su_balances newState;
     status := status ch;
     latestState := Some newState;
     nextNonce := nextNonce ch |}.

Definition set_status (ch : ChannelState) (s : ChannelStatus) : ChannelState :=
  {| id := id ch; userAddress := userAddress ch;
     operatorAddress := operatorAddress ch;
     sequence := sequence ch; balances := balances ch;
     status := s; latestState := latestState ch;
     nextNonce := nextNonce ch |}.

Definition bump_nonce (ch : ChannelState) : ChannelState :=
  {| id := id ch; userAddress := userAddress ch;
     operatorAddress := operatorAddress ch;
     sequence := sequence ch; balances := balances ch;
     status := status ch; latestState := latestState ch;
     nextNonce := nextNonce ch + 1 |}.

Definition push_order (log : AuditRecord) (o : OrderIntent) : AuditRecord :=
  {| orders := orders log ++ [o]; fills := fills log; states := states log |}.

Definition push_fill (log : AuditRecord) (f : Fill) : AuditRecord :=
  {| orders := orders log; fills := fills log ++ [f]; states := states log |}.

Definition push_state (log : AuditRecord) (s : StateUpdate) : AuditRecord :=
  {| orders := orders log; fills := fills log; states := states log ++ [s] |}.

(** ** Signature verification *)

(** [String.prototype.toLowerCase] on the ASCII letters (addresses are
    hexadecimal strings). *)
Definition lower_ascii (c : ascii) : ascii :=
  let n := nat_of_ascii c in
  if (65 <=? n)%nat && (n <=? 90)%nat then ascii_of_nat (n + 32) else c.

Fixpoint toLowerCase (s : string) : string :=
  match s with
  | EmptyString => EmptyString
  | String c s' => String (lower_ascii c) (toLowerCase s')
  end.

Definition DOMAIN : EIP712Domain :=
  {| d_name := "StateChannelTrading";
     d_version := "1";
     chainId := 1;
     verifyingContract := "0x0000000000000000000000000000000000000000" |}.

Definition signed_value (stateUpdate : StateUpdate) : StateUpdateValue :=
  {| v_channelId := su_channelId stateUpdate;
     v_sequence := su_sequence stateUpdate;
     baseBalance := base (su_balances stateUpdate);
     quoteBalance := quote (su_balances stateUpdate);
     v_cumulativeFees := cumulativeFees stateUpdate;
     v_timestamp := su_timestamp stateUpdate |}.

(** The [ethers] library, as far as the manager uses it:
    [verifyTypedData(domain, types, value, signature)] answers the
    recovered signer address, or [None] when the library throws. *)
Class Ethers := {
  verifyTypedData : EIP712Domain -> StateUpdateValue -> string -> option string
}.

Section WithEthers.

Context `{Ethers}.

Definition verifyStateUpdateSignature
    (stateUpdate : StateUpdate) (signature expectedAddress : string) : bool :=
  match verifyTypedData DOMAIN (signed_value stateUpdate) signature with
  | Some recoveredAddress =>
      String.eqb (toLowerCase recoveredAddress) (toLowerCase expectedAddress)
  | None => false
  end.

(** ** [StateChannelManager] *)

Definition initializeChannel (channelId userAddress operatorAddress : string)
    (initialBalances : Balances) (m : Manager) : Manager * ChannelState :=
  let channel :=
    {| id := channelId; userAddress := userAddress;
       operatorAddress := operatorAddress;
       sequence := 0; balances := initialBalances;
       status := opening; latestState := None; nextNonce := 0 |} in
  ({| channels := <[channelId := channel]> (channels m);
      auditLog := <[channelId := {| orders := []; fills := []; states := [] |}]>
                    (auditLog m) |},
   channel).

Definition getChannel (channelId : string) (m : Manager) : option ChannelState :=
  channels m !! channelId.

Definition updateChannelState (channelId : string) (newState : StateUpdate)
    (m : Manager) : Manager * bool :=
  match channels m !! channelId with
  | None => (m, false)
  | Some channel =>
      if su_sequence newState <=? sequence channel then (m, false)
      else if negb (verifyStateUpdateSignature newState (userSignature newState)
                      (userAddress channel)) then (m, false)
      else if negb (verifyStateUpdateSignature newState (operatorSignature newState)
                      (operatorAddress channel)) then (m, false)
      else
        let channels' := <[channelId := set_accepted channel newState]> (channels m) in
        let auditLog' :=
          match auditLog m !! channelId with
          | Some log => <[channelId := push_state log newState]> (auditLog m)
          | None => auditLog m
          end in
        ({| channels := channels'; auditLog := auditLog' |}, true)
  end.

Definition recordOrderIntent (channelId : string) (order : OrderIntent)
    (m : Manager) : Manager :=
  match auditLog m !! channelId with
  | Some log =>
      {| channels := channels m;
         auditLog := <[channelId := push_order log order]> (auditLog m) |}
  | None => m
  end.

Definition recordFill (channelId : string) (fill : Fill) (m : Manager) : Manager :=
  match auditLog m !! channelId with
  | Some log =>
      {| channels := channels m;
         auditLog := <[channelId := push_fill log fill]> (auditLog m) |}
  | None => m
  end.

(** [getNextNonce] throws when the channel is unknown: [None], and the
    manager is as it was. *)
Definition getNextNonce (channelId : string) (m : Manager) : Manager * option Z :=
  match channels m !! channelId with
  | None => (m, None)
  | Some channel =>
      ({| channels := <[channelId := bump_nonce channel]> (channels m);
          auditLog := auditLog m |},
       Some (nextNonce channel))
  end.

(** [now] is the value of [Date.now()] read for [generatedAt]. *)
Definition generateForceExitProof (channelId : string) (now : Z) (m : Manager)
    : option ForceExitProof :=
  match channels m !! channelId, auditLog m !! channelId with
  | Some channel, Some log =>
      match latestState channel with
      | None => None
      | Some latest =>
          let lastStateTimestamp := su_timestamp latest in
          let recentOrders :=
            List.filter (fun o => lastStateTimestamp <? expiresAt o) (orders log) in
          let recentFills :=
            List.filter (fun f => lastStateTimestamp <? f_timestamp f) (fills log) in
          Some {| p_channelId := channelId;
                  p_latestState := latest;
                  orderIntents := recentOrders;
                  p_fills := recentFills;
                  generatedAt := now |}
      end
  | _, _ => None
  end.

Definition set_channel_status (channelId : string) (s : ChannelStatus)
    (m : Manager) : Manager :=
  match channels m !! channelId with
  | Some channel =>
      {| channels := <[channelId := set_status channel s]> (channels m);
         auditLog := auditLog m |}
  | None => m
  end.

Definition initiateCooperativeClose (channelId : string) : Manager -> Manager :=
  set_channel_status channelId closing.

Definition initiateForceExit (channelId : string) : Manager -> Manager :=
  set_channel_status channelId disputed.

Definition finalizeClose (channelId : string) : Manager -> Manager :=
  set_channel_status channelId closed.

Definition getAuditLog (channelId : string) (m : Manager) : option AuditRecord :=
  auditLog m !! channelId.

Definition clearChannel (channelId : string) (m : Manager) : Manager :=
  {| channels := delete channelId (channels m);
     auditLog := delete channelId (auditLog m) |}.

(** ** Histories of calls

    The maps are private: a manager is only ever reached from
    [new StateChannelManager()] by calls of its state-changing methods. *)
Inductive Call :=
| CInitialize (channelId userAddress operatorAddress : string) (initialBalances : Balances)
| CUpdate (channelId : string) (newState : StateUpdate)
| CRecordOrderIntent (channelId : string) (order : OrderIntent)
| CRecordFill (channelId : string) (fill : Fill)
| CGetNextNonce (channelId : string)
| CCooperativeClose (channelId : string)
| CForceExit (channelId : string)
| CFinalizeClose (channelId : string)
| CClear (channelId : string).

Definition call (c : Call) (m : Manager) : Manager :=
  match c with
  | CInitialize cid u o b => fst (initializeChannel cid u o b m)
  | CUpdate cid s => fst (updateChannelState cid s m)
  | CRecordOrderIntent cid o => recordOrderIntent cid o m
  | CRecordFill cid f => recordFill cid f m
  | CGetNextNonce cid => fst (getNextNonce cid m)
  | CCooperativeClose cid => initiateCooperativeClose cid m
  | CForceExit cid => initiateForceExit cid m
  | CFinalizeClose cid => finalizeClose cid m
  | CClear cid => clearChannel cid m
  end.

(** Calls are listed oldest first. *)
Definition run (cs : list Call) (m : Manager) : Manager :=
  fold_left (fun m c => call c m) cs m.

(** The accepted state updates of each live channel since it was
    initialised, read off the history of calls (not off the manager's own
    log): [CInitialize] starts an empty record, [CClear] drops it, and a
    [CUpdate] that [updateChannelState] answers with [true] extends it. *)
Definition track (c : Call) (mg : Manager * gmap string (list StateUpdate))
    : Manager * gmap string (list StateUpdate) :=
  let '(m, g) := mg in
  (call c m,
   match c with
   | CInitialize cid _ _ _ => <[cid := []]> g
   | CClear cid => delete cid g
   | CUpdate cid s =>
       if snd (updateChannelState cid s m)
       then match g !! cid with
            | Some l => <[cid := l ++ [s]]> g
            | None => g
            end
       else g
   | _ => g
   end).

Definition accepted (cs : list Call) : gmap string (list StateUpdate) :=
  snd (fold_left (fun mg c => track c mg) cs (new_manager, ∅)).

(** ** The proof as a JavaScript value, and its export *)

Definition js_Balances (b : Balances) : JSON.json :=
  JSON.JObj [("base", JSON.JStr (base b)); ("quote", JSON.JStr (quote b))].

Definition js_StateUpdate (s : StateUpdate) : JSON.json :=
  JSON.JObj
    [("channelId", JSON.JStr (su_channelId s));
     ("sequence", JSON.JNum (su_sequence s));
     ("balances", js_Balances (su_balances s));
     ("cumulativeFees", JSON.JStr (cumulativeFees s));
     ("timestamp", JSON.JNum (su_timestamp s));
     ("userSignature", JSON.JStr (userSignature s));
     ("operatorSignature", JSON.JStr (operatorSignature s))].

Definition js_OrderIntent (o : OrderIntent) : JSON.json :=
  JSON.JObj
    [("marketId", JSON.JStr (oi_marketId o));
     ("side", JSON.JStr (match oi_side o with buy => "buy" | sell => "sell" end));
     ("quantity", JSON.JStr (oi_quantity o));
     ("limitPrice", JSON.JStr (oi_limitPrice o));
     ("nonce", JSON.JNum (oi_nonce o));
     ("expiresAt", JSON.JNum (expiresAt o));
     ("signature", JSON.JStr (oi_signature o));
     ("userAddress", JSON.JStr (oi_userAddress o))].

(** [batchId] is optional: the property is there when it is defined. *)
Definition js_Fill (f : Fill) : JSON.json :=
  JSON.JObj
    ([("orderId", JSON.JStr (orderId f));
      ("fillPrice", JSON.JStr (fillPrice f));
      ("fillQuantity", JSON.JStr (fillQuantity f));
      ("fee", JSON.JStr (fee f));
      ("timestamp", JSON.JNum (f_timestamp f))]
     ++ match batchId f with
        | Some b => [("batchId", JSON.JStr b)]
        | None => []
        end
     ++ [("operatorSignature", JSON.JStr (f_operatorSignature f))]).

Definition js_ForceExitProof (p : ForceExitProof) : JSON.json :=
  JSON.JObj
    [("channelId", JSON.JStr (p_channelId p));
     ("latestState", js_StateUpdate (p_latestState p));
     ("orderIntents", JSON.JArr (map js_OrderIntent (orderIntents p)));
     ("fills", JSON.JArr (map js_Fill (p_fills p)));
     ("generatedAt", JSON.JNum (generatedAt p))].

Definition exportProof (channelId : string) (now : Z) (m : Manager) : option string :=
  match generateForceExitProof channelId now m with
  | None => None
  | Some proof => Some (JSON.stringify (js_ForceExitProof proof))
  end.

(** The value that [JSON.parse] builds, or [None] where it throws and
    the [catch] answers [null]; the cast to [ForceExitProof] checks
    nothing. *)
Definition importProof (proofJson : string) : option JSON.json :=
  JSON.parse proofJson.

(** Whether [initializeChannel] is called for [channelId] in a history. *)
Definition initializes (channelId : string) (c : Call) : bool :=
  match c with
  | CInitialize cid _ _ _ => String.eqb cid channelId
  | _ => false
  end.

End WithEthers.

End Channel.

Module Matcher.

Local Open Scope Q_scope.

(** ** Prediction-market types

    [matcher.ts] imports its types from a [types] module of the
    prediction-market library whose declaration file is not among the
    sources; the records below carry the fields that the matcher reads and
    writes. *)

Inductive Outcome := YES | NO.
Inductive OrderSide := BUY | SELL.
Inductive OrderType := LIMIT | MARKET.
Inductive OrderStatus := OPEN | PARTIAL | FILLED | CANCELLED.

(** Modelled from the spec: the [Order] interface (id, owner, outcome,
    side, kind, price, original and remaining quantity, creation time,
    status), with the field names that [matcher.ts] uses. *)
Record Order := {
  id : string;
  userId : string;
  outcome : Outcome;
  side : OrderSide;
  type : OrderType;
  price : Q;
  quantity : Q;
  remainingQuantity : Q;
  timestamp : Z;
  status : OrderStatus
}.

(** Modelled from the spec: the [OrderRequest] interface; [price] is
    optional ([request.price === undefined] is tested by the code). *)
Record OrderRequest := {
  r_userId : string;
  r_outcome : Outcome;
  r_side : OrderSide;
  r_type : OrderType;
  r_price : option Q;
  r_quantity : Q
}.

(** Modelled from the spec: the [Fill] interface of the matcher. *)
Record Fill := {
  f_id : string;
  makerOrderId : string;
  takerOrderId : string;
  f_price : Q;
  f_quantity : Q;
  f_timestamp : Z;
  f_outcome : Outcome
}.

(** Modelled from the spec: the [UserBalance] interface. *)
Record UserBalance := { usdc : Q; yes : Q; no : Q }.

(** Order objects live in a store and the book holds references to them:
    the matcher mutates resting orders in place, and the arrays of the
    book (and of the state it was cloned from) see the change. *)
Abbreviation loc := nat.
Abbreviation Heap := (list Order).

(** Modelled from the spec: the [Orderbook] interface, four arrays of
    resting orders. *)
Record Orderbook := {
  yesBids : list loc;
  yesAsks : list loc;
  noBids : list loc;
  noAsks : list loc
}.

(** Modelled from the spec: the [PredictionMarketState] interface. *)
Record PredictionMarketState := {
  marketId : string;
  question : string;
  orderbook : Orderbook;
  balances : gmap string UserBalance;
  fills : list Fill;
  sequence : Z;
  s_timestamp : Z;
  lastYesPrice : option Q;
  lastNoPrice : option Q
}.

(** The error strings of [validateRequest], by kind and with the numbers
    they print. *)
Inductive ValidationError :=
| UserNotFound
| QuantityMustBePositive
| PriceRequired
| PriceOutOfRange
| InsufficientUSDC (need have : Q)
| InsufficientTokens (o : Outcome) (need have : Q).

(** Modelled from the spec: the [OrderResult] interface. *)
Record OrderResult := {
  success : bool;
  error : option ValidationError;
  order : option Order;
  res_fills : list Fill;
  newState : PredictionMarketState
}.

(** The value read through a reference.  Every reference held by a book
    is live, so the default is never what is read. *)
#[global] Instance Order_inhabited : Inhabited Order :=
  populate {| id := EmptyString; userId := EmptyString; outcome := YES;
              side := BUY; type := LIMIT; price := 0; quantity := 0;
              remainingQuantity := 0; timestamp := 0%Z; status := CANCELLED |}.

Definition deref (h : Heap) (l : loc) : Order := h !!! l.

Definition set_remaining (o : Order) (q : Q) : Order :=
  {| id := id o; userId := userId o; outcome := outcome o; side := side o;
     type := type o; price := price o; quantity := quantity o;
     remainingQuantity := q; timestamp := timestamp o; status := status o |}.

Definition set_status (o : Order) (s : OrderStatus) : Order :=
  {| id := id o; userId := userId o; outcome := outcome o; side := side o;
     type := type o; price := price o; quantity := quantity o;
     remainingQuantity := remainingQuantity o; timestamp := timestamp o;
     status := s |}.

Definition with_orderbook_balances (s : PredictionMarketState) (ob : Orderbook)
    (b : gmap string UserBalance) (fs : list Fill) (seq ts : Z)
    (ly ln : option Q) : PredictionMarketState :=
  {| marketId := marketId s; question := question s; orderbook := ob;
     balances := b; fills := fs; sequence := seq; s_timestamp := ts;
     lastYesPrice := ly; lastNoPrice := ln |}.

(** ** Number tests *)

Definition Qltb (a b : Q) : bool := negb (Qle_bool b a).

(** ** [createInitialState], [initUserBalance] *)

Definition createInitialState (marketId question : string) (now : Z)
    : PredictionMarketState :=
  {| marketId := marketId; question := question;
     orderbook := {| yesBids := []; yesAsks := []; noBids := []; noAsks := [] |};
     balances := ∅; fills := []; sequence := 0; s_timestamp := now;
     lastYesPrice := None; lastNoPrice := None |}.

Definition initUserBalance (state : PredictionMarketState) (userId : string)
    (usdcAmount : Q) (now : Z) : PredictionMarketState :=
  with_orderbook_balances state (orderbook state)
    (<[userId := {| usdc := usdcAmount; yes := 0; no := 0 |}]> (balances state))
    (fills state) (sequence state + 1)%Z now
    (lastYesPrice state) (lastNoPrice state).

(** ** Sorting

    [Array.prototype.sort] is stable; the comparator answers a number and
    an element goes before another when the answer is negative.  For a
    comparator that orders by keys every stable sort gives the same array;
    insertion from the right is the one written here. *)
Fixpoint insert_by {A} (cmp : A -> A -> Q) (x : A) (l : list A) : list A :=
  match l with
  | [] => [x]
  | y :: l' => if Qle_bool (cmp x y) 0 then x :: y :: l' else y :: insert_by cmp x l'
  end.

Definition sort_by {A} (cmp : A -> A -> Q) (l : list A) : list A :=
  foldr (insert_by cmp) [] l.

(** [a.price - b.price || a.timestamp - b.timestamp] *)
Definition cmp_ask (a b : Order) : Q :=
  let d := price a - price b in
  if Qeq_bool d 0 then inject_Z (timestamp a - timestamp b) else d.

(** [b.price - a.price || a.timestamp - b.timestamp] *)
Definition cmp_bid (a b : Order) : Q :=
  let d := price b - price a in
  if Qeq_bool d 0 then inject_Z (timestamp a - timestamp b) else d.

Definition by_ref (h : Heap) (cmp : Order -> Order -> Q) (a b : loc) : Q :=
  cmp (deref h a) (deref h b).

(** ** [PredictionMarketMatcher] *)

Definition tokens_of (o : Outcome) (b : UserBalance) : Q :=
  match o with YES => yes b | NO => no b end.

Definition validateRequest (state : PredictionMarketState) (request : OrderRequest)
    : option ValidationError :=
  match balances state !! r_userId request with
  | None => Some UserNotFound
  | Some userBalance =>
      if Qle_bool (r_quantity request) 0 then Some QuantityMustBePositive
      else
        let price_error :=
          match r_type request with
          | LIMIT =>
              match r_price request with
              | None => Some PriceRequired
              | Some p =>
                  if Qle_bool p 0 || Qle_bool 1 p then Some PriceOutOfRange else None
              end
          | MARKET => None
          end in
        match price_error with
        | Some e => Some e
        | None =>
            match r_side request with
            | BUY =>
                (* (request.price || 1) * request.quantity *)
                let p := match r_price request with
                         | Some p => if Qeq_bool p 0 then 1 else p
                         | None => 1
                         end in
                let requiredUSDC := p * r_quantity request in
                if Qltb (usdc userBalance) requiredUSDC
                then Some (InsufficientUSDC requiredUSDC (usdc userBalance))
                else None
            | SELL =>
                let tokens := tokens_of (r_outcome request) userBalance in
                if Qltb tokens (r_quantity request)
                then Some (InsufficientTokens (r_outcome request) (r_quantity request) tokens)
                else None
            end
        end
  end.

Definition side_of (ob : Orderbook) (o : Outcome) (s : OrderSide) : list loc :=
  match o, s with
  | YES, BUY => yesBids ob
  | YES, SELL => yesAsks ob
  | NO, BUY => noBids ob
  | NO, SELL => noAsks ob
  end.

Definition set_side (ob : Orderbook) (o : Outcome) (s : OrderSide) (l : list loc)
    : Orderbook :=
  match o, s with
  | YES, BUY => {| yesBids := l; yesAsks := yesAsks ob; noBids := noBids ob; noAsks := noAsks ob |}
  | YES, SELL => {| yesBids := yesBids ob; yesAsks := l; noBids := noBids ob; noAsks := noAsks ob |}
  | NO, BUY => {| yesBids := yesBids ob; yesAsks := yesAsks ob; noBids := l; noAsks := noAsks ob |}
  | NO, SELL => {| yesBids := yesBids ob; yesAsks := yesAsks ob; noBids := noBids ob; noAsks := l |}
  end.

(** The side an incoming order is matched against: asks for a buy, bids
    for a sell, of the same outcome. *)
Definition opposite (s : OrderSide) : OrderSide :=
  match s with BUY => SELL | SELL => BUY end.

Definition cmp_side (s : OrderSide) : Order -> Order -> Q :=
  match s with BUY => cmp_bid | SELL => cmp_ask end.

Definition getMatchableOrders (h : Heap) (orderbook : Orderbook) (order : Order)
    : list loc :=
  match side order, outcome order with
  | BUY, YES => sort_by (by_ref h cmp_ask) (yesAsks orderbook)
  | BUY, NO => sort_by (by_ref h cmp_ask) (noAsks orderbook)
  | SELL, YES => sort_by (by_ref h cmp_bid) (yesBids orderbook)
  | SELL, NO => sort_by (by_ref h cmp_bid) (noBids orderbook)
  end.

Definition canMatch (takerOrder makerOrder : Order) : bool :=
  match side takerOrder with
  | BUY => Qle_bool (price makerOrder) (price takerOrder)
  | SELL => Qle_bool (price takerOrder) (price makerOrder)
  end.

Definition add_usdc (q : Q) (b : UserBalance) : UserBalance :=
  {| usdc := usdc b + q; yes := yes b; no := no b |}.

Definition sub_usdc (q : Q) (b : UserBalance) : UserBalance :=
  {| usdc := usdc b - q; yes := yes b; no := no b |}.

Definition add_tokens (o : Outcome) (q : Q) (b : UserBalance) : UserBalance :=
  match o with
  | YES => {| usdc := usdc b; yes := yes b + q; no := no b |}
  | NO => {| usdc := usdc b; yes := yes b; no := no b + q |}
  end.

Definition sub_tokens (o : Outcome) (q : Q) (b : UserBalance) : UserBalance :=
  match o with
  | YES => {| usdc := usdc b; yes := yes b - q; no := no b |}
  | NO => {| usdc := usdc b; yes := yes b; no := no b - q |}
  end.

(** A party without a balance record would get [NaN] fields, which the
    rational model does not have: the answer is [None] there. *)
Definition updateBalancesForFill (balances : gmap string UserBalance)
    (takerOrder makerOrder : Order) (fill : Fill)
    : option (gmap string UserBalance) :=
  takerBalance ← balances !! userId takerOrder;
  makerBalance ← balances !! userId makerOrder;
  let usdcAmount := f_price fill * f_quantity fill in
  let outcome := f_outcome fill in
  let '(takerBalance, makerBalance) :=
    match side takerOrder with
    | BUY =>
        (add_tokens outcome (f_quantity fill) (sub_usdc usdcAmount takerBalance),
         sub_tokens outcome (f_quantity fill) (add_usdc usdcAmount makerBalance))
    | SELL =>
        (sub_tokens outcome (f_quantity fill) (add_usdc usdcAmount takerBalance),
         add_tokens outcome (f_quantity fill) (sub_usdc usdcAmount makerBalance))
    end in
  Some (<[userId makerOrder := makerBalance]>
          (<[userId takerOrder := takerBalance]> balances)).

Definition cloneOrderbook (orderbook : Orderbook) : Orderbook :=
  {| yesBids := yesBids orderbook; yesAsks := yesAsks orderbook;
     noBids := noBids orderbook; noAsks := noAsks orderbook |}.

Definition addToOrderbook (h : Heap) (orderbook : Orderbook) (l : loc) : Orderbook :=
  let newOrderbook := cloneOrderbook orderbook in
  let o := deref h l in
  set_side newOrderbook (outcome o) (side o)
    (sort_by (by_ref h (cmp_side (side o)))
       (side_of newOrderbook (outcome o) (side o) ++ [l])).

Definition removeFromOrderbook (h : Heap) (orderbook : Orderbook) (order : Order)
    : Orderbook :=
  let newOrderbook := cloneOrderbook orderbook in
  set_side newOrderbook (outcome order) (side order)
    (List.filter (fun l => negb (String.eqb (id (deref h l)) (id order)))
       (side_of newOrderbook (outcome order) (side order))).

(** The variables of the loop of [matchOrder]. *)
Record Matching := {
  m_fills : list Fill;
  remainingQty : Q;
  m_balances : gmap string UserBalance;
  m_orderbook : Orderbook;
  m_heap : Heap
}.

(** One pass of the [for] loop over [matchableOrders], from the maker at
    the head on.  [generateId k] and [now k] are the [k]-th results of
    [generateId()] and [Date.now()] in the enclosing [processOrder]; the
    taker order took the results numbered 0. *)
Fixpoint match_loop (generateId : nat -> string) (now : nat -> Z) (order : Order)
    (matchableOrders : list loc) (st : Matching) : option Matching :=
  match matchableOrders with
  | [] => Some st
  | makerRef :: rest =>
      if Qle_bool (remainingQty st) 0 then Some st
      else
        let makerOrder := deref (m_heap st) makerRef in
        if negb (canMatch order makerOrder) then Some st
        else
          let fillQty := Qmin (remainingQty st) (remainingQuantity makerOrder) in
          let fillPrice := price makerOrder in
          let k := S (length (m_fills st)) in
          let fill := {| f_id := generateId k;
                         makerOrderId := id makerOrder;
                         takerOrderId := id order;
                         f_price := fillPrice;
                         f_quantity := fillQty;
                         f_timestamp := now k;
                         f_outcome := outcome order |} in
          balances ← updateBalancesForFill (m_balances st) order makerOrder fill;
          let makerOrder := set_remaining makerOrder (remainingQuantity makerOrder - fillQty) in
          let h := <[makerRef := makerOrder]> (m_heap st) in
          let '(h, orderbook) :=
            if Qeq_bool (remainingQuantity makerOrder) 0
            then
              let makerOrder := set_status makerOrder FILLED in
              let h := <[makerRef := makerOrder]> h in
              (h, removeFromOrderbook h (m_orderbook st) makerOrder)
            else (h, m_orderbook st) in
          match_loop generateId now order rest
            {| m_fills := m_fills st ++ [fill];
               remainingQty := remainingQty st - fillQty;
               m_balances := balances;
               m_orderbook := orderbook;
               m_heap := h |}
  end.

Definition matchOrder (generateId : nat -> string) (now : nat -> Z)
    (h : Heap) (state : PredictionMarketState) (order : Order)
    : option Matching :=
  let orderbook := cloneOrderbook (orderbook state) in
  let matchableOrders := getMatchableOrders h orderbook order in
  match_loop generateId now order matchableOrders
    {| m_fills := []; remainingQty := quantity order;
       m_balances := balances state; m_orderbook := orderbook; m_heap := h |}.

(** The last-price loop of [processOrder]. *)
Definition last_prices (fs : list Fill) (init : option Q * option Q)
    : option Q * option Q :=
  fold_left
    (fun (acc : option Q * option Q) (fill : Fill) =>
       match f_outcome fill with
       | YES => (Some (f_price fill), Some (1 - f_price fill))
       | NO => (Some (1 - f_price fill), Some (f_price fill))
       end)
    fs init.

(** [processOrder].  The result is [None] only where [matchOrder] meets a
    maker without a balance record.  The taker's order object is stored at
    the first free reference. *)
Definition processOrder (generateId : nat -> string) (now : nat -> Z)
    (h : Heap) (currentState : PredictionMarketState) (request : OrderRequest)
    : option (Heap * OrderResult) :=
  match validateRequest currentState request with
  | Some validationError =>
      Some (h, {| success := false; error := Some validationError; order := None;
                  res_fills := []; newState := currentState |})
  | None =>
      let order :=
        {| id := generateId O;
           userId := r_userId request;
           outcome := r_outcome request;
           side := r_side request;
           type := r_type request;
           price := match r_type request with
                    | MARKET => match r_side request with BUY => 1 | SELL => 0 end
                    | LIMIT => match r_price request with
                               | Some p => p
                               | None => 0 (* not reached: rejected above *)
                               end
                    end;
           quantity := r_quantity request;
           remainingQuantity := r_quantity request;
           timestamp := now O;
           status := OPEN |} in
      m ← matchOrder generateId now h currentState order;
      let newFills := m_fills m in
      let updatedRef := length (m_heap m) in
      let updatedOrder := set_remaining order (remainingQty m) in
      let h := m_heap m ++ [updatedOrder] in
      let newOrderbook :=
        if Qltb 0 (remainingQuantity updatedOrder)
           && match type updatedOrder with LIMIT => true | MARKET => false end
        then addToOrderbook h (m_orderbook m) updatedRef
        else m_orderbook m in
      let updatedOrder :=
        if Qeq_bool (remainingQuantity updatedOrder) 0
        then set_status updatedOrder FILLED
        else if Qltb (remainingQuantity updatedOrder) (quantity updatedOrder)
             then set_status updatedOrder PARTIAL
             else updatedOrder in
      let h := <[updatedRef := updatedOrder]> h in
      let '(lastYesPrice, lastNoPrice) :=
        last_prices newFills (lastYesPrice currentState, lastNoPrice currentState) in
      let newState :=
        with_orderbook_balances currentState newOrderbook (m_balances m)
          (fills currentState ++ newFills) (sequence currentState + 1)%Z
          (now (S (length newFills))) lastYesPrice lastNoPrice in
      Some (h, {| success := true; error := None; order := Some updatedOrder;
                  res_fills := newFills; newState := newState |})
  end.

(** [cancelOrder]: [removeFromList] takes out the first order of an array
    that has the id and the owner, and sets [found]. *)
Fixpoint removeFromList (h : Heap) (orderId userId' : string) (orders : list loc)
    : list loc * bool :=
  match orders with
  | [] => ([], false)
  | l :: rest =>
      if String.eqb (id (deref h l)) orderId && String.eqb (userId (deref h l)) userId'
      then (rest, true)
      else let '(rest', found) := removeFromList h orderId userId' rest in
           (l :: rest', found)
  end.

Definition cancelOrder (h : Heap) (state : PredictionMarketState)
    (orderId userId : string) (now : Z) : PredictionMarketState :=
  let orderbook := cloneOrderbook (orderbook state) in
  let '(yb, f1) := removeFromList h orderId userId (yesBids orderbook) in
  let '(ya, f2) := removeFromList h orderId userId (yesAsks orderbook) in
  let '(nb, f3) := removeFromList h orderId userId (noBids orderbook) in
  let '(na, f4) := removeFromList h orderId userId (noAsks orderbook) in
  let found := f1 || f2 || f3 || f4 in
  if negb found then state
  else
    with_orderbook_balances state
      {| yesBids := yb; yesAsks := ya; noBids := nb; noAsks := na |}
      (balances state) (fills state) (sequence state + 1)%Z now
      (lastYesPrice state) (lastNoPrice state).

(** ** [getOrderbookDisplay] *)

(** A price level of the display: the orders of one side at one price,
    with the fields that [aggregateOrders] writes. *)
Record PriceLevel := {
  pl_price : Q;
  pl_quantity : Q;
  orderCount : Z
}.

Record OrderbookDisplay := {
  d_yesBids : list PriceLevel;
  d_yesAsks : list PriceLevel;
  bestYesBid : option Q;
  bestYesAsk : option Q;
  spread : option Q;
  midPrice : option Q
}.

(** One pass of the loop of [aggregateOrders] over the [Map] of levels,
    which is kept in insertion order: the level with the price of the order
    gets its quantity and is counted one more, and a price that is not
    there yet is appended as a new level. *)
Fixpoint add_level (order : Order) (levels : list PriceLevel) : list PriceLevel :=
  match levels with
  | [] => [ {| pl_price := price order; pl_quantity := remainingQuantity order;
               orderCount := 1 |} ]
  | existing :: rest =>
      if Qeq_bool (pl_price existing) (price order)
      then {| pl_price := pl_price existing;
              pl_quantity := pl_quantity existing + remainingQuantity order;
              orderCount := (orderCount existing + 1)%Z |} :: rest
      else existing :: add_level order rest
  end.

Definition aggregateOrders (h : Heap) (orders : list loc) : list PriceLevel :=
  fold_left (fun levels l => add_level (deref h l) levels) orders [].

Definition best (levels : list PriceLevel) : option Q :=
  match levels with
  | [] => None
  | level :: _ => Some (pl_price level)
  end.

Definition getOrderbookDisplay (h : Heap) (state : PredictionMarketState)
    : OrderbookDisplay :=
  let yesBids :=
    sort_by (fun a b => pl_price b - pl_price a)
      (aggregateOrders h (yesBids (orderbook state))) in
  let yesAsks :=
    sort_by (fun a b => pl_price a - pl_price b)
      (aggregateOrders h (yesAsks (orderbook state))) in
  let bestYesBid := best yesBids in
  let bestYesAsk := best yesAsks in
  {| d_yesBids := yesBids;
     d_yesAsks := yesAsks;
     bestYesBid := bestYesBid;
     bestYesAsk := bestYesAsk;
     spread := match bestYesBid, bestYesAsk with
               | Some bid, Some ask => Some (ask - bid)
               | _, _ => None
               end;
     midPrice := match bestYesBid, bestYesAsk with
                 | Some bid, Some ask => Some ((bid + ask) / 2)
                 | _, _ => None
                 end |}.

End Matcher.

(** ** The audit log of the matching client
    ([src/lib/matching/audit-log.ts]) *)

Module AuditLog.

Local Open Scope Z_scope.

Inductive EntryType := order | fill | state_update.

(** [data: OrderIntent | Fill | StateUpdate] *)
Inductive EntryData :=
| DOrder (o : Channel.OrderIntent)
| DFill (f : Channel.Fill)
| DState (s : Channel.StateUpdate).

Record AuditEntry := {
  timestamp : Z;
  type : EntryType;
  data : EntryData
}.

(** The private map [logs]. *)
Abbreviation Logs := (gmap string (list AuditEntry)).

Definition new_logs : Logs := ∅.

(** [addEntry]: the entry is pushed on the array of the channel (an empty
    one is set first where there is none), and the oldest entry is shifted
    out when that makes more than 10000. *)
Definition addEntry (channelId : string) (entry : AuditEntry) (logs : Logs) : Logs :=
  let channelLog := default [] (logs !! channelId) ++ [entry] in
  <[channelId := if 10000 <? Z.of_nat (length channelLog)
                 then tail channelLog else channelLog]> logs.

(** [now] is the value of [Date.now()] read for the entry. *)
Definition recordOrder (channelId : string) (o : Channel.OrderIntent) (now : Z)
    : Logs -> Logs :=
  addEntry channelId {| timestamp := now; type := order; data := DOrder o |}.

Definition recordFill (channelId : string) (f : Channel.Fill) (now : Z)
    : Logs -> Logs :=
  addEntry channelId {| timestamp := now; type := fill; data := DFill f |}.

Definition recordStateUpdate (channelId : string) (s : Channel.StateUpdate) (now : Z)
    : Logs -> Logs :=
  addEntry channelId {| timestamp := now; type := state_update; data := DState s |}.

Definition getLog (channelId : string) (logs : Logs) : list AuditEntry :=
  default [] (logs !! channelId).

Definition getLogSince (channelId : string) (since : Z) (logs : Logs)
    : list AuditEntry :=
  List.filter (fun entry => since <? timestamp entry) (getLog channelId logs).

Definition clearLog (channelId : string) (logs : Logs) : Logs :=
  delete channelId logs.

Record Stats := {
  totalOrders : Z;
  totalFills : Z;
  totalStateUpdates : Z
}.

Definition is_type (t : EntryType) (e : AuditEntry) : bool :=
  match t, type e with
  | order, order | fill, fill | state_update, state_update => true
  | _, _ => false
  end.

Definition getStats (channelId : string) (logs : Logs) : Stats :=
  let log := getLog channelId logs in
  {| totalOrders := Z.of_nat (length (List.filter (is_type order) log));
     totalFills := Z.of_nat (length (List.filter (is_type fill) log));
     totalStateUpdates := Z.of_nat (length (List.filter (is_type state_update) log)) |}.

(** An entry as a JavaScript value, and [exportLog]. *)
Definition js_AuditEntry (e : AuditEntry) : JSON.json :=
  JSON.JObj
    [("timestamp", JSON.JNum (timestamp e));
     ("type", JSON.JStr (match type e with
                         | order => "order"
                         | fill => "fill"
                         | state_update => "state_update"
                         end));
     ("data", match data e with
              | DOrder o => Channel.js_OrderIntent o
              | DFill f => Channel.js_Fill f
              | DState s => Channel.js_StateUpdate s
              end)].

Definition exportLog (channelId : string) (logs : Logs) : string :=
  JSON.stringify (JSON.JArr (map js_AuditEntry (getLog channelId logs))).

(** Histories of calls of the recording methods and of [clearLog]. *)
Inductive LogCall :=
| CRecordOrder (channelId : string) (o : Channel.OrderIntent) (now : Z)
| CRecordFill (channelId : string) (f : Channel.Fill) (now : Z)
| CRecordStateUpdate (channelId : string) (s : Channel.StateUpdate) (now : Z)
| CClearLog (channelId : string).

Definition log_call (c : LogCall) (logs : Logs) : Logs :=
  match c with
  | CRecordOrder cid o now => recordOrder cid o now logs
  | CRecordFill cid f now => recordFill cid f now logs
  | CRecordStateUpdate cid s now => recordStateUpdate cid s now logs
  | CClearLog cid => clearLog cid logs
  end.

Definition log_run (cs : list LogCall) (logs : Logs) : Logs :=
  fold_left (fun logs c => log_call c logs) cs logs.

End AuditLog.

(** ** The state manager of the prediction market
    ([StateManager], the last part of [src/lib/protocol/channel.ts]) *)

Module StateManager.
Import Matcher.

(** The fields that the synchronous methods read and write; the signer
    and the listeners are left out. *)
Record ManagerFields := {
  state : PredictionMarketState;
  userAddress : option string
}.

(** [new StateManager(marketId, question)] *)
Definition create (marketId question : string) (now : Z) : ManagerFields :=
  {| state := createInitialState marketId question now; userAddress := None |}.

(** [initialize] stores the address that the signer answers. *)
Definition initialize (address : string) (m : ManagerFields) : ManagerFields :=
  {| state := state m; userAddress := Some address |}.

Definition getState (m : ManagerFields) : PredictionMarketState := state m.

Definition getUserAddress (m : ManagerFields) : option string := userAddress m.

Definition updateState (newState : PredictionMarketState) (m : ManagerFields) : ManagerFields :=
  {| state := newState; userAddress := userAddress m |}.

(** [!this.userAddress]: [null] and the empty string are falsy. *)
Definition known_address (m : ManagerFields) : option string :=
  match userAddress m with
  | Some address => if String.eqb address EmptyString then None else Some address
  | None => None
  end.

(** [depositUSDC] throws when there is no address: [None]. *)
Definition depositUSDC (amount : Q) (now : Z) (m : ManagerFields) : option ManagerFields :=
  match known_address m with
  | None => None
  | Some address =>
      Some {| state := initUserBalance (state m) address amount now;
              userAddress := userAddress m |}
  end.

Definition getUserBalance (m : ManagerFields) : option UserBalance :=
  match known_address m with
  | None => None
  | Some address => balances (state m) !! address
  end.

Definition reset (marketId question : string) (now : Z) (m : ManagerFields) : ManagerFields :=
  {| state := createInitialState marketId question now;
     userAddress := userAddress m |}.

End StateManager.

(* ===================================================================== *)
(** * Part II: JSON text read back                                        *)
(* ===================================================================== *)

Module JSONProofs.
Import JSON.
Import Decimal.

(** ** Strings *)

Lemma parse_string_escape_char c r :
  parse_string (escape_char c ++ r) =
    match parse_string r with
    | Some (str, rest) => Some (String c str, rest)
    | None => None
    end.
Proof.
  destruct c as [[] [] [] [] [] [] [] []]; reflexivity.
Qed.

Lemma parse_string_escape s r :
  parse_string (escape s ++ "034"%char :: r) = Some (s, r).
Proof.
  induction s as [|c s IH]; simpl; [done|].
  by rewrite <- app_assoc, parse_string_escape_char, IH.
Qed.

(** ** Numbers *)

(** What may follow a value: not a character of a number token. *)
Definition delimited (r : text) : Prop :=
  match r with
  | [] => True
  | c :: _ => is_number_char c = false
  end.

Lemma span_number_app t r :
  forallb is_number_char t = true -> delimited r ->
  span_number (t ++ r) = (t, r).
Proof.
  intros Ht Hr. induction t as [|c t IH]; simpl in *.
  - destruct r as [|c r]; [done|]. simpl in *. by rewrite Hr.
  - apply andb_prop in Ht as [Hc Ht]. by rewrite Hc, IH.
Qed.

Lemma digits_of_uint d :
  forallb is_digit (lit (NilEmpty.string_of_uint d)) = true.
Proof. induction d; simpl; try done. Qed.

Lemma is_digit_number_char c : is_digit c = true -> is_number_char c = true.
Proof. unfold is_number_char. by intros ->. Qed.

Lemma forallb_digit_number t :
  forallb is_digit t = true -> forallb is_number_char t = true.
Proof.
  induction t as [|c t IH]; simpl; [done|].
  intros [Hc Ht]%andb_prop. by rewrite (is_digit_number_char _ Hc), IH.
Qed.

Lemma to_uint_head p d : Pos.to_uint p <> D0 d.
Proof.
  intros Hp.
  assert (Hn : Pos.to_uint p = unorm (Pos.to_uint p)).
  { rewrite <- (DecimalPos.Unsigned.to_of (Pos.to_uint p)).
    by rewrite DecimalPos.Unsigned.of_to. }
  rewrite Hp, unorm_D0 in Hn. unfold unorm in Hn.
  destruct (nzhead d) eqn:Hd; try (by apply nzhead_nonzero in Hd);
    try discriminate.
  change (D0 d = D0 Nil) in Hn. injection Hn as ->.
  by apply (DecimalPos.Unsigned.to_uint_nonzero p).
Qed.

Lemma unsigned_token_pos p :
  unsigned_token (lit (NilZero.string_of_uint (Pos.to_uint p))) = true /\
  forallb is_digit (lit (NilZero.string_of_uint (Pos.to_uint p))) = true.
Proof.
  pose proof (to_uint_head p) as Hh.
  pose proof (DecimalPos.Unsigned.to_uint_nonnil p) as Hnil.
  destruct (Pos.to_uint p) as [|d|d|d|d|d|d|d|d|d|d] eqn:Hp; try done;
    try (by destruct (Hh d)); simpl; by rewrite digits_of_uint.
Qed.

Lemma print_number_token z :
  integer_token (print_number z) = true /\
  forallb is_number_char (print_number z) = true.
Proof.
  unfold print_number. destruct z as [|p|p]; simpl; [done| |].
  - destruct (unsigned_token_pos p) as [Hu Hd]. split; [|by apply forallb_digit_number].
    unfold integer_token.
    destruct (lit (NilZero.string_of_uint (Pos.to_uint p))) as [|c t] eqn:Ht; [done|].
    destruct (Ascii.eqb_spec c "-"); [|done]. subst. done.
  - destruct (unsigned_token_pos p) as [Hu Hd]. split; [done|].
    by apply forallb_digit_number.
Qed.

Lemma parse_number_print z r :
  delimited r -> parse_number (print_number z ++ r) = Some (z, r).
Proof.
  intros Hr. unfold parse_number.
  destruct (print_number_token z) as [Hi Hn].
  rewrite (span_number_app _ _ Hn Hr), Hi.
  unfold print_number, lit. rewrite string_of_list_ascii_of_string.
  rewrite NilZero.isi.
  - by rewrite DecimalZ.of_to.
  - destruct z; simpl; try done. intros [= Hp].
    by apply (DecimalPos.Unsigned.to_uint_nonnil p).
  - destruct z; simpl; try done. intros [= Hp].
    by apply (DecimalPos.Unsigned.to_uint_nonnil p).
Qed.

(** ** White space and first characters *)

Lemma skip_ws_spaces k s : skip_ws (repeat " "%char k ++ s) = skip_ws s.
Proof. induction k as [|k IH]; simpl; done. Qed.

Lemma skip_ws_newline k s : skip_ws (newline k ++ s) = skip_ws s.
Proof. unfold newline. simpl. apply skip_ws_spaces. Qed.

(** The first character of a value: its kind is read off it. *)
Definition opens_value (c : ascii) : bool :=
  negb (is_ws c) && negb (c =? "]")%char && negb (c =? "}")%char
  && negb (c =? ",")%char && negb (c =? ":")%char.

Lemma skip_ws_nonws c s : is_ws c = false -> skip_ws (c :: s) = c :: s.
Proof. intros H. simpl. by rewrite H. Qed.

Lemma skip_ws_opens c s : opens_value c = true -> skip_ws (c :: s) = c :: s.
Proof.
  unfold opens_value. intros H. simpl.
  destruct (is_ws c); [done|done].
Qed.

Lemma digit_or_minus_dispatch c :
  is_digit c || (c =? "-")%char = true ->
  opens_value c = true /\
  (c =? "n")%char = false /\ (c =? "t")%char = false /\ (c =? "f")%char = false /\
  (c =? "034")%char = false /\ (c =? "[")%char = false /\ (c =? "{")%char = false.
Proof.
  destruct c as [[] [] [] [] [] [] [] []]; try discriminate; intros _;
    repeat split; reflexivity.
Qed.

Lemma print_number_head z :
  exists c t, print_number z = c :: t /\ is_digit c || (c =? "-")%char = true.
Proof.
  destruct (print_number_token z) as [Hi Hn].
  destruct (print_number z) as [|c t]; [done|]. exists c, t. split; [done|].
  unfold integer_token in Hi.
  destruct (Ascii.eqb_spec c "-"); [by rewrite orb_true_r|].
  simpl in Hi. destruct (Ascii.eqb_spec c "0"); [by subst|].
  apply andb_prop in Hi as [-> _]. done.
Qed.

Lemma print_head ind v :
  exists c t, print ind v = c :: t /\ opens_value c = true.
Proof.
  destruct v as [|[]|z|s|[|x l]|[|x l]]; try (by eexists _, _).
  destruct (print_number_head z) as (c & t & Hz & Hc).
  exists c, t. split; [done|]. by apply digit_or_minus_dispatch.
Qed.

Lemma parse_value_newline n k s :
  parse_value n (newline k ++ s) = parse_value n s.
Proof. destruct n; simpl; [done|]. by rewrite skip_ws_spaces. Qed.

Lemma parse_value_space n s :
  parse_value n (" "%char :: s) = parse_value n s.
Proof. by destruct n. Qed.

Lemma parse_elements_newline n k s acc :
  parse_elements n (newline k ++ s) acc = parse_elements n s acc.
Proof.
  destruct n; [done|].
  change (parse_elements (S n) ?t acc) with
    (match parse_value n t with
     | None => None
     | Some (v, r) =>
         match skip_ws r with
         | [] => None
         | c :: r' =>
             if (c =? ",")%char then parse_elements n r' (acc ++ [v])
             else if (c =? "]")%char then Some (JArr (acc ++ [v]), r')
             else None
         end
     end).
  by rewrite parse_value_newline.
Qed.

Lemma parse_members_newline n k s acc :
  parse_members n (newline k ++ s) acc = parse_members n s acc.
Proof. destruct n; simpl; [done|]. by rewrite skip_ws_spaces. Qed.

(** ** Sizes and well-formed values *)

Definition sum_sizes {A} (f : A -> nat) : list A -> nat :=
  fix go (l : list A) : nat :=
    match l with
    | [] => O
    | x :: l' => S (f x + go l')
    end.

(** A bound on the nesting of calls that parsing a value takes. *)
Fixpoint size (v : json) : nat :=
  match v with
  | JArr l => S (sum_sizes size l)
  | JObj l => S (sum_sizes (fun kv => size (snd kv)) l)
  | _ => 1
  end.

Definition all {A} (P : A -> Prop) : list A -> Prop :=
  fix go (l : list A) : Prop :=
    match l with
    | [] => True
    | x :: l' => P x /\ go l'
    end.

(** No object has two properties of the same name. *)
Fixpoint distinct_keys (v : json) : Prop :=
  match v with
  | JArr l => all distinct_keys l
  | JObj l => NoDup (map fst l) /\ all (fun kv => distinct_keys (snd kv)) l
  | _ => True
  end.

Lemma obj_set_fresh k v o :
  ~ In k (map fst o) -> obj_set k v o = o ++ [(k, v)].
Proof.
  induction o as [|[k' v'] o IH]; simpl; [done|]. intros Hk.
  destruct (String.eqb_spec k' k); [tauto|]. rewrite IH; [done|tauto].
Qed.

(** ** Parsing what was printed *)

#[local] Arguments newline : simpl never.
#[local] Arguments print_items : simpl never.
#[local] Arguments print : simpl never.

Section RoundTrip.

Variable n : nat.

Hypothesis IH : forall m v ind r,
  (m < n)%nat -> (size v <= m)%nat -> distinct_keys v -> delimited r ->
  parse_value m (print ind v ++ r) = Some (v, r).

Lemma parse_elements_print l : forall acc m ind ind0 r,
  l <> [] -> (m < n)%nat -> (sum_sizes size l <= m)%nat -> all distinct_keys l ->
  parse_elements m
    (print_items (print ind) ind l ++ newline ind0 ++ "]"%char :: r) acc
  = Some (JArr (acc ++ l), r).
Proof.
  induction l as [|x l IHl]; intros acc m ind ind0 r Hne Hm Hsz Hwf; [done|].
  destruct m as [|m]; [simpl in Hsz; lia|].
  simpl in Hsz. destruct Hwf as [Hx Hwf].
  change (parse_elements (S m) ?s acc) with
    (match parse_value m s with
     | None => None
     | Some (v, r) =>
         match skip_ws r with
         | [] => None
         | c :: r' =>
             if (c =? ",")%char then parse_elements m r' (acc ++ [v])
             else if (c =? "]")%char then Some (JArr (acc ++ [v]), r')
             else None
         end
     end).
  destruct l as [|y l].
  - change (print_items (print ind) ind [x]) with (print ind x).
    rewrite IH; [|lia|lia|done|done].
    rewrite skip_ws_newline, skip_ws_nonws by reflexivity. done.
  - change (print_items (print ind) ind (x :: y :: l)) with
      (print ind x ++ ","%char :: newline ind ++ print_items (print ind) ind (y :: l)).
    rewrite <- app_assoc. rewrite IH; [|lia|lia|done|done].
    rewrite <- app_comm_cons, skip_ws_nonws by reflexivity. cbn.
    rewrite <- app_assoc, parse_elements_newline.
    rewrite IHl; [|done|lia|simpl in *; lia|done].
    by rewrite <- app_assoc.
Qed.


(** A property, as [print] writes it. *)
Definition member (ind : nat) (kv : string * json) : text :=
  quote (fst kv) ++ ":"%char :: " "%char :: print ind (snd kv).

Lemma parse_members_member m k rest acc :
  parse_members (S m) (quote k ++ ":"%char :: " "%char :: rest) acc =
    match parse_value m rest with
    | None => None
    | Some (v, r3) =>
        match skip_ws r3 with
        | [] => None
        | c3 :: r4 =>
            if (c3 =? ",")%char then parse_members m r4 (obj_set k v acc)
            else if (c3 =? "}")%char then Some (JObj (obj_set k v acc), r4)
            else None
        end
    end.
Proof.
  unfold quote. rewrite <- app_comm_cons, <- app_assoc.
  change (["034"%char] ++ ?t) with ("034"%char :: t).
  cbn [parse_members].
  rewrite skip_ws_nonws by reflexivity. cbn [Ascii.eqb Bool.eqb].
  rewrite parse_string_escape.
  rewrite skip_ws_nonws by reflexivity. cbn [Ascii.eqb Bool.eqb].
  by rewrite parse_value_space.
Qed.

Lemma parse_members_print l : forall acc m ind ind0 r,
  l <> [] -> (m < n)%nat ->
  (sum_sizes (fun kv => size (snd kv)) l <= m)%nat ->
  all (fun kv => distinct_keys (snd kv)) l ->
  NoDup (map fst (acc ++ l)) ->
  parse_members m
    (print_items (member ind) ind l ++ newline ind0 ++ "}"%char :: r) acc
  = Some (JObj (acc ++ l), r).
Proof.
  induction l as [|[k x] l IHl]; intros acc m ind ind0 r Hne Hm Hsz Hwf Hnd; [done|].
  destruct m as [|m]; [simpl in Hsz; lia|].
  simpl in Hsz. destruct Hwf as [Hx Hwf]. simpl in Hx.
  assert (Hk : obj_set k x acc = acc ++ [(k, x)]).
  { apply obj_set_fresh. rewrite map_app in Hnd. simpl in Hnd.
    apply NoDup_app in Hnd as (_ & Hd & _). intros Hin.
    apply (Hd k); [by apply list_elem_of_In|]. by left. }
  destruct l as [|y l].
  - change (print_items (member ind) ind [(k, x)]) with (member ind (k, x)).
    unfold member at 1. simpl fst. simpl snd.
    rewrite <- app_assoc, <- !app_comm_cons, parse_members_member.
    rewrite IH; [|lia|lia|done|done].
    rewrite skip_ws_newline, skip_ws_nonws by reflexivity.
    cbn [Ascii.eqb Bool.eqb]. by rewrite Hk.
  - change (print_items (member ind) ind ((k, x) :: y :: l)) with
      (member ind (k, x) ++ ","%char :: newline ind
         ++ print_items (member ind) ind (y :: l)).
    unfold member at 1. simpl fst. simpl snd.
    rewrite <- !app_assoc, <- !app_comm_cons, <- app_assoc, parse_members_member.
    rewrite IH; [|lia|lia|done|done].
    rewrite skip_ws_nonws by reflexivity.
    cbn [Ascii.eqb Bool.eqb].
    rewrite parse_members_newline, Hk.
    rewrite IHl; [|done|lia|simpl in *; lia|done|].
    + by rewrite <- app_assoc.
    + by rewrite <- app_assoc.
Qed.

End RoundTrip.

Lemma parse_value_number m c s :
  is_digit c || (c =? "-")%char = true ->
  parse_value (S m) (c :: s) =
    match parse_number (c :: s) with
    | Some (z, r') => Some (JNum z, r')
    | None => None
    end.
Proof.
  intros H.
  destruct (digit_or_minus_dispatch c H) as (Ho & Hn & Ht & Hf & Hq & Ha & Hb).
  cbn [parse_value]. rewrite (skip_ws_opens _ _ Ho).
  by rewrite Hn, Ht, Hf, Hq, Ha, Hb, H.
Qed.

Lemma print_items_head {A} (pr : A -> text) ind x l :
  exists t, print_items pr ind (x :: l) = pr x ++ t.
Proof.
  destruct l as [|y l].
  - exists []. by rewrite app_nil_r.
  - by eexists.
Qed.

Lemma opens_value_not_close c :
  opens_value c = true ->
  is_ws c = false /\ (c =? "]")%char = false /\ (c =? "}")%char = false.
Proof.
  unfold opens_value. intros H.
  repeat (apply andb_prop in H as [H ?]).
  repeat split; by apply negb_true_iff.
Qed.

(** Parsing the text of a value gives the value back, and what follows
    the text. *)
Lemma parse_print n : forall m v ind r,
  (m < n)%nat -> (size v <= m)%nat -> distinct_keys v -> delimited r ->
  parse_value m (print ind v ++ r) = Some (v, r).
Proof.
  induction n as [|n IHn]; intros m v ind r Hm Hsz Hwf Hr; [lia|].
  destruct (decide (m < n)%nat) as [Hlt|Hge]; [by apply IHn|].
  assert (m = n) by lia. subst m. clear Hm Hge.
  destruct n as [|m]; [destruct v; simpl in Hsz; lia|].
  destruct v as [|[]|z|s|[|x l]|[|[k x] l]]; try reflexivity.
  - change (print ind (JNum z)) with (print_number z).
    destruct (print_number_head z) as (c & t & Hz & Hc).
    pose proof (parse_number_print z r Hr) as Hp.
    rewrite Hz in *. rewrite <- app_comm_cons in *.
    by rewrite (parse_value_number _ _ _ Hc), Hp.
  - change (print ind (JStr s)) with (quote s). unfold quote.
    rewrite <- app_comm_cons, <- app_assoc.
    change (parse_value (S m) ("034"%char :: ?t)) with
      (match parse_string t with
       | Some (str, r') => Some (JStr str, r')
       | None => None
       end).
    change (["034"%char] ++ r) with ("034"%char :: r).
    by rewrite parse_string_escape.
  - change (print ind (JArr (x :: l))) with
      ("["%char :: newline (ind + 2)
         ++ print_items (print (ind + 2)) (ind + 2) (x :: l)
         ++ newline ind ++ ["]"%char]).
    rewrite <- app_comm_cons.
    change (parse_value (S m) ("["%char :: ?t)) with
      (match skip_ws t with
       | [] => None
       | c2 :: r2 =>
           if (c2 =? "]")%char then Some (JArr [], r2)
           else parse_elements m (c2 :: r2) []
       end).
    rewrite <- !app_assoc, skip_ws_newline.
    change (["]"%char] ++ r) with ("]"%char :: r).
    destruct (print_items_head (print (ind + 2)) (ind + 2) x l) as [t Ht].
    destruct (print_head (ind + 2) x) as (c & t' & Hx & Hc).
    destruct (opens_value_not_close _ Hc) as (Hws & Hclose & _).
    pose proof (parse_elements_print (S m) IHn (x :: l) [] m (ind + 2) ind r) as Hp.
    rewrite Ht, Hx in *. rewrite <- !app_comm_cons in *.
    rewrite (skip_ws_nonws _ _ Hws), Hclose.
    apply Hp; [done|lia|cbn [size] in Hsz; lia|exact Hwf].
  - change (print ind (JObj ((k, x) :: l))) with
      ("{"%char :: newline (ind + 2)
         ++ print_items (member (ind + 2)) (ind + 2) ((k, x) :: l)
         ++ newline ind ++ ["}"%char]).
    rewrite <- app_comm_cons.
    change (parse_value (S m) ("{"%char :: ?t)) with
      (match skip_ws t with
       | [] => None
       | c2 :: r2 =>
           if (c2 =? "}")%char then Some (JObj [], r2)
           else parse_members m (c2 :: r2) []
       end).
    rewrite <- !app_assoc, skip_ws_newline.
    change (["}"%char] ++ r) with ("}"%char :: r).
    destruct (print_items_head (member (ind + 2)) (ind + 2) (k, x) l) as [t Ht].
    pose proof (parse_members_print (S m) IHn ((k, x) :: l) [] m (ind + 2) ind r) as Hp.
    cbn [distinct_keys] in Hwf. destruct Hwf as [Hnd Hwf].
    rewrite Ht in *. unfold member at 1 in Hp. unfold member at 1. unfold quote in *.
    rewrite <- !app_comm_cons in *.
    rewrite skip_ws_nonws by reflexivity. cbn [Ascii.eqb Bool.eqb].
    apply Hp; [done|lia|cbn [size] in Hsz; lia|exact Hwf|exact Hnd].
Qed.

(** ** The nesting bound is within the length of the text *)

Lemma sum_sizes_items {A} (f : A -> nat) (pr : A -> text) ind l :
  Forall (fun x => (f x <= length (pr x))%nat) l ->
  (sum_sizes f l <= S (length (print_items pr ind l)))%nat.
Proof.
  induction 1 as [|x l Hx Hl IHl]; [simpl; lia|].
  destruct l as [|y l].
  - change (print_items pr ind [x]) with (pr x). simpl. lia.
  - change (print_items pr ind (x :: y :: l)) with
      (pr x ++ ","%char :: newline ind ++ print_items pr ind (y :: l)).
    rewrite length_app. cbn [length]. rewrite length_app.
    change (sum_sizes f (x :: y :: l)) with (S (f x + sum_sizes f (y :: l))).
    lia.
Qed.

Lemma newline_length k : length (newline k) = S k.
Proof. unfold newline. simpl. by rewrite repeat_length. Qed.

Lemma size_print n : forall v ind,
  (size v <= n)%nat -> (size v <= length (print ind v))%nat.
Proof.
  induction n as [|n IHn]; intros v ind Hsz; [destruct v; simpl in Hsz; lia|].
  destruct v as [|[]|z|s|[|x l]|[|kx l]]; try (simpl; lia).
  - destruct (print_number_head z) as (c & t & Hz & _).
    change (print ind (JNum z)) with (print_number z). rewrite Hz. simpl. lia.
  - change (print ind (JArr (x :: l))) with
      ("["%char :: newline (ind + 2)
         ++ print_items (print (ind + 2)) (ind + 2) (x :: l)
         ++ newline ind ++ ["]"%char]).
    cbn [size length] in *. rewrite !length_app.
    pose proof (sum_sizes_items size (print (ind + 2)) (ind + 2) (x :: l)) as Hs.
    assert (Hall : Forall (fun v => (size v <= length (print (ind + 2) v))%nat) (x :: l)).
    { clear Hs. revert Hsz. generalize (x :: l). intros l0.
      induction l0 as [|y l0 IHl0]; intros Hsz; constructor.
      - apply IHn. cbn [sum_sizes] in Hsz. lia.
      - apply IHl0. cbn [sum_sizes] in Hsz. lia. }
    specialize (Hs Hall). rewrite !newline_length. cbn [length]. lia.
  - change (print ind (JObj (kx :: l))) with
      ("{"%char :: newline (ind + 2)
         ++ print_items (member (ind + 2)) (ind + 2) (kx :: l)
         ++ newline ind ++ ["}"%char]).
    cbn [size length] in *. rewrite !length_app.
    pose proof (sum_sizes_items (fun kv => size (snd kv)) (member (ind + 2))
                  (ind + 2) (kx :: l)) as Hs.
    assert (Hall : Forall (fun kv => (size (snd kv) <= length (member (ind + 2) kv))%nat)
                     (kx :: l)).
    { clear Hs. revert Hsz. generalize (kx :: l). intros l0.
      induction l0 as [|y l0 IHl0]; intros Hsz; constructor.
      - unfold member. rewrite length_app. cbn [length].
        assert (size (snd y) <= length (print (ind + 2) (snd y)))%nat; [|lia].
        apply IHn. cbn [sum_sizes] in Hsz. lia.
      - apply IHl0. cbn [sum_sizes] in Hsz. lia. }
    specialize (Hs Hall). rewrite !newline_length. cbn [length]. lia.
Qed.

(** [JSON.parse(JSON.stringify(v, null, 2))] is [v]. *)
Theorem parse_stringify v : distinct_keys v -> parse (stringify v) = Some v.
Proof.
  intros Hwf. unfold parse, stringify.
  rewrite list_ascii_of_string_of_list_ascii.
  pose proof (parse_print (S (S (length (print 0 v)))) (S (length (print 0 v)))
                v 0 []) as Hp.
  rewrite app_nil_r in Hp. rewrite Hp; [done|lia| |done|done].
  pose proof (size_print (size v) v 0). lia.
Qed.

End JSONProofs.

(* ===================================================================== *)
(** * Part III: the channel state manager                                 *)
(* ===================================================================== *)

Module ChannelProofs.
Import Channel.
Local Open Scope Z_scope.

Section WithEthers.

Context `{Ethers}.

(** A channel has an audit record exactly when it is known. *)
Definition consistent (m : Manager) : Prop :=
  forall cid, channels m !! cid = None <-> auditLog m !! cid = None.

(** The two ways out of [updateChannelState]. *)
Lemma update_cases cid su m :
  (updateChannelState cid su m = (m, false) /\
   (channels m !! cid = None \/
    exists ch, channels m !! cid = Some ch /\
      (su_sequence su <= sequence ch \/
       verifyStateUpdateSignature su (userSignature su) (userAddress ch) = false \/
       verifyStateUpdateSignature su (operatorSignature su) (operatorAddress ch) = false)))
  \/
  (exists ch, channels m !! cid = Some ch /\
     sequence ch < su_sequence su /\
     verifyStateUpdateSignature su (userSignature su) (userAddress ch) = true /\
     verifyStateUpdateSignature su (operatorSignature su) (operatorAddress ch) = true /\
     updateChannelState cid su m =
       ({| channels := <[cid := set_accepted ch su]> (channels m);
           auditLog := match auditLog m !! cid with
                       | Some log => <[cid := push_state log su]> (auditLog m)
                       | None => auditLog m
                       end |}, true)).
Proof.
  unfold updateChannelState.
  destruct (channels m !! cid) as [ch|] eqn:Hch; [|left; auto].
  destruct (su_sequence su <=? sequence ch) eqn:Hseq.
  { left. split; [done|]. right. exists ch. split; [done|]. left. lia. }
  destruct (verifyStateUpdateSignature su (userSignature su) (userAddress ch)) eqn:Hu; simpl.
  2:{ left. split; [done|]. right. exists ch. auto. }
  destruct (verifyStateUpdateSignature su (operatorSignature su) (operatorAddress ch)) eqn:Ho; simpl.
  2:{ left. split; [done|]. right. exists ch. auto. }
  right. exists ch. repeat split; try done. lia.
Qed.

Lemma consistent_new : consistent new_manager.
Proof. intros cid. simpl. by rewrite !lookup_empty. Qed.

Lemma consistent_set_status cid s m :
  consistent m -> consistent (set_channel_status cid s m).
Proof.
  intros Hc cid'. unfold set_channel_status.
  destruct (channels m !! cid) eqn:E; [|apply Hc]. simpl.
  rewrite lookup_insert. case_decide; subst; [|apply Hc].
  split; [done|]. intros Hn. apply Hc in Hn. congruence.
Qed.

Lemma consistent_call c m : consistent m -> consistent (call c m).
Proof.
  intros Hc. destruct c; simpl; try by apply consistent_set_status.
  - intros cid. simpl. rewrite !lookup_insert. case_decide; [done|apply Hc].
  - destruct (update_cases channelId newState m) as [[-> _]|(ch & Hch & _ & _ & _ & ->)];
      [done|].
    intros cid. simpl.
    destruct (auditLog m !! channelId) as [log|] eqn:Hlog.
    + rewrite !lookup_insert. case_decide; [done|apply Hc].
    + apply Hc in Hlog. congruence.
  - unfold recordOrderIntent.
    destruct (auditLog m !! channelId) as [log|] eqn:Hlog; [|done].
    intros cid. simpl. rewrite lookup_insert. case_decide; subst; [|apply Hc].
    split; [|done]. intros Hn. apply Hc in Hn. congruence.
  - unfold recordFill.
    destruct (auditLog m !! channelId) as [log|] eqn:Hlog; [|done].
    intros cid. simpl. rewrite lookup_insert. case_decide; subst; [|apply Hc].
    split; [|done]. intros Hn. apply Hc in Hn. congruence.
  - unfold getNextNonce.
    destruct (channels m !! channelId) as [ch|] eqn:Hch; [|done].
    intros cid. simpl. rewrite lookup_insert. case_decide; subst; [|apply Hc].
    split; [done|]. intros Hn. apply Hc in Hn. congruence.
  - intros cid. simpl. rewrite !lookup_delete. case_decide; [done|apply Hc].
Qed.

Lemma run_snoc cs c m : run (cs ++ [c]) m = call c (run cs m).
Proof. unfold run. by rewrite fold_left_app. Qed.

Lemma consistent_run cs : consistent (run cs new_manager).
Proof.
  induction cs as [|c cs IH] using rev_ind; [apply consistent_new|].
  rewrite run_snoc. by apply consistent_call.
Qed.

(** C2.  [updateChannelState] is all-or-nothing, on every manager that a
    history of calls can produce.  An update whose sequence is not above
    the channel's is rejected whatever [verifyTypedData] answers; an
    unknown channel and a failing user or operator signature are rejected
    too; every rejection hands back the manager it was given; and an
    acceptance replaces [sequence], [balances] and [latestState] of the
    channel, keeps its other fields, and appends the update to the
    [states] of its audit record. *)
Theorem C2_updateChannelState_all_or_nothing
    (cs : list Call) (cid : string) (su : StateUpdate) :
  let m := run cs new_manager in
  let r := updateChannelState cid su m in
  (forall ch, channels m !! cid = Some ch ->
     su_sequence su <= sequence ch -> r = (m, false)) /\
  (channels m !! cid = None -> r = (m, false)) /\
  (forall ch, channels m !! cid = Some ch ->
     verifyStateUpdateSignature su (userSignature su) (userAddress ch) = false ->
     r = (m, false)) /\
  (forall ch, channels m !! cid = Some ch ->
     verifyStateUpdateSignature su (operatorSignature su) (operatorAddress ch) = false ->
     r = (m, false)) /\
  (snd r = false -> fst r = m) /\
  (snd r = true ->
     exists ch log,
       channels m !! cid = Some ch /\ auditLog m !! cid = Some log /\
       fst r = {| channels := <[cid := set_accepted ch su]> (channels m);
                  auditLog := <[cid := push_state log su]> (auditLog m) |} /\
       sequence (set_accepted ch su) = su_sequence su /\
       balances (set_accepted ch su) = su_balances su /\
       latestState (set_accepted ch su) = Some su /\
       states (push_state log su) = states log ++ [su]).
Proof.
  intros m r. subst r.
  destruct (update_cases cid su m)
    as [[Hr Hwhy]|(ch & Hch & Hseq & Hu & Ho & Hr)]; rewrite Hr.
  - repeat split; done.
  - repeat split.
    + intros ch' Hch' Hle. rewrite Hch in Hch'. injection Hch' as <-. lia.
    + intros Hn. congruence.
    + intros ch' Hch' Hf. rewrite Hch in Hch'. injection Hch' as <-. congruence.
    + intros ch' Hch' Hf. rewrite Hch in Hch'. injection Hch' as <-. congruence.
    + simpl. discriminate.
    + intros _. simpl.
      destruct (auditLog m !! cid) as [log|] eqn:Hlog.
      * exists ch, log. repeat split; done.
      * apply (consistent_run cs) in Hlog. fold m in Hlog. congruence.
Qed.

(** C7.  Gaps in the sequence are accepted: a dual-signed update is
    applied as soon as its sequence is strictly above the channel's, be it
    3 on a channel at 0. *)
Theorem C7_sequence_gap_accepted (m : Manager) (cid : string)
    (ch : ChannelState) (su : StateUpdate) :
  channels m !! cid = Some ch ->
  sequence ch < su_sequence su ->
  verifyStateUpdateSignature su (userSignature su) (userAddress ch) = true ->
  verifyStateUpdateSignature su (operatorSignature su) (operatorAddress ch) = true ->
  snd (updateChannelState cid su m) = true /\
  exists ch', channels (fst (updateChannelState cid su m)) !! cid = Some ch' /\
              sequence ch' = su_sequence su /\ latestState ch' = Some su.
Proof.
  intros Hch Hseq Hu Ho.
  destruct (update_cases cid su m)
    as [[_ [Hn|(ch' & Hch' & Hwhy)]]|(ch' & Hch' & _ & _ & _ & Hr)].
  - congruence.
  - rewrite Hch in Hch'. injection Hch' as <-.
    destruct Hwhy as [?|[?|?]]; [lia|congruence|congruence].
  - rewrite Hch in Hch'. injection Hch' as <-. rewrite Hr. simpl.
    split; [done|]. exists (set_accepted ch su).
    by rewrite lookup_insert_eq.
Qed.

(** ** Histories and the force-exit proof *)

(** What [accepted] records agrees with the manager: a channel is known
    exactly when it has a record, and then the record is the [states] of
    its audit record and [latestState] is the last of them. *)
Definition tracked (m : Manager) (g : gmap string (list StateUpdate)) : Prop :=
  forall cid,
    match channels m !! cid with
    | None => g !! cid = None /\ auditLog m !! cid = None
    | Some ch =>
        exists log, auditLog m !! cid = Some log /\
                    g !! cid = Some (states log) /\
                    latestState ch = last (states log)
    end.

Lemma tracked_set_status cid s m g :
  tracked m g -> tracked (set_channel_status cid s m) g.
Proof.
  intros Ht cid'. unfold set_channel_status.
  destruct (channels m !! cid) as [ch|] eqn:E; [|apply Ht]. simpl.
  rewrite lookup_insert. case_decide; subst; [|apply Ht].
  specialize (Ht cid'). by rewrite E in Ht.
Qed.

Lemma tracked_step c m g :
  tracked m g -> tracked (call c m) (snd (track c (m, g))).
Proof.
  intros Ht. destruct c; simpl; try by apply tracked_set_status.
  - intros cid. simpl. rewrite !lookup_insert. case_decide; [|apply Ht].
    eexists. by repeat split.
  - destruct (update_cases channelId newState m)
      as [[-> _]|(ch & Hch & _ & _ & _ & ->)]; simpl; [done|].
    pose proof (Ht channelId) as Hc. rewrite Hch in Hc.
    destruct Hc as (log & Hlog & Hg & Hlast). rewrite Hlog, Hg.
    intros cid. simpl. rewrite !lookup_insert. case_decide; [|apply Ht].
    exists (push_state log newState). repeat split; simpl.
    by rewrite last_snoc.
  - unfold recordOrderIntent.
    destruct (auditLog m !! channelId) as [log|] eqn:Hlog; [|done].
    intros cid. simpl. specialize (Ht cid).
    rewrite lookup_insert. case_decide; subst; [|done].
    destruct (channels m !! cid) as [ch|].
    + destruct Ht as (log' & Hlog' & Hg & Hlast).
      rewrite Hlog in Hlog'. injection Hlog' as <-. by eexists.
    + destruct Ht as [_ Ht]. congruence.
  - unfold recordFill.
    destruct (auditLog m !! channelId) as [log|] eqn:Hlog; [|done].
    intros cid. simpl. specialize (Ht cid).
    rewrite lookup_insert. case_decide; subst; [|done].
    destruct (channels m !! cid) as [ch|].
    + destruct Ht as (log' & Hlog' & Hg & Hlast).
      rewrite Hlog in Hlog'. injection Hlog' as <-. by eexists.
    + destruct Ht as [_ Ht]. congruence.
  - unfold getNextNonce.
    destruct (channels m !! channelId) as [ch|] eqn:Hch; [|done].
    intros cid. simpl. rewrite lookup_insert. case_decide; subst; [|apply Ht].
    specialize (Ht cid). by rewrite Hch in Ht.
  - intros cid. simpl. rewrite !lookup_delete. case_decide; [done|apply Ht].
Qed.

Lemma tracked_run cs :
  let mg := fold_left (fun mg c => track c mg) cs (new_manager, ∅) in
  fst mg = run cs new_manager /\ tracked (fst mg) (snd mg).
Proof.
  induction cs as [|c cs IH] using rev_ind.
  - split; [done|]. intros cid. simpl. by rewrite !lookup_empty.
  - simpl in *. rewrite fold_left_app, run_snoc. simpl.
    destruct (fold_left _ cs _) as [m g]. destruct IH as [<- Ht]. simpl.
    split; [done|]. by apply (tracked_step c) in Ht.
Qed.

Lemma tracked_accepted cs : tracked (run cs new_manager) (accepted cs).
Proof.
  destruct (tracked_run cs) as [Hm Ht]. unfold accepted. by rewrite <- Hm.
Qed.

(** C6.  [generateForceExitProof] answers [null] exactly when the channel
    is unknown or no state update was accepted for it since it was
    initialised.  Otherwise the proof holds the last accepted update, the
    recorded order intents whose [expiresAt] is above the timestamp of
    that update, the recorded fills whose timestamp is above it (both in
    recording order), and the time of generation. *)
Theorem C6_generateForceExitProof (cs : list Call) (cid : string) (now : Z) :
  let m := run cs new_manager in
  (generateForceExitProof cid now m = None <->
     accepted cs !! cid = None \/ accepted cs !! cid = Some []) /\
  (forall l latest, accepted cs !! cid = Some (l ++ [latest]) ->
     exists log, auditLog m !! cid = Some log /\
       generateForceExitProof cid now m =
         Some {| p_channelId := cid;
                 p_latestState := latest;
                 orderIntents :=
                   List.filter (fun o => su_timestamp latest <? expiresAt o) (orders log);
                 p_fills :=
                   List.filter (fun f => su_timestamp latest <? f_timestamp f) (fills log);
                 generatedAt := now |}) /\
  (forall p, generateForceExitProof cid now m = Some p ->
     exists l log, accepted cs !! cid = Some (l ++ [p_latestState p]) /\
       auditLog m !! cid = Some log /\
       (forall o, In o (orderIntents p) <->
                  In o (orders log) /\ su_timestamp (p_latestState p) < expiresAt o) /\
       (forall f, In f (p_fills p) <->
                  In f (fills log) /\ su_timestamp (p_latestState p) < f_timestamp f) /\
       generatedAt p = now).
Proof.
  intros m. pose proof (tracked_accepted cs cid) as Ht. fold m in Ht.
  unfold generateForceExitProof.
  destruct (channels m !! cid) as [ch|] eqn:Hch.
  - destruct Ht as (log & Hlog & Hg & Hlast). rewrite Hlog, Hg, Hlast.
    destruct (states log) as [|s0 ss] using rev_ind; simpl.
    + repeat split; auto.
      * intros l latest Heq. injection Heq as Heq. by destruct l.
      * discriminate.
    + clear IHss. rewrite last_snoc. repeat split.
      * discriminate.
      * intros [Hn|Hn]; [done|]. injection Hn as Hn. by destruct ss.
      * intros l latest Heq. injection Heq as Heq.
        apply app_inj_tail in Heq as [-> ->]. by exists log.
      * intros p Hp. injection Hp as <-. simpl. exists ss, log.
        repeat split; try done.
        all: rewrite ?filter_In, ?Z.ltb_lt in *; tauto.
  - destruct Ht as [Hg Hlog]. rewrite Hg. repeat split; auto; discriminate.
Qed.

(** Without a call of [initializeChannel] for it, a channel has no audit
    record. *)
Lemma never_initialized_no_log cs cid :
  forallb (fun c => negb (initializes cid c)) cs = true ->
  auditLog (run cs new_manager) !! cid = None.
Proof.
  induction cs as [|c cs IH] using rev_ind; intros Hn.
  - apply lookup_empty.
  - rewrite forallb_app in Hn. apply andb_prop in Hn as [Hcs Hc].
    simpl in Hc. rewrite andb_true_r in Hc. apply negb_true_iff in Hc.
    specialize (IH Hcs). rewrite run_snoc.
    set (m := run cs new_manager) in *.
    destruct c; simpl in *.
    + apply String.eqb_neq in Hc. by rewrite lookup_insert_ne.
    + destruct (update_cases channelId newState m)
        as [[-> _]|(ch & Hch & _ & _ & _ & ->)]; simpl; [done|].
      destruct (auditLog m !! channelId) as [log|] eqn:Hlog; [|done].
      rewrite lookup_insert_ne; [done|congruence].
    + unfold recordOrderIntent.
      destruct (auditLog m !! channelId) as [log|] eqn:Hlog; [|done].
      simpl. rewrite lookup_insert_ne; [done|congruence].
    + unfold recordFill.
      destruct (auditLog m !! channelId) as [log|] eqn:Hlog; [|done].
      simpl. rewrite lookup_insert_ne; [done|congruence].
    + unfold getNextNonce. by destruct (channels m !! channelId).
    + unfold initiateCooperativeClose, set_channel_status.
      by destruct (channels m !! channelId).
    + unfold initiateForceExit, set_channel_status.
      by destruct (channels m !! channelId).
    + unfold finalizeClose, set_channel_status.
      by destruct (channels m !! channelId).
    + rewrite lookup_delete. by case_decide.
Qed.

(** C10.  For a channel id that [initializeChannel] was never called for,
    [recordOrderIntent] and [recordFill] hand back the manager they were
    given (nothing is recorded, nothing is raised); so whatever is called
    afterwards, every force-exit proof is the one that would have been
    produced without the call; and the channel still has no audit
    record. *)
Theorem C10_unknown_channel_records_nothing (cs : list Call) (cid : string) :
  forallb (fun c => negb (initializes cid c)) cs = true ->
  let m := run cs new_manager in
  (forall o, recordOrderIntent cid o m = m) /\
  (forall f, recordFill cid f m = m) /\
  (forall o later cid' now,
     generateForceExitProof cid' now (run later (recordOrderIntent cid o m)) =
     generateForceExitProof cid' now (run later m)) /\
  (forall f later cid' now,
     generateForceExitProof cid' now (run later (recordFill cid f m)) =
     generateForceExitProof cid' now (run later m)) /\
  (forall o f, getAuditLog cid (recordFill cid f (recordOrderIntent cid o m)) = None).
Proof.
  intros Hn m. pose proof (never_initialized_no_log cs cid Hn) as Hlog.
  fold m in Hlog.
  assert (Ho : forall o, recordOrderIntent cid o m = m).
  { intros o. unfold recordOrderIntent. by rewrite Hlog. }
  assert (Hf : forall f, recordFill cid f m = m).
  { intros f. unfold recordFill. by rewrite Hlog. }
  repeat split; intros; by rewrite ?Ho, ?Hf.
Qed.


(** ** Export and import *)

Lemma js_StateUpdate_keys s : JSONProofs.distinct_keys (js_StateUpdate s).
Proof.
  simpl. repeat split;
    apply NoDup_ListNoDup; repeat constructor; simpl; intuition discriminate.
Qed.

Lemma js_OrderIntent_keys o : JSONProofs.distinct_keys (js_OrderIntent o).
Proof.
  simpl. repeat split.
  apply NoDup_ListNoDup; repeat constructor; simpl; intuition discriminate.
Qed.

Lemma js_Fill_keys f : JSONProofs.distinct_keys (js_Fill f).
Proof.
  unfold js_Fill. destruct (batchId f); simpl; repeat split;
    apply NoDup_ListNoDup; repeat constructor; simpl; intuition discriminate.
Qed.

Lemma js_all_keys {A} (js : A -> JSON.json) (l : list A) :
  (forall x, JSONProofs.distinct_keys (js x)) ->
  JSONProofs.all JSONProofs.distinct_keys (map js l).
Proof. intros Hjs. induction l as [|x l IH]; simpl; [done|]. by split. Qed.

Lemma js_ForceExitProof_keys p : JSONProofs.distinct_keys (js_ForceExitProof p).
Proof.
  unfold js_ForceExitProof. cbn [JSONProofs.distinct_keys JSONProofs.all snd].
  split; [apply NoDup_ListNoDup; repeat constructor; simpl; intuition discriminate|].
  split; [done|]. split; [apply js_StateUpdate_keys|].
  split; [apply js_all_keys, js_OrderIntent_keys|].
  split; [apply js_all_keys, js_Fill_keys|]. done.
Qed.

(** C9.  For a channel that has a force-exit proof, [exportProof] answers
    a string, and [importProof] of that string is the JavaScript value of
    the proof that was exported: the same properties with the same
    values, down to every order intent and fill. *)
Theorem C9_import_export_round_trip
    (m : Manager) (cid : string) (now : Z) (p : ForceExitProof) :
  generateForceExitProof cid now m = Some p ->
  exists proofJson,
    exportProof cid now m = Some proofJson /\
    importProof proofJson = Some (js_ForceExitProof p).
Proof.
  intros Hp. unfold exportProof, importProof. rewrite Hp.
  eexists. split; [reflexivity|].
  apply JSONProofs.parse_stringify, js_ForceExitProof_keys.
Qed.

End WithEthers.

(** ** The statements at concrete histories

    A stand-in for [ethers]: a signature is the address of its signer. *)
Definition toy_ethers : Ethers :=
  {| verifyTypedData := fun _ _ signature => Some signature |}.

Definition b0 : Balances := {| base := "1"; quote := "1000" |}.

Definition su3 : StateUpdate :=
  {| su_channelId := "ch"; su_sequence := 3;
     su_balances := {| base := "2"; quote := "600" |};
     cumulativeFees := "0"; su_timestamp := 50;
     userSignature := "0xAbC1"; operatorSignature := "0xDEF2" |}.

Definition intent1 (expiry : Z) : OrderIntent :=
  {| oi_marketId := "ETH-USDC"; oi_side := buy; oi_quantity := "1";
     oi_limitPrice := "400"; oi_nonce := 0; expiresAt := expiry;
     oi_signature := "0xabc1"; oi_userAddress := "0xabc1" |}.

Definition fill1 (ts : Z) : Fill :=
  {| orderId := "o1"; fillPrice := "400"; fillQuantity := "1"; fee := "0";
     f_timestamp := ts; batchId := None; f_operatorSignature := "0xdef2" |}.

Definition opened : list Call := [CInitialize "ch" "0xabc1" "0xdef2" b0].

Definition traded : list Call :=
  opened ++ [CRecordOrderIntent "ch" (intent1 40); CUpdate "ch" su3;
             CRecordOrderIntent "ch" (intent1 90); CRecordFill "ch" (fill1 50);
             CRecordFill "ch" (fill1 60)].

Lemma C2_witness :
  updateChannelState (H := toy_ethers) "ch" su3 (run (H := toy_ethers) traded new_manager)
  = (run (H := toy_ethers) traded new_manager, false).
Proof.
  destruct (C2_updateChannelState_all_or_nothing (H := toy_ethers) traded "ch" su3)
    as [Hstale _].
  eapply Hstale; [vm_compute; reflexivity | vm_compute; discriminate].
Defined.

Lemma C7_witness :
  snd (updateChannelState (H := toy_ethers) "ch" su3
         (run (H := toy_ethers) opened new_manager)) = true.
Proof.
  eapply proj1.
  eapply (C7_sequence_gap_accepted (H := toy_ethers)).
  - vm_compute; reflexivity.
  - vm_compute; reflexivity.
  - vm_compute; reflexivity.
  - vm_compute; reflexivity.
Defined.

Lemma C6_witness :
  exists log,
    auditLog (run (H := toy_ethers) traded new_manager) !! "ch" = Some log /\
    generateForceExitProof "ch" 100 (run (H := toy_ethers) traded new_manager) =
      Some {| p_channelId := "ch"; p_latestState := su3;
              orderIntents :=
                List.filter (fun o => su_timestamp su3 <? expiresAt o) (orders log);
              p_fills :=
                List.filter (fun f => su_timestamp su3 <? f_timestamp f) (fills log);
              generatedAt := 100 |}.
Proof.
  destruct (C6_generateForceExitProof (H := toy_ethers) traded "ch" 100)
    as (_ & Hsome & _).
  apply (Hsome []). vm_compute. reflexivity.
Defined.

Lemma C10_witness :
  recordOrderIntent "other" (intent1 90) (run (H := toy_ethers) traded new_manager)
  = run (H := toy_ethers) traded new_manager.
Proof.
  destruct (C10_unknown_channel_records_nothing (H := toy_ethers) traded "other")
    as [Ho _]; [vm_compute; reflexivity | apply Ho].
Defined.

Lemma C9_witness :
  exists proofJson,
    exportProof "ch" 100 (run (H := toy_ethers) traded new_manager) = Some proofJson /\
    importProof proofJson =
      Some (js_ForceExitProof
              {| p_channelId := "ch"; p_latestState := su3;
                 orderIntents := [intent1 90]; p_fills := [fill1 60];
                 generatedAt := 100 |}).
Proof.
  apply (C9_import_export_round_trip (run (H := toy_ethers) traded new_manager) "ch" 100).
  vm_compute. reflexivity.
Defined.

End ChannelProofs.

(* ===================================================================== *)
(** * Part IV: the matching engine                                        *)
(* ===================================================================== *)

Module MatcherProofs.
Import Matcher.
Local Open Scope Q_scope.

(** ** Concrete markets used by the examples *)

Definition genId (k : nat) : string := String (ascii_of_nat (97 + k)) EmptyString.
Definition genId' (k : nat) : string := String (ascii_of_nat (107 + k)) EmptyString.
Definition clock (k : nat) : Z := (1000 + Z.of_nat k)%Z.

Definition empty_book : Orderbook :=
  {| yesBids := []; yesAsks := []; noBids := []; noAsks := [] |}.

Definition market (h_book : Orderbook) (b : gmap string UserBalance)
    : PredictionMarketState :=
  {| marketId := "prediction-market-1"; question := "?"; orderbook := h_book;
     balances := b; fills := []; sequence := 0; s_timestamp := 0;
     lastYesPrice := None; lastNoPrice := None |}.

Definition request (u : string) (o : Outcome) (s : OrderSide) (t : OrderType)
    (p : option Q) (q : Q) : OrderRequest :=
  {| r_userId := u; r_outcome := o; r_side := s; r_type := t; r_price := p;
     r_quantity := q |}.

(** Running requests one after the other, each on the store and the state
    that the one before left. *)
Fixpoint process_all (h : Heap) (s : PredictionMarketState)
    (rs : list (OrderRequest * (nat -> string))) : option (Heap * PredictionMarketState) :=
  match rs with
  | [] => Some (h, s)
  | (r, gen) :: rs' =>
      match processOrder gen clock h s r with
      | Some (h', res) => process_all h' (newState res) rs'
      | None => None
      end
  end.

(** ** Validation *)

Lemma Qltb_lt a b : Qltb a b = true <-> a < b.
Proof.
  unfold Qltb. rewrite negb_true_iff, <- not_true_iff_false, Qle_bool_iff.
  split; [apply Qnot_le_lt | apply Qlt_not_le].
Qed.

Lemma Qltb_ge a b : Qltb a b = false <-> b <= a.
Proof. unfold Qltb. by rewrite negb_false_iff, Qle_bool_iff. Qed.

(** The price that the cash check of [validateRequest] multiplies the
    quantity with: [request.price || 1]. *)
Definition checked_price (r : OrderRequest) : Q :=
  match r_price r with
  | Some p => if Qeq_bool p 0 then 1 else p
  | None => 1
  end.

(** When [validateRequest] answers an error. *)
Lemma validateRequest_rejects state r :
  validateRequest state r <> None <->
  (balances state !! r_userId r = None
   \/ r_quantity r <= 0
   \/ (r_type r = LIMIT /\
       (r_price r = None \/ exists p, r_price r = Some p /\ (p <= 0 \/ 1 <= p)))
   \/ (r_side r = BUY /\ exists b, balances state !! r_userId r = Some b /\
         usdc b < checked_price r * r_quantity r)
   \/ (r_side r = SELL /\ exists b, balances state !! r_userId r = Some b /\
         tokens_of (r_outcome r) b < r_quantity r)).
Proof.
  unfold validateRequest, checked_price.
  destruct (balances state !! r_userId r) as [b|] eqn:Hb.
  2:{ split; [auto|done]. }
  destruct (Qle_bool (r_quantity r) 0) eqn:Hq.
  { apply Qle_bool_iff in Hq. split; [auto|done]. }
  assert (Hq' : ~ r_quantity r <= 0).
  { intros Hle. apply Qle_bool_iff in Hle. congruence. }
  assert (Hprice :
    match r_type r with
    | LIMIT => match r_price r with
               | None => Some PriceRequired
               | Some p => if Qle_bool p 0 || Qle_bool 1 p
                           then Some PriceOutOfRange else None
               end
    | MARKET => None
    end <> None <->
    (r_type r = LIMIT /\
       (r_price r = None \/ exists p, r_price r = Some p /\ (p <= 0 \/ 1 <= p)))).
  { destruct (r_type r); [|split; [done|intros [? _]; done]].
    destruct (r_price r) as [p|]; [|split; [auto|done]].
    destruct (Qle_bool p 0 || Qle_bool 1 p) eqn:Hp.
    - apply orb_true_iff in Hp. rewrite !Qle_bool_iff in Hp.
      split; [|done]. intros _. split; [done|]. right. by exists p.
    - apply orb_false_iff in Hp as [Hp0 Hp1].
      split; [done|]. intros [_ [?|(p' & [= <-] & [Hle|Hle])]]; [done| |];
        apply Qle_bool_iff in Hle; congruence. }
  destruct (match r_type r with LIMIT => _ | MARKET => _ end) as [e|] eqn:He.
  { split; [|done]. intros _. right. right. left. by apply Hprice. }
  assert (Hnp : ~ (r_type r = LIMIT /\
       (r_price r = None \/ exists p, r_price r = Some p /\ (p <= 0 \/ 1 <= p)))).
  { intros Hp. by apply Hprice in Hp. }
  destruct (r_side r) eqn:Hside.
  - match goal with |- context [Qltb ?a ?c] => destruct (Qltb a c) eqn:Hlt end.
    + apply Qltb_lt in Hlt. split; [|done]. intros _.
      right. right. right. left. split; [done|]. by exists b.
    + apply Qltb_ge in Hlt. split; [done|].
      intros [?|[?|[?|[[_ (b' & [= <-] & Hlt')]|[? _]]]]]; try done.
      apply Qlt_not_le in Hlt'. done.
  - match goal with |- context [Qltb ?a ?c] => destruct (Qltb a c) eqn:Hlt end.
    + apply Qltb_lt in Hlt. split; [|done]. intros _.
      right. right. right. right. split; [done|]. by exists b.
    + apply Qltb_ge in Hlt. split; [done|].
      intros [?|[?|[?|[[? _]|[_ (b' & [= <-] & Hlt')]]]]]; try done.
      apply Qlt_not_le in Hlt'. done.
Qed.

(** A rejected request changes nothing: the store and the state come back
    as they were, with the error and no fill. *)
Lemma processOrder_rejected gen now h state r e :
  validateRequest state r = Some e ->
  processOrder gen now h state r =
    Some (h, {| success := false; error := Some e; order := None;
                res_fills := []; newState := state |}).
Proof. intros He. unfold processOrder. by rewrite He. Qed.

(** Bob rests an ask for 1 YES at 0.9; alice holds 0.6 USDC and sends a
    market buy of 1 YES whose [price] property is 0.5. *)
Definition priced_market_heap : Heap :=
  [ {| id := "ask1"; userId := "bob"; outcome := YES; side := SELL;
       type := LIMIT; price := 9 # 10; quantity := 1;
       remainingQuantity := 1; timestamp := 5; status := OPEN |} ].

Definition priced_market_state : PredictionMarketState :=
  market {| yesBids := []; yesAsks := [O]; noBids := []; noAsks := [] |}
    (<["alice" := {| usdc := 6 # 10; yes := 0; no := 0 |}]>
       (<["bob" := {| usdc := 0; yes := 1; no := 0 |}]> ∅)).

Definition priced_market_buy : OrderRequest :=
  request "alice" YES BUY MARKET (Some (1 # 2)) 1.

(** C5.  A request that fails validation is answered with the error, no
    fill and the state it came with ([processOrder_rejected]), and
    validation fails in the cases the claim lists
    ([validateRequest_rejects]) but for one: the cash check multiplies by
    [request.price || 1], so a market buy that carries a price below 1 is
    checked against that price, while the order it becomes is priced 1.
    Here alice holds 0.6 and sends a market buy of 1 YES with [price] 0.5:
    she lacks the cash for the worst case 1 x 1, yet the request is
    accepted, fills against the ask at 0.9 and leaves her at -0.3. *)
Theorem C5_market_buy_with_price_passes_cash_check :
  (exists b, balances priced_market_state !! "alice" = Some b /\
             usdc b < 1 * r_quantity priced_market_buy) /\
  validateRequest priced_market_state priced_market_buy = None /\
  exists h' res b',
    processOrder genId clock priced_market_heap priced_market_state priced_market_buy
      = Some (h', res) /\
    success res = true /\ error res = None /\
    length (res_fills res) = 1%nat /\
    balances (newState res) !! "alice" = Some b' /\ usdc b' < 0.
Proof.
  split; [|split].
  - eexists. split; [vm_compute; reflexivity|]. vm_compute. reflexivity.
  - vm_compute. reflexivity.
  - destruct (processOrder genId clock priced_market_heap priced_market_state
                priced_market_buy) as [[h' res]|] eqn:E;
      vm_compute in E; [|discriminate].
    injection E as <- <-. eexists _, _, _.
    split; [reflexivity|]. repeat split; try (vm_compute; reflexivity).
Qed.

(** ** Cancellation *)

Definition is_order (h : Heap) (orderId owner : string) (l : loc) : bool :=
  String.eqb (id (deref h l)) orderId && String.eqb (userId (deref h l)) owner.

(** Order ids are unique within each side of the book. *)
Definition unique_ids (h : Heap) (ob : Orderbook) : Prop :=
  forall o sd, NoDup (map (fun l => id (deref h l)) (side_of ob o sd)).

Lemma removeFromList_found h oid uid ls :
  snd (removeFromList h oid uid ls) = existsb (is_order h oid uid) ls.
Proof.
  induction ls as [|l ls IH]; simpl; [done|]. fold (is_order h oid uid l).
  destruct (is_order h oid uid l); simpl; [done|].
  destruct (removeFromList h oid uid ls). simpl in *. done.
Qed.

Lemma removeFromList_absent h oid uid ls :
  existsb (is_order h oid uid) ls = false ->
  fst (removeFromList h oid uid ls) = ls.
Proof.
  induction ls as [|l ls IH]; simpl; [done|]. fold (is_order h oid uid l).
  destruct (is_order h oid uid l); simpl; [done|]. intros Hn.
  destruct (removeFromList h oid uid ls). simpl in *. by rewrite IH.
Qed.

Lemma filter_other_ids h oid uid ls :
  ~ In oid (map (fun l => id (deref h l)) ls) ->
  List.filter (fun l => negb (is_order h oid uid l)) ls = ls.
Proof.
  induction ls as [|l ls IH]; simpl; [done|]. intros Hn.
  unfold is_order at 1.
  destruct (String.eqb_spec (id (deref h l)) oid) as [He|He]; [tauto|].
  simpl. rewrite IH; [done|tauto].
Qed.

Lemma removeFromList_unique h oid uid ls :
  NoDup (map (fun l => id (deref h l)) ls) ->
  fst (removeFromList h oid uid ls) =
    List.filter (fun l => negb (is_order h oid uid l)) ls.
Proof.
  induction ls as [|l ls IH]; simpl; [done|]. intros Hnd.
  apply NoDup_cons in Hnd as [Hl Hnd]. fold (is_order h oid uid l).
  destruct (is_order h oid uid l) eqn:Hm; simpl.
  - apply andb_prop in Hm as [Hm _]. apply String.eqb_eq in Hm. subst oid.
    symmetry. apply filter_other_ids. by rewrite <- list_elem_of_In.
  - specialize (IH Hnd). destruct (removeFromList h oid uid ls). simpl in *.
    by rewrite IH.
Qed.

Lemma existsb_filter_negb {A} (f : A -> bool) ls :
  existsb f (List.filter (fun x => negb (f x)) ls) = false.
Proof.
  induction ls as [|x ls IH]; simpl; [done|].
  destruct (f x) eqn:Hx; simpl; [done|]. by rewrite Hx.
Qed.

Lemma cancelOrder_absent h state oid uid now :
  (forall o sd, existsb (is_order h oid uid) (side_of (orderbook state) o sd) = false) ->
  cancelOrder h state oid uid now = state.
Proof.
  intros Hn. unfold cancelOrder. simpl.
  pose proof (removeFromList_found h oid uid (yesBids (orderbook state))) as H1.
  pose proof (removeFromList_found h oid uid (yesAsks (orderbook state))) as H2.
  pose proof (removeFromList_found h oid uid (noBids (orderbook state))) as H3.
  pose proof (removeFromList_found h oid uid (noAsks (orderbook state))) as H4.
  pose proof (Hn YES BUY) as N1. pose proof (Hn YES SELL) as N2.
  pose proof (Hn NO BUY) as N3. pose proof (Hn NO SELL) as N4. simpl in *.
  rewrite N1 in H1. rewrite N2 in H2. rewrite N3 in H3. rewrite N4 in H4.
  destruct (removeFromList h oid uid (yesBids _)), (removeFromList h oid uid (yesAsks _)),
    (removeFromList h oid uid (noBids _)), (removeFromList h oid uid (noAsks _)).
  simpl in *. by subst.
Qed.

Lemma cancelOrder_present h state oid uid now :
  unique_ids h (orderbook state) ->
  (exists o sd, existsb (is_order h oid uid) (side_of (orderbook state) o sd) = true) ->
  cancelOrder h state oid uid now =
    with_orderbook_balances state
      {| yesBids := List.filter (fun l => negb (is_order h oid uid l)) (yesBids (orderbook state));
         yesAsks := List.filter (fun l => negb (is_order h oid uid l)) (yesAsks (orderbook state));
         noBids := List.filter (fun l => negb (is_order h oid uid l)) (noBids (orderbook state));
         noAsks := List.filter (fun l => negb (is_order h oid uid l)) (noAsks (orderbook state)) |}
      (balances state) (fills state) (sequence state + 1)%Z now
      (lastYesPrice state) (lastNoPrice state).
Proof.
  intros Hu (o & sd & Hex). unfold cancelOrder. simpl.
  pose proof (removeFromList_found h oid uid (yesBids (orderbook state))) as H1.
  pose proof (removeFromList_found h oid uid (yesAsks (orderbook state))) as H2.
  pose proof (removeFromList_found h oid uid (noBids (orderbook state))) as H3.
  pose proof (removeFromList_found h oid uid (noAsks (orderbook state))) as H4.
  pose proof (removeFromList_unique h oid uid _ (Hu YES BUY)) as U1.
  pose proof (removeFromList_unique h oid uid _ (Hu YES SELL)) as U2.
  pose proof (removeFromList_unique h oid uid _ (Hu NO BUY)) as U3.
  pose proof (removeFromList_unique h oid uid _ (Hu NO SELL)) as U4.
  simpl in *.
  destruct (removeFromList h oid uid (yesBids _)) as [yb f1],
    (removeFromList h oid uid (yesAsks _)) as [ya f2],
    (removeFromList h oid uid (noBids _)) as [nb f3],
    (removeFromList h oid uid (noAsks _)) as [na f4].
  simpl in *. subst.
  assert (Hf : existsb (is_order h oid uid) (yesBids (orderbook state))
               || existsb (is_order h oid uid) (yesAsks (orderbook state))
               || existsb (is_order h oid uid) (noBids (orderbook state))
               || existsb (is_order h oid uid) (noAsks (orderbook state)) = true).
  { destruct o, sd; simpl in Hex; rewrite Hex; by rewrite ?orb_true_r. }
  by rewrite Hf.
Qed.

Lemma classic_side h oid uid state :
  (exists o sd, existsb (is_order h oid uid) (side_of (orderbook state) o sd) = true)
  \/ (forall o sd, existsb (is_order h oid uid) (side_of (orderbook state) o sd) = false).
Proof.
  destruct (existsb (is_order h oid uid) (side_of (orderbook state) YES BUY)) eqn:E1;
    [left; by exists YES, BUY|].
  destruct (existsb (is_order h oid uid) (side_of (orderbook state) YES SELL)) eqn:E2;
    [left; by exists YES, SELL|].
  destruct (existsb (is_order h oid uid) (side_of (orderbook state) NO BUY)) eqn:E3;
    [left; by exists NO, BUY|].
  destruct (existsb (is_order h oid uid) (side_of (orderbook state) NO SELL)) eqn:E4;
    [left; by exists NO, SELL|].
  right. by intros [] [].
Qed.

(** C8.  On a book whose order ids are unique within each side:
    when some side holds an order with the id and the owner,
    [cancelOrder] takes it out of every side it is on and keeps every
    other resting order, in place; when none does, it returns the state
    it was given; it has no error result; and cancelling again (at any
    later time) changes nothing more. *)
Theorem C8_cancelOrder (h : Heap) (state : PredictionMarketState)
    (orderId owner : string) (now now' : Z) :
  unique_ids h (orderbook state) ->
  let state' := cancelOrder h state orderId owner now in
  ((exists o sd l, In l (side_of (orderbook state) o sd) /\
                   is_order h orderId owner l = true) ->
     (forall o sd,
        side_of (orderbook state') o sd =
        List.filter (fun l => negb (is_order h orderId owner l))
          (side_of (orderbook state) o sd)) /\
     (forall o sd l, In l (side_of (orderbook state') o sd) ->
                     is_order h orderId owner l = false) /\
     balances state' = balances state /\ fills state' = fills state) /\
  ((forall o sd l, In l (side_of (orderbook state) o sd) ->
                   is_order h orderId owner l = false) ->
     state' = state) /\
  cancelOrder h state' orderId owner now' = state'.
Proof.
  intros Hu state'.
  assert (Hfilt : (exists o sd, existsb (is_order h orderId owner)
                      (side_of (orderbook state) o sd) = true) ->
    forall o sd, side_of (orderbook state') o sd =
      List.filter (fun l => negb (is_order h orderId owner l))
        (side_of (orderbook state) o sd)).
  { intros Hex o sd. subst state'.
    rewrite (cancelOrder_present _ _ _ _ _ Hu Hex). by destruct o, sd. }
  split; [|split].
  - intros (o & sd & l & Hin & Hl).
    assert (Hex : exists o sd, existsb (is_order h orderId owner)
                      (side_of (orderbook state) o sd) = true).
    { exists o, sd. apply existsb_exists. eauto. }
    repeat split.
    + by apply Hfilt.
    + intros o' sd' l'. rewrite (Hfilt Hex). intros Hin'.
      apply filter_In in Hin' as [_ Hin']. by apply negb_true_iff.
    + subst state'. by rewrite (cancelOrder_present _ _ _ _ _ Hu Hex).
    + subst state'. by rewrite (cancelOrder_present _ _ _ _ _ Hu Hex).
  - intros Hn. apply cancelOrder_absent. intros o sd.
    apply not_true_iff_false. intros Hex. apply existsb_exists in Hex as (l & Hin & Hl).
    by rewrite (Hn o sd l Hin) in Hl.
  - apply cancelOrder_absent. intros o sd.
    destruct (classic_side h orderId owner state) as [Hex|Hno].
    + rewrite (Hfilt Hex). apply existsb_filter_negb.
    + subst state'. rewrite (cancelOrder_absent _ _ _ _ _ Hno). apply Hno.
Qed.

(** ** Balances *)

(** The sum of a balance field over all participants. *)
Definition total (f : UserBalance -> Q) (b : gmap string UserBalance) : Q :=
  map_fold (fun _ ub acc => f ub + acc) 0 b.

Definition nonneg (ub : UserBalance) : Prop :=
  0 <= usdc ub /\ 0 <= yes ub /\ 0 <= no ub.

Definition all_nonneg (b : gmap string UserBalance) : Prop :=
  forall u ub, b !! u = Some ub -> nonneg ub.

(** The demo balance of the prediction page: 1000 USDC, 100 YES, 100 NO. *)
Definition demo_balance : UserBalance := {| usdc := 1000; yes := 100; no := 100 |}.

Definition self_trade_state : PredictionMarketState :=
  market empty_book (<["alice" := demo_balance]> ∅).

Definition self_trade_requests : list (OrderRequest * (nat -> string)) :=
  [ (request "alice" YES SELL LIMIT (Some (4 # 10)) 10, genId);
    (request "alice" YES BUY LIMIT (Some (5 # 10)) 10, genId') ].

(** C1.  A fill moves the same cash and the same quantity of tokens
    between taker and maker when they are two participants
    ([updateBalancesForFill_conserves], [processOrder_conserves] below),
    but not when a user's order meets that user's own resting order:
    [updateBalancesForFill] then writes the taker's copy of the record and
    overwrites it with the maker's copy.  Here alice, alone in the market
    with 1000 USDC and 100 YES, rests a sell of 10 YES at 0.4 and then
    buys 10 YES at 0.5: one fill, after which she holds 1004 USDC and 90
    YES; the totals over all participants changed. *)
Theorem C1_self_trade_breaks_conservation :
  exists h' state' b',
    process_all [] self_trade_state self_trade_requests = Some (h', state') /\
    length (fills state') = 1%nat /\
    balances state' !! "alice" = Some b' /\
    usdc b' == 1004 /\ yes b' == 90 /\ no b' == 100 /\
    ~ total usdc (balances state') == total usdc (balances self_trade_state) /\
    ~ total yes (balances state') == total yes (balances self_trade_state).
Proof.
  destruct (process_all [] self_trade_state self_trade_requests)
    as [[h' state']|] eqn:E; vm_compute in E; [|discriminate].
  injection E as <- <-. eexists _, _, _.
  split; [reflexivity|]. split; [reflexivity|]. split; [vm_compute; reflexivity|].
  repeat split; try (vm_compute; reflexivity); vm_compute; discriminate.
Qed.

Definition overdraw_state : PredictionMarketState :=
  market empty_book
    (<["mallory" := {| usdc := 1; yes := 0; no := 0 |}]>
       (<["bob" := {| usdc := 0; yes := 2; no := 0 |}]> ∅)).

Definition overdraw_requests : list (OrderRequest * (nat -> string)) :=
  [ (request "mallory" YES BUY LIMIT (Some (9 # 10)) 1, genId);
    (request "mallory" YES BUY LIMIT (Some (9 # 10)) 1, genId');
    (request "bob" YES SELL MARKET None 2, fun k => genId (10 + k)) ].

(** C4 does not hold as it is written.  Every balance of
    [overdraw_state] is non-negative; mallory holds 1 USDC and rests two
    bids for 1 YES at 0.9, each of which passes the cash check alone; bob
    sells 2 YES into them, and mallory is left with -0.8 USDC. *)
Lemma C4_resting_bids_overdraw_the_maker :
  all_nonneg (balances overdraw_state) /\
  exists h' state' b',
    process_all [] overdraw_state overdraw_requests = Some (h', state') /\
    balances state' !! "mallory" = Some b' /\ usdc b' < 0.
Proof.
  split.
  - intros u ub. unfold overdraw_state. simpl.
    rewrite lookup_insert. case_decide; [intros [= <-]; by vm_compute|].
    rewrite lookup_insert. case_decide; [intros [= <-]; by vm_compute|].
    by rewrite lookup_empty.
  - destruct (process_all [] overdraw_state overdraw_requests)
      as [[h' state']|] eqn:E; vm_compute in E; [|discriminate].
    injection E as <- <-. eexists _, _, _.
    split; [reflexivity|]. split; vm_compute; reflexivity.
Qed.

(** ** Sorting *)

Lemma insert_by_perm {A} (cmp : A -> A -> Q) x l :
  Permutation (insert_by cmp x l) (x :: l).
Proof.
  induction l as [|y l IH]; simpl; [done|].
  destruct (Qle_bool (cmp x y) 0); [done|].
  rewrite IH. apply perm_swap.
Qed.

Lemma sort_by_perm {A} (cmp : A -> A -> Q) l : Permutation (sort_by cmp l) l.
Proof.
  induction l as [|x l IH]; simpl; [done|].
  unfold sort_by in *. simpl. rewrite insert_by_perm. by constructor.
Qed.

Section Sorted.
Context {A : Type} (cmp : A -> A -> Q) (R : A -> A -> Prop).
Hypothesis R_le : forall a b, Qle_bool (cmp a b) 0 = true -> R a b.
Hypothesis R_gt : forall a b, Qle_bool (cmp a b) 0 = false -> R b a.
Hypothesis R_trans : forall a b c, R a b -> R b c -> R a c.

Lemma insert_by_sorted x l :
  StronglySorted R l -> StronglySorted R (insert_by cmp x l).
Proof.
  induction 1 as [|y l Hs IH Hy]; simpl.
  - repeat constructor.
  - destruct (Qle_bool (cmp x y) 0) eqn:Hc.
    + constructor; [by constructor|]. constructor; [by apply R_le|].
      eapply Forall_impl; [apply Hy|]. intros z Hz.
      eapply R_trans; [by apply R_le|done].
    + constructor; [done|].
      rewrite insert_by_perm. constructor; [by apply R_gt|done].
Qed.

Lemma sort_by_sorted l : StronglySorted R (sort_by cmp l).
Proof.
  induction l as [|x l IH]; [constructor|]. by apply insert_by_sorted.
Qed.
End Sorted.

(** Price-time priority among the makers that an order of side [s] can
    meet: the lower ask first for a buy, the higher bid first for a sell,
    and at equal prices the earlier timestamp first. *)
Definition has_priority (taker_side : OrderSide) (a b : Order) : Prop :=
  match taker_side with
  | BUY => price a < price b \/ (price a == price b /\ (timestamp a <= timestamp b)%Z)
  | SELL => price b < price a \/ (price a == price b /\ (timestamp a <= timestamp b)%Z)
  end.

Lemma inject_Z_sub_le a b : inject_Z (a - b) <= 0 <-> (a <= b)%Z.
Proof.
  change 0 with (inject_Z 0). rewrite <- Zle_Qle. lia.
Qed.

Lemma cmp_ask_le a b : Qle_bool (cmp_ask a b) 0 = true <-> has_priority BUY a b.
Proof.
  unfold cmp_ask, has_priority. rewrite Qle_bool_iff.
  destruct (Qeq_bool (price a - price b) 0) eqn:He.
  - apply Qeq_bool_iff in He. rewrite inject_Z_sub_le.
    split; [intros; right; split; [lra|done]|intros [?|[_ ?]]; [lra|done]].
  - apply Qeq_bool_neq in He.
    split; [intros; left; lra|intros [?|[? _]]; lra].
Qed.

Lemma cmp_bid_le a b : Qle_bool (cmp_bid a b) 0 = true <-> has_priority SELL a b.
Proof.
  unfold cmp_bid, has_priority. rewrite Qle_bool_iff.
  destruct (Qeq_bool (price b - price a) 0) eqn:He.
  - apply Qeq_bool_iff in He. rewrite inject_Z_sub_le.
    split; [intros; right; split; [lra|done]|intros [?|[_ ?]]; [lra|done]].
  - apply Qeq_bool_neq in He.
    split; [intros; left; lra|intros [?|[? _]]; lra].
Qed.

Lemma has_priority_total s a b : ~ has_priority s a b -> has_priority s b a.
Proof.
  unfold has_priority. destruct s; intros Hn.
  - destruct (Qlt_le_dec (price b) (price a)) as [?|Hle]; [by left|].
    right. destruct (Z.le_gt_cases (timestamp a) (timestamp b)).
    + exfalso. apply Hn. destruct (Qlt_le_dec (price a) (price b)); [by left|].
      right. split; [lra|done].
    + split; [|lia]. destruct (Qlt_le_dec (price a) (price b)); [|lra].
      exfalso. apply Hn. by left.
  - destruct (Qlt_le_dec (price a) (price b)) as [?|Hle]; [by left|].
    right. destruct (Z.le_gt_cases (timestamp a) (timestamp b)).
    + exfalso. apply Hn. destruct (Qlt_le_dec (price b) (price a)); [by left|].
      right. split; [lra|done].
    + split; [|lia]. destruct (Qlt_le_dec (price b) (price a)); [|lra].
      exfalso. apply Hn. by left.
Qed.

Lemma has_priority_trans s a b c :
  has_priority s a b -> has_priority s b c -> has_priority s a c.
Proof.
  unfold has_priority. destruct s; intros [?|[? ?]] [?|[? ?]];
    solve [left; lra | right; split; [lra|lia]].
Qed.

Lemma getMatchableOrders_queue h ob order :
  getMatchableOrders h ob order =
    sort_by (by_ref h (cmp_side (opposite (side order))))
      (side_of ob (outcome order) (opposite (side order))).
Proof. unfold getMatchableOrders. by destruct (side order), (outcome order). Qed.

Lemma getMatchableOrders_perm h ob order :
  Permutation (getMatchableOrders h ob order)
    (side_of ob (outcome order) (opposite (side order))).
Proof. rewrite getMatchableOrders_queue. apply sort_by_perm. Qed.

Lemma getMatchableOrders_sorted h ob order :
  StronglySorted (fun a b => has_priority (side order) (deref h a) (deref h b))
    (getMatchableOrders h ob order).
Proof.
  rewrite getMatchableOrders_queue.
  apply sort_by_sorted.
  - intros a b. unfold by_ref. destruct (side order); simpl.
    + apply cmp_ask_le.
    + apply cmp_bid_le.
  - intros a b Hc. apply has_priority_total. intros Hp.
    unfold by_ref in Hc. destruct (side order); simpl in Hc.
    + apply cmp_ask_le in Hp. congruence.
    + apply cmp_bid_le in Hp. congruence.
  - intros a b c. apply has_priority_trans.
Qed.

(** ** The store *)

Lemma deref_insert_eq h l v : (l < length h)%nat -> deref (<[l:=v]> h) l = v.
Proof. intros Hl. unfold deref. by apply list_lookup_total_insert_eq. Qed.

Lemma deref_insert_ne h l l' v : l <> l' -> deref (<[l:=v]> h) l' = deref h l'.
Proof. intros Hl. unfold deref. by apply list_lookup_total_insert_ne. Qed.

(** The fields of an order that matching never writes. *)
Definition keys (o : Order) :=
  (id o, userId o, outcome o, side o, type o, price o, quantity o, timestamp o).

Lemma deref_insert_keys h l v l' :
  keys v = keys (deref h l) -> keys (deref (<[l:=v]> h) l') = keys (deref h l').
Proof.
  intros Hk. destruct (decide (l = l')) as [<-|Hne].
  - destruct (decide (l < length h)%nat).
    + by rewrite deref_insert_eq.
    + rewrite list_insert_ge; [done|lia].
  - by rewrite deref_insert_ne.
Qed.

Lemma keys_id o o' : keys o = keys o' -> id o = id o'.
Proof. unfold keys. congruence. Qed.

Lemma keys_userId o o' : keys o = keys o' -> userId o = userId o'.
Proof. unfold keys. congruence. Qed.

Lemma keys_place o o' :
  keys o = keys o' -> outcome o = outcome o' /\ side o = side o'.
Proof. unfold keys. split; congruence. Qed.

(** ** The matching loop, pass by pass *)

Section Loop.

Variables (generateId : nat -> string) (now : nat -> Z) (order : Order).

(** The fill that a pass creates against the maker [mk]. *)
Definition the_fill (st : Matching) (mk : Order) : Fill :=
  {| f_id := generateId (S (length (m_fills st)));
     makerOrderId := id mk;
     takerOrderId := id order;
     f_price := price mk;
     f_quantity := Qmin (remainingQty st) (remainingQuantity mk);
     f_timestamp := now (S (length (m_fills st)));
     f_outcome := outcome order |}.

(** The maker after a fill of [q]. *)
Definition settle (mk : Order) (q : Q) : Order :=
  let mk' := set_remaining mk (remainingQuantity mk - q) in
  if Qeq_bool (remainingQuantity mk') 0 then set_status mk' FILLED else mk'.

(** The loop variables after a pass that filled [f] against the maker at
    [l] and computed the balances [b]. *)
Definition next_state (st : Matching) (l : loc) (f : Fill)
    (b : gmap string UserBalance) : Matching :=
  let mk := deref (m_heap st) l in
  let h' := <[l := settle mk (f_quantity f)]> (m_heap st) in
  {| m_fills := m_fills st ++ [f];
     remainingQty := remainingQty st - f_quantity f;
     m_balances := b;
     m_orderbook :=
       if Qeq_bool (remainingQuantity mk - f_quantity f) 0
       then removeFromOrderbook h' (m_orderbook st) (settle mk (f_quantity f))
       else m_orderbook st;
     m_heap := h' |}.

Lemma match_loop_cons l rest st :
  match_loop generateId now order (l :: rest) st =
    if Qle_bool (remainingQty st) 0 then Some st
    else if negb (canMatch order (deref (m_heap st) l)) then Some st
    else
      b ← updateBalancesForFill (m_balances st) order (deref (m_heap st) l)
            (the_fill st (deref (m_heap st) l));
      match_loop generateId now order rest
        (next_state st l (the_fill st (deref (m_heap st) l)) b).
Proof.
  simpl. destruct (Qle_bool (remainingQty st) 0); [done|].
  destruct (negb (canMatch order (deref (m_heap st) l))); [done|].
  fold (the_fill st (deref (m_heap st) l)).
  destruct (updateBalancesForFill _ _ _ _) as [b|]; simpl; [|done].
  unfold next_state, settle. simpl.
  destruct (Qeq_bool _ 0); simpl; by rewrite ?list_insert_insert_eq.
Qed.

(** The passes of a run of the loop, as a relation between the loop
    variables before and after. *)
Inductive runs : list loc -> Matching -> Matching -> Prop :=
| runs_end st : runs [] st st
| runs_filled l rest st :
    remainingQty st <= 0 -> runs (l :: rest) st st
| runs_unmatched l rest st :
    0 < remainingQty st ->
    canMatch order (deref (m_heap st) l) = false ->
    runs (l :: rest) st st
| runs_fill l rest st b m :
    0 < remainingQty st ->
    canMatch order (deref (m_heap st) l) = true ->
    updateBalancesForFill (m_balances st) order (deref (m_heap st) l)
      (the_fill st (deref (m_heap st) l)) = Some b ->
    runs rest (next_state st l (the_fill st (deref (m_heap st) l)) b) m ->
    runs (l :: rest) st m.

Lemma match_loop_runs ms st m :
  match_loop generateId now order ms st = Some m -> runs ms st m.
Proof.
  revert st. induction ms as [|l rest IH]; intros st.
  - simpl. intros [= <-]. constructor.
  - rewrite match_loop_cons.
    destruct (Qle_bool (remainingQty st) 0) eqn:Hq.
    { intros [= <-]. apply runs_filled. by apply Qle_bool_iff. }
    assert (0 < remainingQty st).
    { apply Qnot_le_lt. intros Hle. apply Qle_bool_iff in Hle. congruence. }
    destruct (canMatch order (deref (m_heap st) l)) eqn:Hc; simpl.
    2:{ intros [= <-]. by apply runs_unmatched. }
    destruct (updateBalancesForFill _ _ _ _) as [b|] eqn:Hb; simpl; [|done].
    intros Hm. eapply runs_fill; eauto.
Qed.

Lemma settle_keys mk q : keys (settle mk q) = keys mk.
Proof. unfold settle. simpl. by destruct (Qeq_bool _ 0). Qed.

Lemma removeFromOrderbook_incl h ob mk o sd l :
  In l (side_of (removeFromOrderbook h ob mk) o sd) -> In l (side_of ob o sd).
Proof.
  unfold removeFromOrderbook. destruct (outcome mk), (side mk), o, sd; simpl;
    try done; by intros [? _]%filter_In.
Qed.

Lemma removeFromOrderbook_gone h ob mk l :
  In l (side_of (removeFromOrderbook h ob mk) (outcome mk) (side mk)) ->
  id (deref h l) <> id mk.
Proof.
  unfold removeFromOrderbook. destruct (outcome mk), (side mk); simpl;
    intros [_ Hid]%filter_In; apply negb_true_iff in Hid;
    by apply String.eqb_neq.
Qed.

(** What no pass changes: the size of the store, the [keys] of every
    order, the orders that are not in the queue; and a side of the book
    only ever loses entries. *)
Lemma runs_frame ms st m :
  runs ms st m ->
  length (m_heap m) = length (m_heap st) /\
  (forall l, keys (deref (m_heap m) l) = keys (deref (m_heap st) l)) /\
  (forall l, ~ In l ms -> deref (m_heap m) l = deref (m_heap st) l) /\
  (forall o sd l, In l (side_of (m_orderbook m) o sd) ->
                  In l (side_of (m_orderbook st) o sd)).
Proof.
  induction 1 as [st|l rest st Hq|l rest st Hq Hc|l rest st b m Hq Hc Hb Hr IH];
    try done.
  destruct IH as (Hlen & Hkeys & Hout & Hsub). simpl in *.
  repeat split.
  - by rewrite Hlen, length_insert.
  - intros l'. rewrite Hkeys. apply deref_insert_keys, settle_keys.
  - intros l' Hl'. rewrite Hout by tauto. apply deref_insert_ne. tauto.
  - intros o sd l' Hin. apply Hsub in Hin.
    destruct (Qeq_bool _ 0); [|done]. by apply removeFromOrderbook_incl in Hin.
Qed.

(** *** Balances along the passes *)

Definition taker_after (sd : OrderSide) (f : Fill) (tb : UserBalance) : UserBalance :=
  match sd with
  | BUY => add_tokens (f_outcome f) (f_quantity f) (sub_usdc (f_price f * f_quantity f) tb)
  | SELL => sub_tokens (f_outcome f) (f_quantity f) (add_usdc (f_price f * f_quantity f) tb)
  end.

Definition maker_after (sd : OrderSide) (f : Fill) (kb : UserBalance) : UserBalance :=
  match sd with
  | BUY => sub_tokens (f_outcome f) (f_quantity f) (add_usdc (f_price f * f_quantity f) kb)
  | SELL => add_tokens (f_outcome f) (f_quantity f) (sub_usdc (f_price f * f_quantity f) kb)
  end.

Lemma updateBalancesForFill_eq b (t k : Order) f :
  updateBalancesForFill b t k f =
    tb ← b !! userId t; kb ← b !! userId k;
    Some (<[userId k := maker_after (side t) f kb]>
            (<[userId t := taker_after (side t) f tb]> b)).
Proof.
  unfold updateBalancesForFill, taker_after, maker_after.
  destruct (b !! userId t) as [tb|]; simpl; [|done].
  destruct (b !! userId k) as [kb|]; simpl; [|done].
  by destruct (side t).
Qed.

Lemma updateBalancesForFill_Some b (t k : Order) f b' :
  updateBalancesForFill b t k f = Some b' ->
  exists tb kb, b !! userId t = Some tb /\ b !! userId k = Some kb /\
    b' = <[userId k := maker_after (side t) f kb]>
           (<[userId t := taker_after (side t) f tb]> b).
Proof.
  rewrite updateBalancesForFill_eq.
  destruct (b !! userId t) as [tb|]; simpl; [|done].
  destruct (b !! userId k) as [kb|]; simpl; [|done].
  intros [= <-]. by exists tb, kb.
Qed.

Lemma updateBalancesForFill_dom b (t k : Order) f b' u :
  updateBalancesForFill b t k f = Some b' ->
  is_Some (b !! u) -> is_Some (b' !! u).
Proof.
  intros (tb & kb & Ht & Hk & ->)%updateBalancesForFill_Some Hu.
  rewrite lookup_insert. case_decide; [done|].
  rewrite lookup_insert. by case_decide.
Qed.

Lemma updateBalancesForFill_other b (t k : Order) f b' u :
  updateBalancesForFill b t k f = Some b' ->
  u <> userId t -> u <> userId k -> b' !! u = b !! u.
Proof.
  intros (tb & kb & Ht & Hk & ->)%updateBalancesForFill_Some Hut Huk.
  by rewrite !lookup_insert_ne.
Qed.

(** The loop runs to its end when the taker and the owners of the queued
    orders have balance records. *)
Lemma match_loop_total ms st :
  is_Some (m_balances st !! userId order) ->
  (forall l, In l ms -> is_Some (m_balances st !! userId (deref (m_heap st) l))) ->
  exists m, match_loop generateId now order ms st = Some m.
Proof.
  revert st. induction ms as [|l rest IH]; intros st Ht Hk; [by eexists|].
  rewrite match_loop_cons.
  destruct (Qle_bool (remainingQty st) 0); [by eexists|].
  destruct (negb (canMatch order (deref (m_heap st) l))); [by eexists|].
  destruct (updateBalancesForFill _ _ _ _) as [b|] eqn:Hb; simpl.
  - apply IH; simpl.
    + eapply updateBalancesForFill_dom; eauto.
    + intros l' Hl'. eapply updateBalancesForFill_dom; [eauto|].
      rewrite (keys_userId _ (deref (m_heap st) l')).
      * apply Hk. by right.
      * apply deref_insert_keys, settle_keys.
  - rewrite updateBalancesForFill_eq in Hb.
    destruct Ht as [tb Ht]. destruct (Hk l) as [kb Hkb]; [by left|].
    rewrite Ht, Hkb in Hb. done.
Qed.

(** A participant who is neither the taker nor the owner of a queued order
    keeps its balance record. *)
Lemma runs_bystander ms st m u :
  runs ms st m ->
  u <> userId order ->
  (forall l, In l ms -> userId (deref (m_heap st) l) <> u) ->
  m_balances m !! u = m_balances st !! u.
Proof.
  induction 1 as [st|l rest st Hq|l rest st Hq Hc|l rest st b m Hq Hc Hb Hr IH];
    try done.
  intros Hu Hk. rewrite IH; simpl; [|done|].
  - eapply updateBalancesForFill_other; eauto.
    intros ->. by apply (Hk l); [left|].
  - intros l' Hl'. rewrite (keys_userId _ (deref (m_heap st) l')).
    + apply Hk. by right.
    + apply deref_insert_keys, settle_keys.
Qed.

End Loop.

(** *** Conservation *)

Lemma total_insert f (b : gmap string UserBalance) u x v :
  b !! u = Some x -> total f (<[u := v]> b) == total f b - f x + f v.
Proof.
  intros Hu. unfold total.
  assert (Hd : forall (m : gmap string UserBalance) y, m !! u = Some y ->
    map_fold (fun _ ub acc => f ub + acc) 0 m ==
    f y + map_fold (fun _ ub acc => f ub + acc) 0 (delete u m)).
  { intros m y Hy.
    apply (map_fold_delete Qeq (fun _ ub acc => f ub + acc)); [| |done].
    - intros _ z a a' Ha. by rewrite Ha.
    - intros. ring. }
  rewrite (Hd (<[u:=v]> b) v) by apply lookup_insert_eq.
  rewrite (Hd b x Hu). rewrite delete_insert_eq. ring.
Qed.

(** Between two different participants a fill moves cash and tokens
    without creating or losing any. *)
Lemma updateBalancesForFill_conserves b (t k : Order) fill b' :
  userId t <> userId k ->
  updateBalancesForFill b t k fill = Some b' ->
  total usdc b' == total usdc b /\ total yes b' == total yes b /\
  total no b' == total no b.
Proof.
  intros Hne (tb & kb & Ht & Hk & ->)%updateBalancesForFill_Some.
  assert (Hk' : <[userId t := taker_after (side t) fill tb]> b !! userId k = Some kb).
  { by rewrite lookup_insert_ne. }
  repeat split.
  all: rewrite (total_insert _ _ _ _ _ Hk'), (total_insert _ _ _ _ _ Ht).
  all: unfold taker_after, maker_after; destruct (side t), (f_outcome fill); simpl; ring.
Qed.

Lemma runs_conserves gen now order ms st m :
  runs gen now order ms st m ->
  (forall l, In l ms -> userId (deref (m_heap st) l) <> userId order) ->
  total usdc (m_balances m) == total usdc (m_balances st) /\
  total yes (m_balances m) == total yes (m_balances st) /\
  total no (m_balances m) == total no (m_balances st).
Proof.
  induction 1 as [st|l rest st Hq|l rest st Hq Hc|l rest st b m Hq Hc Hb Hr IH];
    try done.
  intros Hk. destruct IH as (H1 & H2 & H3).
  - simpl. intros l' Hl'. rewrite (keys_userId _ (deref (m_heap st) l')).
    + apply Hk. by right.
    + apply deref_insert_keys, settle_keys.
  - apply updateBalancesForFill_conserves in Hb as (G1 & G2 & G3).
    + simpl in *. rewrite H1, H2, H3. done.
    + intros Heq. by apply (Hk l); [left|].
Qed.

(** ** [processOrder] around the loop *)

(** The order object that [processOrder] creates for a request. *)
Definition order_of (gen : nat -> string) (now : nat -> Z) (r : OrderRequest) : Order :=
  {| id := gen O; userId := r_userId r; outcome := r_outcome r; side := r_side r;
     type := r_type r;
     price := match r_type r with
              | MARKET => match r_side r with BUY => 1 | SELL => 0 end
              | LIMIT => match r_price r with Some p => p | None => 0 end
              end;
     quantity := r_quantity r; remainingQuantity := r_quantity r;
     timestamp := now O; status := OPEN |}.

Lemma cloneOrderbook_id ob : cloneOrderbook ob = ob.
Proof. by destruct ob. Qed.

Lemma processOrder_inv gen now h state r h' res :
  processOrder gen now h state r = Some (h', res) ->
  (exists e, validateRequest state r = Some e /\ h' = h /\
     res = {| success := false; error := Some e; order := None;
              res_fills := []; newState := state |})
  \/
  (validateRequest state r = None /\
   exists m, matchOrder gen now h state (order_of gen now r) = Some m /\
     success res = true /\ res_fills res = m_fills m /\
     balances (newState res) = m_balances m /\
     fills (newState res) = fills state ++ m_fills m).
Proof.
  unfold processOrder. fold (order_of gen now r).
  destruct (validateRequest state r) as [e|].
  - intros [= <- <-]. left. by exists e.
  - destruct (matchOrder gen now h state (order_of gen now r)) as [m|]; simpl; [|done].
    destruct (last_prices _ _) as [ly ln]. intros [= <- <-].
    right. split; [done|]. by exists m.
Qed.

Lemma matchOrder_runs gen now h state o m :
  matchOrder gen now h state o = Some m ->
  runs gen now o (getMatchableOrders h (orderbook state) o)
    {| m_fills := []; remainingQty := quantity o; m_balances := balances state;
       m_orderbook := orderbook state; m_heap := h |} m.
Proof.
  unfold matchOrder. rewrite cloneOrderbook_id. apply match_loop_runs.
Qed.

Lemma in_queue h ob o l :
  In l (getMatchableOrders h ob o) <->
  In l (side_of ob (outcome o) (opposite (side o))).
Proof.
  rewrite <- !list_elem_of_In. by rewrite getMatchableOrders_perm.
Qed.

(** When no resting order that the request can meet belongs to the
    requester, [processOrder] keeps the total of cash and of each outcome
    token over all participants. *)
Lemma processOrder_conserves gen now h state r h' res :
  processOrder gen now h state r = Some (h', res) ->
  (forall l, In l (side_of (orderbook state) (r_outcome r) (opposite (r_side r))) ->
             userId (deref h l) <> r_userId r) ->
  total usdc (balances (newState res)) == total usdc (balances state) /\
  total yes (balances (newState res)) == total yes (balances state) /\
  total no (balances (newState res)) == total no (balances state).
Proof.
  intros [(e & _ & _ & ->)|(_ & m & Hm & _ & _ & -> & _)]%processOrder_inv Hself;
    [done|].
  apply matchOrder_runs in Hm. apply runs_conserves in Hm; [done|].
  simpl. intros l Hl. apply in_queue in Hl. by apply Hself.
Qed.

Lemma validateRequest_accepts state r :
  validateRequest state r = None ->
  exists ub, balances state !! r_userId r = Some ub /\
    0 < r_quantity r /\
    (r_type r = LIMIT -> exists p, r_price r = Some p /\ 0 < p /\ p < 1) /\
    (r_side r = BUY -> checked_price r * r_quantity r <= usdc ub) /\
    (r_side r = SELL -> r_quantity r <= tokens_of (r_outcome r) ub).
Proof.
  unfold validateRequest, checked_price.
  destruct (balances state !! r_userId r) as [ub|]; [|done].
  destruct (Qle_bool (r_quantity r) 0) eqn:Hq; [done|].
  intros Hv. exists ub. split; [done|]. split.
  { apply Qnot_le_lt. intros Hle. apply Qle_bool_iff in Hle. congruence. }
  split.
  { intros Ht. rewrite Ht in Hv. destruct (r_price r) as [p|]; [|done].
    destruct (Qle_bool p 0 || Qle_bool 1 p) eqn:Hp; [done|].
    apply orb_false_iff in Hp as [Hp0 Hp1]. exists p. split; [done|].
    split; apply Qnot_le_lt; intros Hle; apply Qle_bool_iff in Hle; congruence. }
  destruct (match r_type r with LIMIT => _ | MARKET => _ end); [done|].
  destruct (r_side r); split; try done; intros _.
  - match type of Hv with context [Qltb ?a ?c] => destruct (Qltb a c) eqn:Hlt end;
      [done|]. by apply Qltb_ge in Hlt.
  - match type of Hv with context [Qltb ?a ?c] => destruct (Qltb a c) eqn:Hlt end;
      [done|]. by apply Qltb_ge in Hlt.
Qed.

(** ** The requester stays solvent *)

Section Solvent.

Variables (gen : nat -> string) (now : nat -> Z) (order : Order).

(** What the taker's record satisfies between two passes: it covers what
    is left of the order (cash for a buy at the order's price, tokens for
    a sell) and nothing in it is negative. *)
Definition covered (st : Matching) : Prop :=
  exists tb, m_balances st !! userId order = Some tb /\
    0 <= remainingQty st /\ 0 <= yes tb /\ 0 <= no tb /\ 0 <= usdc tb /\
    match side order with
    | BUY => price order * remainingQty st <= usdc tb
    | SELL => remainingQty st <= tokens_of (outcome order) tb
    end.

Lemma settle_remaining mk q :
  remainingQuantity (settle mk q) = remainingQuantity mk - q.
Proof. unfold settle. simpl. by destruct (Qeq_bool _ 0). Qed.

Lemma Qmin_bounds a b : 0 < a -> 0 <= b -> 0 <= Qmin a b /\ Qmin a b <= a /\ Qmin a b <= b.
Proof.
  intros Ha Hb. repeat split; [|apply Q.le_min_l|apply Q.le_min_r].
  apply Q.min_glb; [by apply Qlt_le_weak|done].
Qed.

Lemma runs_covered ms st m :
  runs gen now order ms st m ->
  0 <= price order ->
  (forall l, In l ms -> 0 <= remainingQuantity (deref (m_heap st) l)) ->
  (forall l, In l ms -> userId (deref (m_heap st) l) <> userId order) ->
  covered st -> covered m.
Proof.
  induction 1 as [st|l rest st Hq|l rest st Hq Hc|l rest st b m Hq Hc Hb Hr IH];
    try done.
  intros Hp Hrem Hself Hcov. apply IH; clear IH; try done; simpl.
  - intros l' Hl'.
    destruct (decide (l = l' /\ (l < length (m_heap st))%nat)) as [[<- Hlt]|Hn].
    + rewrite deref_insert_eq by done. rewrite settle_remaining.
      destruct (Qmin_bounds (remainingQty st) (remainingQuantity (deref (m_heap st) l)))
        as (_ & _ & Hle); [done|by apply Hrem; left|]. lra.
    + destruct (decide (l = l')) as [<-|Hne].
      * rewrite list_insert_ge by lia. apply Hrem. by left.
      * rewrite deref_insert_ne by done. apply Hrem. by right.
  - intros l' Hl'. rewrite (keys_userId _ (deref (m_heap st) l')).
    + apply Hself. by right.
    + apply deref_insert_keys, settle_keys.
  - destruct Hcov as (tb & Htb & Hq0 & Hy & Hn & Hu & Hside).
    apply updateBalancesForFill_Some in Hb as (tb' & kb & Htb' & Hkb & ->).
    rewrite Htb in Htb'. injection Htb' as <-.
    assert (Hne : userId (deref (m_heap st) l) <> userId order).
    { apply Hself. by left. }
    exists (taker_after (side order) (the_fill gen now order st (deref (m_heap st) l)) tb).
    simpl. split. { rewrite lookup_insert_ne by done. apply lookup_insert_eq. }
    destruct (Qmin_bounds (remainingQty st) (remainingQuantity (deref (m_heap st) l)))
      as (Hm0 & Hma & Hmb); [done|by apply Hrem; left|].
    set (q := Qmin (remainingQty st) (remainingQuantity (deref (m_heap st) l))) in *.
    unfold canMatch in Hc. unfold taker_after.
    destruct (side order); apply Qle_bool_iff in Hc; simpl; fold q.
    + destruct (outcome order); simpl; repeat split; try lra; try nra.
    + destruct (outcome order); simpl in *; repeat split; try lra; try nra.
Qed.

End Solvent.

Lemma order_of_price_nonneg gen now state r :
  validateRequest state r = None -> 0 <= price (order_of gen now r).
Proof.
  intros (ub & _ & _ & Hlim & _)%validateRequest_accepts. simpl.
  destruct (r_type r).
  - destruct Hlim as (p & -> & Hp & _); [done|]. by apply Qlt_le_weak.
  - by destruct (r_side r).
Qed.

Lemma matchOrder_total gen now h state o :
  is_Some (balances state !! userId o) ->
  (forall l, In l (side_of (orderbook state) (outcome o) (opposite (side o))) ->
             is_Some (balances state !! userId (deref h l))) ->
  exists m, matchOrder gen now h state o = Some m.
Proof.
  intros Ht Hk. unfold matchOrder. rewrite cloneOrderbook_id.
  apply match_loop_total; simpl; [done|].
  intros l Hl. apply in_queue in Hl. by apply Hk.
Qed.

Lemma processOrder_total gen now h state r :
  (forall l, In l (side_of (orderbook state) (r_outcome r) (opposite (r_side r))) ->
             is_Some (balances state !! userId (deref h l))) ->
  exists h' res, processOrder gen now h state r = Some (h', res).
Proof.
  intros Hk. destruct (validateRequest state r) as [e|] eqn:Hv.
  - rewrite (processOrder_rejected _ _ _ _ _ e Hv). by eexists _, _.
  - destruct (matchOrder_total gen now h state (order_of gen now r)) as [m Hm].
    + apply validateRequest_accepts in Hv as (ub & Hub & _). simpl. by rewrite Hub.
    + done.
    + unfold processOrder. fold (order_of gen now r). rewrite Hv, Hm. simpl.
      destruct (last_prices _ _). by eexists _, _.
Qed.

(** C4, as the code has it.  [validateRequest] checks the requester, and
    only the requester, before anything is written.  So after a call of
    [processOrder] on non-negative balances the requester's cash and
    tokens are still non-negative, and whoever is neither the requester
    nor the owner of an order it could meet keeps its record, when: the
    resting orders it can meet have non-negative remaining quantities,
    none of them is the requester's own, their owners have balance
    records, and a market request carries no price.  The makers are not
    checked when their orders fill. *)
Theorem C4_requester_stays_solvent
    (gen : nat -> string) (now : nat -> Z) (h : Heap)
    (state : PredictionMarketState) (r : OrderRequest) :
  all_nonneg (balances state) ->
  (r_type r = MARKET -> r_price r = None) ->
  (forall l, In l (side_of (orderbook state) (r_outcome r) (opposite (r_side r))) ->
     0 <= remainingQuantity (deref h l) /\
     userId (deref h l) <> r_userId r /\
     is_Some (balances state !! userId (deref h l))) ->
  exists h' res,
    processOrder gen now h state r = Some (h', res) /\
    (forall ub, balances (newState res) !! r_userId r = Some ub -> nonneg ub) /\
    (forall u, u <> r_userId r ->
       (forall l, In l (side_of (orderbook state) (r_outcome r) (opposite (r_side r))) ->
                  userId (deref h l) <> u) ->
       balances (newState res) !! u = balances state !! u) /\
    (success res = false -> h' = h /\ newState res = state).
Proof.
  intros Hnn Hmarket Hbook.
  destruct (processOrder_total gen now h state r) as (h' & res & Hres).
  { intros l Hl. by apply Hbook. }
  exists h', res. split; [done|].
  apply processOrder_inv in Hres
    as [(e & _ & -> & ->)|(Hv & m & Hm & Hok & _ & Hbal & _)]; simpl.
  { split; [|done]. intros ub Hub. by apply (Hnn _ _ Hub). }
  rewrite Hbal, Hok. apply matchOrder_runs in Hm.
  split; [|split; [|done]].
  - assert (Hcov : covered (order_of gen now r) m).
    { eapply runs_covered; [apply Hm|..]; simpl.
      - by apply (order_of_price_nonneg gen now state).
      - intros l Hl. apply in_queue in Hl. by apply Hbook.
      - intros l Hl. apply in_queue in Hl. by apply Hbook.
      - apply validateRequest_accepts in Hv as (ub & Hub & Hq & Hlim & Hbuy & Hsell).
        destruct (Hnn _ _ Hub) as (Hu & Hy & Hn).
        exists ub. simpl. repeat split; try done; [by apply Qlt_le_weak|].
        destruct (r_side r).
        + specialize (Hbuy eq_refl). unfold checked_price in Hbuy.
          destruct (r_type r).
          * destruct Hlim as (p & Hp & Hp0 & _); [done|]. rewrite Hp in *.
            destruct (Qeq_bool p 0) eqn:He; [|done].
            apply Qeq_bool_iff in He. lra.
          * by rewrite Hmarket in Hbuy.
        + by apply Hsell. }
    destruct Hcov as (tb & Htb & _ & Hy & Hn & Hu & _). simpl in Htb.
    intros ub Hub. rewrite Htb in Hub. injection Hub as <-. by repeat split.
  - intros u Hu Hk. eapply (runs_bystander _ _ _ _ _ _ u) in Hm; simpl in *; [done..|].
    intros l Hl. apply in_queue in Hl. by apply Hk.
Qed.

(** ** Price-time priority *)

(** What is left of a quantity after the fills [fs]. *)
Definition left_after (q : Q) (fs : list Fill) : Q :=
  fold_left (fun q f => q - f_quantity f) fs q.

Definition taker_remaining (order : Order) (fs : list Fill) : Q :=
  left_after (quantity order) fs.

Lemma settle_filled mk q :
  remainingQuantity mk - q == 0 -> status (settle mk q) = FILLED.
Proof.
  intros Hz. unfold settle. simpl.
  apply Qeq_bool_iff in Hz. by rewrite Hz.
Qed.

Section Priority.

Variables (gen : nat -> string) (now : nat -> Z) (order : Order).

(** The fills of a run, one per maker of a prefix of the queue and in
    the order of the queue; each at the maker's price, for the smaller of
    what is left of the taker and what is left of the maker; a maker left
    with nothing is gone from its side of the book. *)
Lemma runs_fills ms st m :
  runs gen now order ms st m ->
  NoDup ms ->
  (forall l, In l ms -> (l < length (m_heap st))%nat) ->
  exists fs,
    m_fills m = m_fills st ++ fs /\
    (length fs <= length ms)%nat /\
    remainingQty m = left_after (remainingQty st) fs /\
    (forall i l f, ms !! i = Some l -> fs !! i = Some f ->
       let maker := deref (m_heap st) l in
       let before := left_after (remainingQty st) (take i fs) in
       0 < before /\ canMatch order maker = true /\
       makerOrderId f = id maker /\ takerOrderId f = id order /\
       f_outcome f = outcome order /\
       f_price f = price maker /\
       f_quantity f = Qmin before (remainingQuantity maker) /\
       deref (m_heap m) l = settle maker (f_quantity f) /\
       (remainingQuantity maker - f_quantity f == 0 ->
        forall l', In l' (side_of (m_orderbook m) (outcome maker) (side maker)) ->
                   id (deref (m_heap m) l') <> id maker)) /\
    (forall l, ms !! length fs = Some l ->
       remainingQty m <= 0 \/ canMatch order (deref (m_heap st) l) = false).
Proof.
  induction 1 as [st|l rest st Hq|l rest st Hq Hc|l rest st b m Hq Hc Hb Hr IH];
    intros Hnd Hin.
  - exists []. rewrite app_nil_r. repeat split; try done.
  - exists []. rewrite app_nil_r. repeat split; try done; [simpl; lia|]. by left.
  - exists []. rewrite app_nil_r. repeat split; try done; [simpl; lia|].
    simpl. intros l' [= <-]. by right.
  - apply NoDup_cons in Hnd as [Hl Hnd].
    destruct (runs_frame _ _ _ _ _ _ Hr) as (Hlen & Hkeys & Hout & Hsub).
    destruct IH as (fs & Hfs & Hlenfs & Hrq & Hi & Hstop); [done| |].
    { intros l' Hl'. simpl. rewrite length_insert. apply Hin. by right. }
    exists (the_fill gen now order st (deref (m_heap st) l) :: fs). simpl in *.
    assert (Hrest : forall l', In l' rest ->
              deref (<[l := settle (deref (m_heap st) l)
                             (Qmin (remainingQty st)
                                (remainingQuantity (deref (m_heap st) l)))]>
                       (m_heap st)) l'
              = deref (m_heap st) l').
    { intros l' Hl'. apply deref_insert_ne. intros ->.
      apply Hl. by apply list_elem_of_In. }
    split; [by rewrite Hfs, <- app_assoc|].
    split; [lia|]. split; [done|]. split.
    + intros [|i] l' f' Hl' Hf'; simpl in *.
      * injection Hl' as <-. injection Hf' as <-. simpl.
        repeat split; try done.
        -- rewrite Hout by (by rewrite <- list_elem_of_In).
           apply deref_insert_eq. apply Hin. by left.
        -- intros Hz l' Hl'. apply Hsub in Hl'.
           apply Qeq_bool_iff in Hz. rewrite Hz in Hl'.
           match type of Hl' with
           | context [removeFromOrderbook _ _ (settle ?mk ?q)] =>
               destruct (keys_place _ _ (settle_keys mk q)) as [Ho Hs];
               rewrite <- Ho, <- Hs in Hl';
               apply removeFromOrderbook_gone in Hl';
               rewrite (keys_id _ _ (Hkeys l'));
               by rewrite (keys_id _ _ (settle_keys mk q)) in Hl'
           end.
      * specialize (Hi i l' f' Hl' Hf').
        rewrite Hrest in Hi; [done|].
        apply list_elem_of_In, list_elem_of_lookup. eauto.
    + intros l' Hl'. specialize (Hstop l' Hl').
      rewrite Hrest in Hstop; [done|].
      apply list_elem_of_In, list_elem_of_lookup. eauto.
Qed.

End Priority.

(** C3.  The queue of an incoming order is the opposite side of the book
    for its outcome, best price first (lowest ask for a buy, highest bid
    for a sell) and earlier timestamp first at equal prices.  The loop
    fills against the makers of a prefix of the queue, in queue order: the
    i-th fill is against the i-th maker, at the maker's price, for the
    minimum of what is left of the taker and what is left of the maker;
    the maker's remaining quantity is reduced by it, and a maker left with
    nothing is marked [FILLED] and on no side of the book.  The loop stops
    only at the end of the queue, when nothing is left of the taker, or at
    a maker whose price the taker does not accept.

    The book is well formed: the entries of the side are distinct order
    objects, each resting order is on the side that its outcome and side
    name, and the taker and the makers have balance records. *)
Theorem C3_price_time_priority
    (gen : nat -> string) (now : nat -> Z) (h : Heap)
    (state : PredictionMarketState) (order : Order) :
  let book_side := side_of (orderbook state) (outcome order) (opposite (side order)) in
  let queue := getMatchableOrders h (orderbook state) order in
  NoDup book_side ->
  (forall o sd l, In l (side_of (orderbook state) o sd) ->
     outcome (deref h l) = o /\ side (deref h l) = sd) ->
  (forall l, In l book_side ->
     (l < length h)%nat /\ is_Some (balances state !! userId (deref h l))) ->
  is_Some (balances state !! userId order) ->
  Permutation queue book_side /\
  StronglySorted (fun a b => has_priority (side order) (deref h a) (deref h b)) queue /\
  exists m,
    matchOrder gen now h state order = Some m /\
    (length (m_fills m) <= length queue)%nat /\
    remainingQty m = taker_remaining order (m_fills m) /\
    (forall i l f, queue !! i = Some l -> m_fills m !! i = Some f ->
       let maker := deref h l in
       let before := taker_remaining order (take i (m_fills m)) in
       0 < before /\ canMatch order maker = true /\
       makerOrderId f = id maker /\ takerOrderId f = id order /\
       f_price f = price maker /\
       f_quantity f = Qmin before (remainingQuantity maker) /\
       remainingQuantity (deref (m_heap m) l) = remainingQuantity maker - f_quantity f /\
       (remainingQuantity maker - f_quantity f == 0 ->
          status (deref (m_heap m) l) = FILLED /\
          forall o sd, ~ In l (side_of (m_orderbook m) o sd))) /\
    (forall l, queue !! length (m_fills m) = Some l ->
       remainingQty m <= 0 \/ canMatch order (deref h l) = false).
Proof.
  intros book_side queue Hnd Hplace Hlive Htaker.
  split; [apply getMatchableOrders_perm|].
  split; [apply getMatchableOrders_sorted|].
  destruct (matchOrder_total gen now h state order) as [m Hm]; [done| |].
  { intros l Hl. by apply Hlive. }
  exists m. split; [done|].
  apply matchOrder_runs in Hm. fold queue in Hm.
  destruct (runs_frame _ _ _ _ _ _ Hm) as (_ & Hkeys & _ & Hsub). simpl in *.
  apply runs_fills in Hm as (fs & Hfs & Hlen & Hrq & Hi & Hstop); simpl in *.
  - subst fs. repeat split; try done.
    1-7: destruct (Hi i l f) as (? & ? & ? & ? & ? & ? & ? & Hd & ?); try done.
    { by rewrite Hd, settle_remaining. }
    + destruct (Hi i l f) as (_ & _ & _ & _ & _ & _ & _ & Hd & _); try done.
      rewrite Hd. by apply settle_filled.
    + intros o sd Hin.
      destruct (Hi i l f) as (_ & _ & _ & _ & _ & _ & _ & _ & Hgone); try done.
      pose proof (Hsub _ _ _ Hin) as Hin0.
      destruct (Hplace _ _ _ Hin0) as [<- <-].
      apply (Hgone H1 l Hin). apply keys_id, Hkeys.
  - unfold queue. by rewrite getMatchableOrders_perm.
  - intros l Hl. apply in_queue in Hl. by apply Hlive.
Qed.

(** ** Well-formed books are what the engine produces *)

(** All the references of a book. *)
Definition all_refs (ob : Orderbook) : list loc :=
  yesBids ob ++ yesAsks ob ++ noBids ob ++ noAsks ob.

(** The resting orders have different ids, each is a live object on the
    side that its outcome and side name, and its owner has a balance
    record. *)
Definition well_formed (h : Heap) (s : PredictionMarketState) : Prop :=
  NoDup (map (fun l => id (deref h l)) (all_refs (orderbook s))) /\
  forall o sd l, In l (side_of (orderbook s) o sd) ->
    (l < length h)%nat /\ outcome (deref h l) = o /\ side (deref h l) = sd /\
    is_Some (balances s !! userId (deref h l)).

Lemma in_all_refs ob l :
  In l (all_refs ob) <-> exists o sd, In l (side_of ob o sd).
Proof.
  unfold all_refs. rewrite !in_app_iff. split.
  - intros [?|[?|[?|?]]];
      [by exists YES, BUY|by exists YES, SELL|by exists NO, BUY|by exists NO, SELL].
  - intros ([] & [] & Hin); simpl in Hin; tauto.
Qed.

Lemma side_sublist_all ob o sd : side_of ob o sd `sublist_of` all_refs ob.
Proof.
  unfold all_refs. destruct o, sd; simpl.
  - apply sublist_inserts_r. done.
  - apply sublist_inserts_l, sublist_inserts_r. done.
  - apply sublist_inserts_l, sublist_inserts_l, sublist_inserts_r. done.
  - apply sublist_inserts_l, sublist_inserts_l, sublist_inserts_l. done.
Qed.

Lemma sublist_map {A B} (f : A -> B) (l1 l2 : list A) :
  l1 `sublist_of` l2 -> map f l1 `sublist_of` map f l2.
Proof. induction 1; simpl; by constructor. Qed.

Lemma filter_sublist {A} (f : A -> bool) (l : list A) :
  List.filter f l `sublist_of` l.
Proof.
  induction l as [|x l IH]; simpl; [constructor|].
  destruct (f x); by constructor.
Qed.

Lemma all_refs_sublist ob' ob :
  (forall o sd, side_of ob' o sd `sublist_of` side_of ob o sd) ->
  all_refs ob' `sublist_of` all_refs ob.
Proof.
  intros Hs. unfold all_refs.
  repeat apply sublist_app;
    [apply (Hs YES BUY)|apply (Hs YES SELL)|apply (Hs NO BUY)|apply (Hs NO SELL)].
Qed.

Lemma well_formed_unique_ids h s : well_formed h s -> unique_ids h (orderbook s).
Proof.
  intros [Hnd _] o sd.
  exact (sublist_NoDup _ _ Hnd (sublist_map _ _ _ (side_sublist_all _ o sd))).
Qed.

Lemma NoDup_map_inv {A B} (f : A -> B) (l : list A) : NoDup (map f l) -> NoDup l.
Proof.
  induction l as [|x l IH]; simpl; [constructor|].
  intros [Hx Hnd]%NoDup_cons. apply NoDup_cons. split; [|auto].
  intros Hin. apply Hx. apply list_elem_of_In, in_map. by apply list_elem_of_In.
Qed.

Lemma well_formed_distinct h s o sd :
  well_formed h s -> NoDup (side_of (orderbook s) o sd).
Proof.
  intros Hwf. eapply NoDup_map_inv. by apply well_formed_unique_ids.
Qed.

Lemma removeFromOrderbook_sublist h ob mk o sd :
  side_of (removeFromOrderbook h ob mk) o sd `sublist_of` side_of ob o sd.
Proof.
  unfold removeFromOrderbook.
  destruct (outcome mk), (side mk), o, sd; simpl; try done; apply filter_sublist.
Qed.

Lemma runs_sublist gen now order ms st m :
  runs gen now order ms st m ->
  forall o sd, side_of (m_orderbook m) o sd `sublist_of` side_of (m_orderbook st) o sd.
Proof.
  induction 1 as [st|l rest st Hq|l rest st Hq Hc|l rest st b m Hq Hc Hb Hr IH];
    try done.
  intros o sd. etrans; [apply IH|]. simpl.
  destruct (Qeq_bool _ 0); [apply removeFromOrderbook_sublist|done].
Qed.

Lemma runs_dom gen now order ms st m u :
  runs gen now order ms st m ->
  is_Some (m_balances st !! u) -> is_Some (m_balances m !! u).
Proof.
  induction 1 as [st|l rest st Hq|l rest st Hq Hc|l rest st b m Hq Hc Hb Hr IH];
    try done.
  intros Hu. apply IH. simpl. eapply updateBalancesForFill_dom; eauto.
Qed.

Lemma map_ext_keys (h h' : Heap) (ls : list loc) :
  (forall l, In l ls -> keys (deref h' l) = keys (deref h l)) ->
  map (fun l => id (deref h' l)) ls = map (fun l => id (deref h l)) ls.
Proof.
  intros Hk. apply map_ext_in. intros l Hl. by apply keys_id, Hk.
Qed.

Lemma cancelOrder_well_formed h state orderId owner now :
  well_formed h state -> well_formed h (cancelOrder h state orderId owner now).
Proof.
  intros Hwf.
  destruct (classic_side h orderId owner state) as [Hex|Hno].
  2:{ by rewrite (cancelOrder_absent _ _ _ _ _ Hno). }
  rewrite (cancelOrder_present _ _ _ _ _ (well_formed_unique_ids _ _ Hwf) Hex).
  destruct Hwf as [Hnd Hside]. split; simpl.
  - refine (sublist_NoDup _ _ Hnd (sublist_map _ _ _ _)).
    unfold all_refs. simpl. repeat apply sublist_app; apply filter_sublist.
  - intros o sd l Hin. apply (Hside o sd l).
    destruct o, sd; simpl in *; by apply filter_In in Hin as [? _].
Qed.

Lemma all_refs_add (ob : Orderbook) o sd (ls : list loc) n :
  Permutation ls (side_of ob o sd ++ [n]) ->
  Permutation (all_refs (set_side ob o sd ls)) (n :: all_refs ob).
Proof.
  intros Hp. unfold all_refs. destruct o, sd; simpl in *; rewrite Hp.
  - rewrite <- app_assoc. simpl. by rewrite <- Permutation_middle.
  - rewrite <- !app_assoc. simpl. by rewrite <- !Permutation_middle.
  - rewrite <- !app_assoc. simpl. by rewrite <- !Permutation_middle.
  - rewrite !app_assoc. by rewrite <- Permutation_cons_append.
Qed.

#[local] Instance Outcome_eq_dec : EqDecision Outcome.
Proof. solve_decision. Defined.

#[local] Instance OrderSide_eq_dec : EqDecision OrderSide.
Proof. solve_decision. Defined.

Lemma side_of_set_side ob o sd ls o' sd' :
  side_of (set_side ob o sd ls) o' sd' =
    if decide (o = o' /\ sd = sd') then ls else side_of ob o' sd'.
Proof. by destruct o, sd, o', sd'. Qed.

(** [processOrder] keeps the book well formed when the id it generates
    for the incoming order is not the id of a resting order. *)
Lemma processOrder_well_formed gen now h state r h' res :
  well_formed h state ->
  (forall l, In l (all_refs (orderbook state)) -> id (deref h l) <> gen O) ->
  processOrder gen now h state r = Some (h', res) ->
  well_formed h' (newState res).
Proof.
  intros Hwf Hfresh. unfold processOrder. fold (order_of gen now r).
  destruct (validateRequest state r) as [e|] eqn:Hv; [by intros [= <- <-]|].
  destruct (matchOrder gen now h state (order_of gen now r)) as [m|] eqn:Hm;
    simpl; [|done].
  destruct (last_prices _ _) as [ly ln]. intros [= <- <-]. simpl.
  apply matchOrder_runs in Hm.
  destruct (runs_frame _ _ _ _ _ _ Hm) as (Hlen & Hkeys & _ & _).
  pose proof (runs_sublist _ _ _ _ _ _ Hm) as Hsub. simpl in *.
  destruct Hwf as [Hnd Hside].
  set (n := length (m_heap m)).
  set (upd := set_remaining (order_of gen now r) (remainingQty m)).
  set (h2 := m_heap m ++ [upd]).
  match goal with |- context [<[n := ?v]> h2] => set (upd' := v) end.
  assert (Hupd' : keys upd' = keys (order_of gen now r)).
  { subst upd'. destruct (Qeq_bool _ 0); [done|]. by destruct (Qltb _ _). }
  assert (Hold : forall l, (l < n)%nat -> deref (<[n := upd']> h2) l = deref (m_heap m) l).
  { intros l Hl. rewrite deref_insert_ne by lia. unfold deref, h2.
    by rewrite lookup_total_app_l. }
  assert (Hnew : deref (<[n := upd']> h2) n = upd').
  { apply deref_insert_eq. unfold h2. rewrite length_app. simpl. lia. }
  assert (Hin1 : forall o sd l, In l (side_of (m_orderbook m) o sd) ->
            In l (side_of (orderbook state) o sd)).
  { intros o sd l Hl. apply list_elem_of_In. eapply elem_of_sublist; [|apply Hsub].
    by apply list_elem_of_In. }
  assert (Hlt : forall o sd l, In l (side_of (m_orderbook m) o sd) -> (l < n)%nat).
  { intros o sd l Hl. unfold n. rewrite Hlen. by apply (Hside o sd l), Hin1. }
  assert (Hids : map (fun l => id (deref (<[n := upd']> h2) l)) (all_refs (m_orderbook m))
                 = map (fun l => id (deref h l)) (all_refs (m_orderbook m))).
  { apply map_ext_keys. intros l Hl. apply in_all_refs in Hl as (o & sd & Hl).
    rewrite Hold by (by eapply Hlt). apply Hkeys. }
  assert (Hnd1 : NoDup (map (fun l => id (deref h l)) (all_refs (m_orderbook m)))).
  { refine (sublist_NoDup _ _ Hnd (sublist_map _ _ _ _)). by apply all_refs_sublist. }
  assert (Hside1 : forall o sd l, In l (side_of (m_orderbook m) o sd) ->
            (l < length (<[n := upd']> h2))%nat /\
            outcome (deref (<[n := upd']> h2) l) = o /\
            side (deref (<[n := upd']> h2) l) = sd /\
            is_Some (m_balances m !! userId (deref (<[n := upd']> h2) l))).
  { intros o sd l Hl. pose proof (Hlt _ _ _ Hl) as Hl'.
    destruct (Hside o sd l (Hin1 _ _ _ Hl)) as (_ & Ho & Hs & Hb).
    rewrite Hold by done.
    destruct (keys_place _ _ (Hkeys l)) as [-> ->].
    rewrite (keys_userId _ _ (Hkeys l)).
    repeat split; try done.
    - rewrite length_insert. unfold h2. rewrite length_app. simpl. fold n. lia.
    - by apply (runs_dom _ _ _ _ _ _ _ Hm). }
  destruct (Qltb 0 (remainingQty m)
            && match r_type r with LIMIT => true | MARKET => false end) eqn:Hrest.
  2:{ split; simpl; [by rewrite Hids|done]. }
  unfold addToOrderbook. rewrite cloneOrderbook_id.
  assert (Hd2 : deref h2 n = upd).
  { unfold deref, h2, n. by rewrite list_lookup_total_middle. }
  rewrite Hd2. simpl outcome. simpl side.
  split; simpl.
  - rewrite (Permutation_map (fun l => id (deref (<[n := upd']> h2) l))
               (all_refs_add _ _ _ _ n (sort_by_perm _ _))).
    simpl. rewrite Hnew, Hids. apply NoDup_cons. split; [|done].
    rewrite (keys_id _ _ Hupd'). simpl. intros Hin.
    apply list_elem_of_In, in_map_iff in Hin as (l & Hid & Hl).
    apply (Hfresh l); [|done].
    apply in_all_refs in Hl as (o & sd & Hl). apply in_all_refs.
    exists o, sd. by apply Hin1.
  - intros o sd l. rewrite side_of_set_side. case_decide as Hd.
    + destruct Hd as [<- <-]. intros Hin.
      apply list_elem_of_In in Hin. rewrite sort_by_perm in Hin.
      apply list_elem_of_In, in_app_iff in Hin as [Hin|[<-|[]]].
      * by apply Hside1.
      * rewrite Hnew. destruct (keys_place _ _ Hupd') as [-> ->].
        rewrite (keys_userId _ _ Hupd'). simpl.
        repeat split; try done.
        -- rewrite length_insert. unfold h2. rewrite length_app. simpl. fold n. lia.
        -- apply (runs_dom _ _ _ _ _ _ _ Hm). simpl.
           by apply validateRequest_accepts in Hv as (ub & -> & _).
    + apply Hside1.
Qed.

Lemma createInitialState_well_formed h marketId question now :
  well_formed h (createInitialState marketId question now).
Proof. split; simpl; [constructor|]. by intros [] []. Qed.

Lemma initUserBalance_well_formed h state u amount now :
  well_formed h state -> well_formed h (initUserBalance state u amount now).
Proof.
  intros [Hnd Hside]. split; simpl; [done|].
  intros o sd l Hl. destruct (Hside o sd l Hl) as (? & ? & ? & Hb).
  repeat split; try done. rewrite lookup_insert. by case_decide.
Qed.

(** ** The statements at concrete markets *)

Definition ask (i owner : string) (p q : Q) (ts : Z) : Order :=
  {| id := i; userId := owner; outcome := YES; side := SELL; type := LIMIT;
     price := p; quantity := q; remainingQuantity := q; timestamp := ts;
     status := OPEN |}.

(** Three asks: bob at 0.40 (time 5), carol at 0.40 (time 3), dave at 0.30. *)
Definition asks_heap : Heap :=
  [ ask "o1" "bob" (4 # 10) 5 5; ask "o2" "carol" (4 # 10) 5 3;
    ask "o3" "dave" (3 # 10) 2 9 ].

Definition asks_state : PredictionMarketState :=
  market {| yesBids := []; yesAsks := [0; 1; 2]%nat; noBids := []; noAsks := [] |}
    (<["alice" := demo_balance]> (<["bob" := demo_balance]>
       (<["carol" := demo_balance]> (<["dave" := demo_balance]> ∅)))).

Definition alice_buys : Order :=
  order_of genId clock (request "alice" YES BUY LIMIT (Some (5 # 10)) 8).

Lemma asks_state_nonneg : all_nonneg (balances asks_state).
Proof.
  intros u ub. unfold asks_state. simpl.
  repeat (rewrite lookup_insert; case_decide;
          [intros [= <-]; repeat split; by vm_compute|]).
  by rewrite lookup_empty.
Qed.

Lemma C3_witness :
  exists m, matchOrder genId clock asks_heap asks_state alice_buys = Some m /\
            (length (m_fills m) <= 3)%nat.
Proof.
  destruct (C3_price_time_priority genId clock asks_heap asks_state alice_buys)
    as (_ & _ & m & Hm & Hlen & _).
  - apply NoDup_ListNoDup. repeat constructor; simpl; intuition lia.
  - intros [] [] l; simpl; try tauto.
    intros [<-|[<-|[<-|[]]]]; by vm_compute.
  - simpl. intros l [<-|[<-|[<-|[]]]];
      (split; [simpl; lia|eexists; vm_compute; reflexivity]).
  - eexists; vm_compute; reflexivity.
  - exists m. split; [exact Hm|]. exact Hlen.
Defined.

Lemma C4_witness :
  exists h' res,
    processOrder genId clock asks_heap asks_state
      (request "alice" YES BUY MARKET None 8) = Some (h', res) /\
    forall ub, balances (newState res) !! "alice" = Some ub -> nonneg ub.
Proof.
  destruct (C4_requester_stays_solvent genId clock asks_heap asks_state
              (request "alice" YES BUY MARKET None 8))
    as (h' & res & Hres & Hnn & _).
  - exact asks_state_nonneg.
  - reflexivity.
  - simpl. intros l [<-|[<-|[<-|[]]]];
      (split; [by vm_compute|split; [by vm_compute|eexists; vm_compute; reflexivity]]).
  - exists h', res. split; [exact Hres|exact Hnn].
Defined.

Lemma C8_witness :
  cancelOrder asks_heap (cancelOrder asks_heap asks_state "o2" "carol" 7) "o2" "carol" 8
  = cancelOrder asks_heap asks_state "o2" "carol" 7.
Proof.
  apply (C8_cancelOrder asks_heap asks_state "o2" "carol" 7 8).
  intros [] []; simpl; apply NoDup_ListNoDup; repeat constructor; simpl;
    intuition discriminate.
Defined.

End MatcherProofs.

(* ===================================================================== *)
(** * Part V: more of the channel manager                                 *)
(* ===================================================================== *)

Module ChannelExtras.
Import Channel ChannelProofs.
Local Open Scope Z_scope.

Section WithEthers.

Context `{Ethers}.

(** The channel that a call names. *)
Definition target (c : Call) : string :=
  match c with
  | CInitialize cid _ _ _ | CUpdate cid _ | CRecordOrderIntent cid _
  | CRecordFill cid _ | CGetNextNonce cid | CCooperativeClose cid
  | CForceExit cid | CFinalizeClose cid | CClear cid => cid
  end.

(** Calls that start a channel afresh or drop it. *)
Definition resets (channelId : string) (c : Call) : bool :=
  match c with
  | CInitialize cid _ _ _ | CClear cid => String.eqb cid channelId
  | _ => false
  end.

Definition takes_nonce (channelId : string) (c : Call) : bool :=
  match c with
  | CGetNextNonce cid => String.eqb cid channelId
  | _ => false
  end.

Definition order_recorded (channelId : string) (c : Call) : option OrderIntent :=
  match c with
  | CRecordOrderIntent cid o => if String.eqb cid channelId then Some o else None
  | _ => None
  end.

Definition fill_recorded (channelId : string) (c : Call) : option Fill :=
  match c with
  | CRecordFill cid f => if String.eqb cid channelId then Some f else None
  | _ => None
  end.

Lemma call_other c m cid :
  target c <> cid ->
  channels (call c m) !! cid = channels m !! cid /\
  auditLog (call c m) !! cid = auditLog m !! cid.
Proof.
  intros Hne. destruct c; simpl in *.
  - rewrite !lookup_insert. by case_decide.
  - destruct (update_cases channelId newState m) as [[-> _]|(ch & Hch & _ & _ & _ & ->)];
      [done|]. simpl.
    destruct (auditLog m !! channelId); rewrite ?lookup_insert; by repeat case_decide.
  - unfold recordOrderIntent. destruct (auditLog m !! channelId); [|done]. simpl.
    rewrite lookup_insert. by case_decide.
  - unfold recordFill. destruct (auditLog m !! channelId); [|done]. simpl.
    rewrite lookup_insert. by case_decide.
  - unfold getNextNonce. destruct (channels m !! channelId); [|done]. simpl.
    rewrite lookup_insert. by case_decide.
  - unfold initiateCooperativeClose, set_channel_status.
    destruct (channels m !! channelId); [|done]. simpl.
    rewrite lookup_insert. by case_decide.
  - unfold initiateForceExit, set_channel_status.
    destruct (channels m !! channelId); [|done]. simpl.
    rewrite lookup_insert. by case_decide.
  - unfold finalizeClose, set_channel_status.
    destruct (channels m !! channelId); [|done]. simpl.
    rewrite lookup_insert. by case_decide.
  - rewrite !lookup_delete. by case_decide.
Qed.

(** X1.  Channels do not interfere: calls that name other channels,
    whichever methods they are and however many, leave a channel, its
    audit record and the force-exit proof generated for it as they
    were. *)
Theorem X1_calls_on_other_channels_frame (cs : list Call) (m : Manager) (cid : string) :
  Forall (fun c => target c <> cid) cs ->
  getChannel cid (run cs m) = getChannel cid m /\
  getAuditLog cid (run cs m) = getAuditLog cid m /\
  (forall now, generateForceExitProof cid now (run cs m) = generateForceExitProof cid now m).
Proof.
  unfold getChannel, getAuditLog.
  induction cs as [|c cs IH] using rev_ind; [done|].
  intros Hf. apply Forall_app in Hf as [Hcs Hc%Forall_inv].
  rewrite run_snoc. destruct (IH Hcs) as (IH1 & IH2 & IH3).
  destruct (call_other c (run cs m) cid Hc) as [E1 E2].
  repeat split; [congruence|congruence|].
  intros now. rewrite <- IH3. unfold generateForceExitProof. by rewrite E1, E2.
Qed.

(** *** What a history of calls leaves in a channel *)

Definition seq_lt (a b : StateUpdate) : Prop := su_sequence a < su_sequence b.

(** Both signatures of a state update verify against the parties of a
    channel. *)
Definition dual_signed (ch : ChannelState) (s : StateUpdate) : Prop :=
  verifyStateUpdateSignature s (userSignature s) (userAddress ch) = true /\
  verifyStateUpdateSignature s (operatorSignature s) (operatorAddress ch) = true.

Record channel_ok (cid : string) (ch : ChannelState) (log : AuditRecord) : Prop := {
  ok_id : id ch = cid;
  ok_nonce : 0 <= nextNonce ch;
  ok_sorted : StronglySorted seq_lt (states log);
  ok_signed : Forall (fun s => 0 < su_sequence s /\ dual_signed ch s) (states log);
  ok_last : match last (states log) with
            | Some s => latestState ch = Some s /\ sequence ch = su_sequence s /\
                        balances ch = su_balances s
            | None => latestState ch = None /\ sequence ch = 0
            end
}.

Definition sound (m : Manager) : Prop :=
  forall cid ch, channels m !! cid = Some ch ->
    exists log, auditLog m !! cid = Some log /\ channel_ok cid ch log.

Lemma sorted_below_last (l : list StateUpdate) (s : StateUpdate) :
  StronglySorted seq_lt l -> last l = Some s ->
  Forall (fun x => su_sequence x <= su_sequence s) l.
Proof.
  induction 1 as [|a l Hs IH Ha]; intros Hl; [done|].
  destruct l as [|b l'].
  - simpl in Hl. injection Hl as ->. constructor; [lia|done].
  - rewrite last_cons_cons in Hl. specialize (IH Hl).
    constructor; [|done].
    apply Forall_inv in IH. apply Forall_inv in Ha. unfold seq_lt in Ha. lia.
Qed.

Lemma sorted_snoc (l : list StateUpdate) (s : StateUpdate) :
  StronglySorted seq_lt l ->
  Forall (fun x => su_sequence x < su_sequence s) l ->
  StronglySorted seq_lt (l ++ [s]).
Proof.
  induction 1 as [|a l Hs IH Ha]; intros Hf; simpl.
  - repeat constructor.
  - apply Forall_cons in Hf as [Ha' Hf]. constructor; [by apply IH|].
    apply Forall_app. split; [done|]. by repeat constructor.
Qed.

Lemma channel_ok_status cid ch log s :
  channel_ok cid ch log -> channel_ok cid (set_status ch s) log.
Proof. intros [? ? ? ? ?]. by split. Qed.

Lemma sound_set_status cid s m :
  sound m -> sound (set_channel_status cid s m).
Proof.
  intros Hm cid' ch'. unfold set_channel_status.
  destruct (channels m !! cid) as [ch|] eqn:E; [|apply Hm]. simpl.
  rewrite lookup_insert. case_decide; [|apply Hm]. subst cid'.
  intros [= <-]. destruct (Hm _ _ E) as (log & Hlog & Hok).
  exists log. split; [done|]. by apply channel_ok_status.
Qed.

Lemma sound_new : sound new_manager.
Proof. intros cid ch. simpl. by rewrite lookup_empty. Qed.

Lemma sound_call c m : sound m -> sound (call c m).
Proof.
  intros Hm. destruct c; simpl; try by apply sound_set_status.
  - (* initializeChannel *)
    intros cid ch. simpl. rewrite !lookup_insert. case_decide; [|apply Hm].
    subst cid. intros [= <-]. eexists. split; [done|].
    split; simpl; try done. constructor.
  - (* updateChannelState *)
    destruct (update_cases channelId newState m)
      as [[-> _]|(ch & Hch & Hlt & Hu & Ho & ->)]; [done|].
    destruct (Hm _ _ Hch) as (log & Hlog & [Hid Hn Hso Hsi Hla]).
    rewrite Hlog. intros cid ch'. simpl. rewrite !lookup_insert.
    case_decide; [|apply Hm]. subst cid. intros [= <-].
    exists (push_state log newState). split; [done|].
    assert (0 <= sequence ch) as Hpos.
    { destruct (last (states log)) as [s|] eqn:El.
      - destruct Hla as (_ & -> & _). apply last_Some in El as [l' El].
        rewrite El in Hsi. apply Forall_app in Hsi as [_ Hs%Forall_inv]. lia.
      - destruct Hla as [_ ->]. lia. }
    split; simpl; try done.
    + apply sorted_snoc; [done|].
      destruct (last (states log)) as [s|] eqn:El.
      * destruct Hla as (_ & Hs & _).
        eapply Forall_impl; [by apply sorted_below_last|]. simpl. lia.
      * apply last_None in El. rewrite El. constructor.
    + apply Forall_app. split; [done|]. constructor; [|done].
      split; [lia|]. by split.
    + by rewrite last_snoc.
  - (* recordOrderIntent *)
    unfold recordOrderIntent.
    destruct (auditLog m !! channelId) as [log|] eqn:Hlog; [|done].
    intros cid ch Hch. simpl in *. rewrite lookup_insert.
    destruct (Hm _ _ Hch) as (log' & Hlog' & Hok).
    case_decide; [|by exists log']. subst cid.
    assert (log' = log) as -> by congruence.
    eexists. split; [done|]. destruct Hok. by split.
  - (* recordFill *)
    unfold recordFill.
    destruct (auditLog m !! channelId) as [log|] eqn:Hlog; [|done].
    intros cid ch Hch. simpl in *. rewrite lookup_insert.
    destruct (Hm _ _ Hch) as (log' & Hlog' & Hok).
    case_decide; [|by exists log']. subst cid.
    assert (log' = log) as -> by congruence.
    eexists. split; [done|]. destruct Hok. by split.
  - (* getNextNonce *)
    unfold getNextNonce.
    destruct (channels m !! channelId) as [ch|] eqn:Hch; [|done].
    intros cid ch'. simpl. rewrite lookup_insert. case_decide; [|apply Hm].
    subst cid. intros [= <-]. destruct (Hm _ _ Hch) as (log & Hlog & Hok).
    exists log. split; [done|]. destruct Hok. split; simpl; try done. lia.
  - (* clearChannel *)
    intros cid ch. simpl. rewrite !lookup_delete. case_decide; [done|apply Hm].
Qed.

Lemma sound_run cs : sound (run cs new_manager).
Proof.
  induction cs as [|c cs IH] using rev_ind; [apply sound_new|].
  rewrite run_snoc. by apply sound_call.
Qed.

(** *** A channel between two resets *)

Definition no_reset (cid : string) (cs : list Call) : bool :=
  forallb (fun c => negb (resets cid c)) cs.

Lemma target_eqb c cid : String.eqb (target c) cid = false -> target c <> cid.
Proof. by intros E%String.eqb_neq. Qed.

Lemma channel_between_resets cs m cid ch :
  channels m !! cid = Some ch ->
  no_reset cid cs = true ->
  exists ch', channels (run cs m) !! cid = Some ch' /\
    nextNonce ch' =
      nextNonce ch + Z.of_nat (length (List.filter (takes_nonce cid) cs)) /\
    id ch' = id ch /\ userAddress ch' = userAddress ch /\
    operatorAddress ch' = operatorAddress ch /\
    sequence ch <= sequence ch'.
Proof.
  intros Hch. unfold no_reset.
  induction cs as [|c cs IH] using rev_ind; intros Hn.
  { exists ch. simpl. repeat split; try done; lia. }
  rewrite forallb_app in Hn. apply andb_true_iff in Hn as [Hcs Hc].
  simpl in Hc. rewrite andb_true_r in Hc. apply negb_true_iff in Hc.
  destruct (IH Hcs) as (ch1 & H1 & Hnonce & Hid & Hu & Ho & Hseq).
  rewrite run_snoc, List.filter_app, length_app, Nat2Z.inj_add. simpl.
  destruct (String.eqb (target c) cid) eqn:Et.
  2:{ exists ch1. destruct (call_other c (run cs m) cid (target_eqb _ _ Et)) as [-> _].
      split; [done|].
      assert (takes_nonce cid c = false) as ->.
      { destruct c; simpl in *; try done. }
      simpl. repeat split; try done; lia. }
  apply String.eqb_eq in Et.
  destruct c; simpl in *; subst channelId;
    try (rewrite String.eqb_refl in Hc; discriminate).
  - (* updateChannelState *)
    destruct (update_cases cid newState (run cs m))
      as [[-> _]|(ch2 & Hch2 & Hlt & _ & _ & ->)].
    + exists ch1. repeat split; try done; lia.
    + assert (ch2 = ch1) as -> by congruence.
      exists (set_accepted ch1 newState). simpl. rewrite lookup_insert.
      case_decide; [|done]. repeat split; try done; lia.
  - unfold recordOrderIntent. exists ch1.
    destruct (auditLog (run cs m) !! cid); simpl; repeat split; try done; lia.
  - unfold recordFill. exists ch1.
    destruct (auditLog (run cs m) !! cid); simpl; repeat split; try done; lia.
  - unfold getNextNonce. rewrite H1. simpl. rewrite lookup_insert.
    case_decide; [|done]. exists (bump_nonce ch1). rewrite String.eqb_refl. simpl.
    repeat split; try done; lia.
  - unfold initiateCooperativeClose, set_channel_status. rewrite H1. simpl.
    rewrite lookup_insert. case_decide; [|done].
    exists (set_status ch1 closing). repeat split; try done; simpl; lia.
  - unfold initiateForceExit, set_channel_status. rewrite H1. simpl.
    rewrite lookup_insert. case_decide; [|done].
    exists (set_status ch1 disputed). repeat split; try done; simpl; lia.
  - unfold finalizeClose, set_channel_status. rewrite H1. simpl.
    rewrite lookup_insert. case_decide; [|done].
    exists (set_status ch1 closed). repeat split; try done; simpl; lia.
Qed.

Lemma record_between_resets cs m cid log :
  auditLog m !! cid = Some log ->
  no_reset cid cs = true ->
  exists log' sts, auditLog (run cs m) !! cid = Some log' /\
    orders log' = orders log ++ omap (order_recorded cid) cs /\
    fills log' = fills log ++ omap (fill_recorded cid) cs /\
    states log' = states log ++ sts.
Proof.
  intros Hlog. unfold no_reset.
  induction cs as [|c cs IH] using rev_ind; intros Hn.
  { exists log, []. simpl. by rewrite !app_nil_r. }
  rewrite forallb_app in Hn. apply andb_true_iff in Hn as [Hcs Hc].
  simpl in Hc. rewrite andb_true_r in Hc. apply negb_true_iff in Hc.
  destruct (IH Hcs) as (log1 & sts & H1 & Hor & Hfi & Hst).
  rewrite run_snoc, !omap_app. simpl.
  destruct (String.eqb (target c) cid) eqn:Et.
  2:{ exists log1, sts.
      destruct (call_other c (run cs m) cid (target_eqb _ _ Et)) as [_ ->].
      split; [done|].
      assert (order_recorded cid c = None) as ->.
      { destruct c; simpl in *; try done. by rewrite Et. }
      assert (fill_recorded cid c = None) as ->.
      { destruct c; simpl in *; try done. by rewrite Et. }
      simpl. by rewrite !app_nil_r. }
  apply String.eqb_eq in Et.
  destruct c; simpl in *; subst channelId;
    try (rewrite String.eqb_refl in Hc; discriminate);
    rewrite ?String.eqb_refl; simpl; rewrite ?app_nil_r.
  - (* updateChannelState *)
    destruct (update_cases cid newState (run cs m))
      as [[-> _]|(ch2 & Hch2 & Hlt & _ & _ & ->)].
    + by exists log1, sts.
    + simpl. rewrite H1, lookup_insert. case_decide; [|done].
      exists (push_state log1 newState), (sts ++ [newState]). simpl.
      rewrite Hst. by rewrite app_assoc.
  - unfold recordOrderIntent. rewrite H1. simpl. rewrite lookup_insert.
    case_decide; [|done]. exists (push_order log1 order), sts. simpl.
    rewrite Hor. by rewrite app_assoc.
  - unfold recordFill. rewrite H1. simpl. rewrite lookup_insert.
    case_decide; [|done]. exists (push_fill log1 fill), sts. simpl.
    rewrite Hfi. by rewrite app_assoc.
  - unfold getNextNonce. destruct (channels (run cs m) !! cid); simpl; by exists log1, sts.
  - unfold initiateCooperativeClose, set_channel_status.
    destruct (channels (run cs m) !! cid); simpl; by exists log1, sts.
  - unfold initiateForceExit, set_channel_status.
    destruct (channels (run cs m) !! cid); simpl; by exists log1, sts.
  - unfold finalizeClose, set_channel_status.
    destruct (channels (run cs m) !! cid); simpl; by exists log1, sts.
Qed.

(** X2.  Between two resets of a channel (calls of [initializeChannel]
    or [clearChannel] for it) the channel stays known, [getNextNonce]
    hands out the next nonce and each call of it for the channel counts
    one up, so no nonce is handed out twice; no other method changes the
    nonce, the id or the two parties, and the sequence number never goes
    down. *)
Theorem X2_nonces_count_up_between_resets
    (m : Manager) (cid : string) (ch : ChannelState) (cs : list Call) :
  getChannel cid m = Some ch ->
  no_reset cid cs = true ->
  exists ch',
    getChannel cid (run cs m) = Some ch' /\
    nextNonce ch' =
      nextNonce ch + Z.of_nat (length (List.filter (takes_nonce cid) cs)) /\
    getNextNonce cid (run cs m) =
      ({| channels := <[cid := bump_nonce ch']> (channels (run cs m));
          auditLog := auditLog (run cs m) |}, Some (nextNonce ch')) /\
    id ch' = id ch /\ userAddress ch' = userAddress ch /\
    operatorAddress ch' = operatorAddress ch /\
    sequence ch <= sequence ch'.
Proof.
  intros Hch Hn.
  destruct (channel_between_resets cs m cid ch Hch Hn)
    as (ch' & Hch' & Hnonce & Hid & Hu & Ho & Hs).
  exists ch'. repeat split; try done.
  unfold getNextNonce. by rewrite Hch'.
Qed.

(** X3.  The audit record is complete and in order: from the
    initialisation of a channel on, and until it is initialised again or
    cleared, the [orders] of its record are exactly the order intents
    that [recordOrderIntent] was called with for it, in the order of the
    calls, and its [fills] are exactly the fills given to [recordFill];
    nothing is checked, dropped or reordered. *)
Theorem X3_audit_record_keeps_every_record
    (m : Manager) (cid user operator : string) (b : Balances) (cs : list Call) :
  no_reset cid cs = true ->
  exists log,
    getAuditLog cid (run cs (fst (initializeChannel cid user operator b m))) = Some log /\
    orders log = omap (order_recorded cid) cs /\
    fills log = omap (fill_recorded cid) cs.
Proof.
  intros Hn.
  destruct (record_between_resets cs (fst (initializeChannel cid user operator b m)) cid
              {| orders := []; fills := []; states := [] |})
    as (log & sts & Hlog & Ho & Hf & _); [|done|].
  { simpl. rewrite lookup_insert. by case_decide. }
  by exists log.
Qed.

(** X4.  On every manager that a history of calls produces, the [states]
    of the audit record of a known channel have strictly increasing,
    positive sequence numbers, none above the sequence number of the
    channel; each of them carries signatures that verify against the
    user and the operator of the channel; and the last of them is the
    channel's [latestState], whose sequence number and balances are the
    channel's (a channel with no accepted state is at sequence 0). *)
Theorem X4_accepted_states_are_ordered_and_signed
    (cs : list Call) (cid : string) (ch : ChannelState) :
  getChannel cid (run cs new_manager) = Some ch ->
  id ch = cid /\
  exists log, getAuditLog cid (run cs new_manager) = Some log /\
    StronglySorted seq_lt (states log) /\
    Forall (fun s => 0 < su_sequence s <= sequence ch /\ dual_signed ch s) (states log) /\
    match last (states log) with
    | Some s => latestState ch = Some s /\ sequence ch = su_sequence s /\
                balances ch = su_balances s
    | None => latestState ch = None /\ sequence ch = 0
    end.
Proof.
  intros Hch. destruct (sound_run cs _ _ Hch) as (log & Hlog & [Hid _ Hso Hsi Hla]).
  split; [done|]. exists log. repeat split; try done.
  destruct (last (states log)) as [s|] eqn:El.
  - destruct Hla as (_ & -> & _).
    pose proof (sorted_below_last _ _ Hso El) as Hb.
    rewrite Forall_forall in *. intros x Hx. specialize (Hb x Hx).
    destruct (Hsi x Hx) as [? ?]. split; [lia|done].
  - apply last_None in El. rewrite El. constructor.
Qed.

Lemma sound_sequence_nonneg m cid ch :
  sound m -> channels m !! cid = Some ch -> 0 <= sequence ch.
Proof.
  intros Hm Hch. destruct (Hm _ _ Hch) as (log & _ & [_ _ _ Hsi Hla]).
  destruct (last (states log)) as [s|] eqn:El.
  - destruct Hla as (_ & -> & _). apply last_Some in El as [l' El].
    rewrite El in Hsi. apply Forall_app in Hsi as [_ Hs%Forall_inv]. lia.
  - destruct Hla as [_ ->]. lia.
Qed.

(** X5.  Initialising a channel again forgets what it had accepted: a
    state update that a channel accepted is accepted a second time once
    the channel has been initialised again for the same parties,
    whatever was called in between. *)
Theorem X5_reopened_channel_accepts_old_update
    (cs later : list Call) (cid : string) (ch : ChannelState)
    (su : StateUpdate) (b : Balances) :
  let m := run cs new_manager in
  getChannel cid m = Some ch ->
  snd (updateChannelState cid su m) = true ->
  let m1 := run later (fst (updateChannelState cid su m)) in
  let m2 := fst (initializeChannel cid (userAddress ch) (operatorAddress ch) b m1) in
  snd (updateChannelState cid su m2) = true.
Proof.
  intros m Hch Hacc. unfold getChannel in Hch.
  destruct (update_cases cid su m) as [[E _]|(ch' & Hch' & Hlt & Hu & Ho & _)].
  { rewrite E in Hacc. discriminate. }
  assert (ch' = ch) as -> by congruence.
  pose proof (sound_sequence_nonneg m cid ch (sound_run cs) Hch) as Hpos.
  simpl. unfold updateChannelState at 1. simpl.
  rewrite lookup_insert. case_decide; [|done]. simpl.
  destruct (su_sequence su <=? 0) eqn:E; [lia|].
  by rewrite Hu, Ho.
Qed.

(** X6.  No method reads the status of a channel.  Setting the status of
    any channel to any value, [closed] and [disputed] included, commutes
    with [updateChannelState], [getNextNonce], [recordOrderIntent] and
    [recordFill], which answer what they answered before, and it leaves
    the force-exit proof as it was: a closed channel accepts state
    updates and hands out nonces like an open one. *)
Theorem X6_status_is_never_read (m : Manager) (cid cid' : string) (s : ChannelStatus) :
  (forall su,
     updateChannelState cid su (set_channel_status cid' s m) =
       (set_channel_status cid' s (fst (updateChannelState cid su m)),
        snd (updateChannelState cid su m))) /\
  (getNextNonce cid (set_channel_status cid' s m) =
     (set_channel_status cid' s (fst (getNextNonce cid m)), snd (getNextNonce cid m))) /\
  (forall o, recordOrderIntent cid o (set_channel_status cid' s m) =
             set_channel_status cid' s (recordOrderIntent cid o m)) /\
  (forall f, recordFill cid f (set_channel_status cid' s m) =
             set_channel_status cid' s (recordFill cid f m)) /\
  (forall now, generateForceExitProof cid now (set_channel_status cid' s m) =
               generateForceExitProof cid now m).
Proof.
  repeat split.
  - intros su. unfold set_channel_status at 1.
    destruct (channels m !! cid') as [c'|] eqn:Hc'.
    2:{ destruct (update_cases cid su m) as [[-> _]|(ch & Hch & _ & _ & _ & ->)]; simpl.
        - unfold set_channel_status. by rewrite Hc'.
        - unfold set_channel_status. simpl. rewrite lookup_insert.
          case_decide; [congruence|]. by rewrite Hc'. }
    unfold updateChannelState. simpl. rewrite lookup_insert.
    case_decide as Hd.
    + subst cid'. rewrite Hc'. simpl.
      destruct (su_sequence su <=? sequence c').
      { simpl. unfold set_channel_status. by rewrite Hc'. }
      destruct (verifyStateUpdateSignature su (userSignature su) (userAddress c')); simpl.
      2:{ unfold set_channel_status. by rewrite Hc'. }
      destruct (verifyStateUpdateSignature su (operatorSignature su) (operatorAddress c')); simpl.
      2:{ unfold set_channel_status. by rewrite Hc'. }
      unfold set_channel_status. simpl. rewrite lookup_insert. case_decide; [|done].
      by rewrite !insert_insert_eq.
    + destruct (channels m !! cid) as [ch|] eqn:Hch.
      2:{ simpl. unfold set_channel_status. by rewrite Hc'. }
      destruct (su_sequence su <=? sequence ch).
      { simpl. unfold set_channel_status. by rewrite Hc'. }
      destruct (verifyStateUpdateSignature su (userSignature su) (userAddress ch)); simpl.
      2:{ unfold set_channel_status. by rewrite Hc'. }
      destruct (verifyStateUpdateSignature su (operatorSignature su) (operatorAddress ch)); simpl.
      2:{ unfold set_channel_status. by rewrite Hc'. }
      unfold set_channel_status. simpl. rewrite lookup_insert. case_decide; [congruence|].
      rewrite Hc'. by rewrite insert_insert_ne.
  - unfold set_channel_status at 1.
    destruct (channels m !! cid') as [c'|] eqn:Hc'.
    2:{ unfold getNextNonce. destruct (channels m !! cid) as [ch|] eqn:Hch; simpl.
        - unfold set_channel_status. simpl. rewrite lookup_insert.
          case_decide; [congruence|]. by rewrite Hc'.
        - unfold set_channel_status. by rewrite Hc'. }
    unfold getNextNonce. simpl. rewrite lookup_insert. case_decide as Hd.
    + subst cid'. rewrite Hc'. simpl. unfold set_channel_status. simpl.
      rewrite lookup_insert. case_decide; [|done]. by rewrite !insert_insert_eq.
    + destruct (channels m !! cid) as [ch|] eqn:Hch; simpl.
      * unfold set_channel_status. simpl. rewrite lookup_insert.
        case_decide; [congruence|]. rewrite Hc'. by rewrite insert_insert_ne.
      * unfold set_channel_status. by rewrite Hc'.
  - intros o. unfold set_channel_status, recordOrderIntent.
    destruct (channels m !! cid') eqn:E', (auditLog m !! cid) eqn:E; simpl;
      by rewrite ?E, ?E'.
  - intros f. unfold set_channel_status, recordFill.
    destruct (channels m !! cid') eqn:E', (auditLog m !! cid) eqn:E; simpl;
      by rewrite ?E, ?E'.
  - intros now. unfold set_channel_status, generateForceExitProof.
    destruct (channels m !! cid') as [c'|] eqn:Hc'; [|done]. simpl.
    rewrite lookup_insert. case_decide; [|done]. subst cid'. by rewrite Hc'.
Qed.

(** *** Addresses are compared without regard to letter case *)

Lemma lower_ascii_idemp c : lower_ascii (lower_ascii c) = lower_ascii c.
Proof. destruct c as [[] [] [] [] [] [] [] []]; reflexivity. Qed.

Lemma toLowerCase_idemp s : toLowerCase (toLowerCase s) = toLowerCase s.
Proof. induction s as [|c s IH]; simpl; [done|]. by rewrite lower_ascii_idemp, IH. Qed.

Lemma verify_same_lower su sig a a' :
  toLowerCase a = toLowerCase a' ->
  verifyStateUpdateSignature su sig a = verifyStateUpdateSignature su sig a'.
Proof. intros E. unfold verifyStateUpdateSignature. by rewrite E. Qed.

(** X7.  Addresses are compared without regard to letter case:
    [verifyStateUpdateSignature] answers for the lower-cased address what
    it answers for the address, and a channel opened with lower-cased
    addresses accepts exactly the updates that the channel opened with
    the addresses as given accepts. *)
Theorem X7_address_case_is_ignored
    (su : StateUpdate) (signature address : string)
    (m : Manager) (cid user operator : string) (b : Balances) :
  verifyStateUpdateSignature su signature (toLowerCase address) =
    verifyStateUpdateSignature su signature address /\
  snd (updateChannelState cid su
         (fst (initializeChannel cid (toLowerCase user) (toLowerCase operator) b m))) =
    snd (updateChannelState cid su (fst (initializeChannel cid user operator b m))).
Proof.
  split.
  - apply verify_same_lower, toLowerCase_idemp.
  - unfold updateChannelState. simpl. rewrite !lookup_insert. case_decide; [|done].
    simpl. destruct (su_sequence su <=? 0); [done|].
    rewrite (verify_same_lower su (userSignature su) _ user (toLowerCase_idemp _)).
    rewrite (verify_same_lower su (operatorSignature su) _ operator (toLowerCase_idemp _)).
    destruct (verifyStateUpdateSignature su (userSignature su) user); [|done].
    by destruct (verifyStateUpdateSignature su (operatorSignature su) operator).
Qed.

(** X8.  [updateChannelState] does not compare the [channelId] of the
    update with the channel it is applied to: an update that one channel
    accepts is accepted by every other channel of the same two parties
    whose sequence number is not above the first one's, before and after
    the first channel took it. *)
Theorem X8_update_is_not_bound_to_a_channel
    (m : Manager) (cid1 cid2 : string) (ch1 ch2 : ChannelState) (su : StateUpdate) :
  getChannel cid1 m = Some ch1 ->
  getChannel cid2 m = Some ch2 ->
  cid1 <> cid2 ->
  toLowerCase (userAddress ch2) = toLowerCase (userAddress ch1) ->
  toLowerCase (operatorAddress ch2) = toLowerCase (operatorAddress ch1) ->
  sequence ch2 <= sequence ch1 ->
  snd (updateChannelState cid1 su m) = true ->
  snd (updateChannelState cid2 su m) = true /\
  snd (updateChannelState cid2 su (fst (updateChannelState cid1 su m))) = true.
Proof.
  unfold getChannel. intros H1 H2 Hne Hu Ho Hs Hacc.
  destruct (update_cases cid1 su m) as [[E _]|(ch & Hch & Hlt & Hvu & Hvo & E)].
  { rewrite E in Hacc. discriminate. }
  assert (ch = ch1) as -> by congruence.
  rewrite (verify_same_lower _ _ _ _ (eq_sym Hu)) in Hvu.
  rewrite (verify_same_lower _ _ _ _ (eq_sym Ho)) in Hvo.
  assert (forall m', channels m' !! cid2 = Some ch2 ->
            snd (updateChannelState cid2 su m') = true) as Hgo.
  { intros m' Hm'. unfold updateChannelState. rewrite Hm'.
    destruct (su_sequence su <=? sequence ch2) eqn:El; [lia|].
    by rewrite Hvu, Hvo. }
  split; [by apply Hgo|]. apply Hgo. rewrite E. simpl.
  rewrite lookup_insert. by case_decide.
Qed.

(** X9.  After [clearChannel] the channel is unknown to every method:
    no channel, no audit record and no force-exit proof; state updates
    are rejected, records and status changes do nothing, [getNextNonce]
    throws, each leaving the manager as it is; clearing again changes
    nothing; and the other channels are as they were. *)
Theorem X9_clearChannel_forgets_the_channel (m : Manager) (cid : string) :
  let m' := clearChannel cid m in
  getChannel cid m' = None /\ getAuditLog cid m' = None /\
  (forall now, generateForceExitProof cid now m' = None) /\
  (forall su, updateChannelState cid su m' = (m', false)) /\
  (forall o, recordOrderIntent cid o m' = m') /\
  (forall f, recordFill cid f m' = m') /\
  getNextNonce cid m' = (m', None) /\
  (forall s, set_channel_status cid s m' = m') /\
  clearChannel cid m' = m' /\
  (forall cid', cid' <> cid ->
     getChannel cid' m' = getChannel cid' m /\ getAuditLog cid' m' = getAuditLog cid' m).
Proof.
  simpl. unfold getChannel, getAuditLog, generateForceExitProof, updateChannelState,
    recordOrderIntent, recordFill, getNextNonce, set_channel_status, clearChannel.
  simpl. rewrite !lookup_delete. case_decide; [|done].
  repeat split; try done.
  - by rewrite !delete_delete_eq.
  - rewrite lookup_delete. by case_decide.
  - rewrite lookup_delete. by case_decide.
Qed.

End WithEthers.

(** *** The theorems at work on a history *)

Definition su5 : StateUpdate :=
  {| su_channelId := "ch"; su_sequence := 5;
     su_balances := {| base := "3"; quote := "200" |};
     cumulativeFees := "1"; su_timestamp := 70;
     userSignature := "0xABC1"; operatorSignature := "0xdef2" |}.

(** Two channels of the same parties, the second opened in capitals. *)
Definition twice : list Call :=
  traded ++ [CInitialize "ch2" "0xABC1" "0xDEF2" b0].

Lemma X1_witness :
  getChannel "ch" (run (H := toy_ethers) [CInitialize "ch2" "0xABC1" "0xDEF2" b0; CGetNextNonce "ch2"]
                     (run (H := toy_ethers) traded new_manager))
  = getChannel "ch" (run (H := toy_ethers) traded new_manager).
Proof.
  apply (X1_calls_on_other_channels_frame (H := toy_ethers)).
  repeat constructor; simpl; discriminate.
Defined.

Definition traded_channel : ChannelState :=
  {| id := "ch"; userAddress := "0xabc1"; operatorAddress := "0xdef2";
     sequence := 3; balances := su_balances su3; status := opening;
     latestState := Some su3; nextNonce := 0 |}.

Lemma X2_witness :
  exists ch',
    getChannel "ch"
      (run (H := toy_ethers) [CGetNextNonce "ch"; CFinalizeClose "ch"; CGetNextNonce "ch"]
         (run (H := toy_ethers) traded new_manager)) = Some ch' /\
    nextNonce ch' = 0 + 2.
Proof.
  destruct (X2_nonces_count_up_between_resets (H := toy_ethers)
              (run (H := toy_ethers) traded new_manager) "ch" traded_channel
              [CGetNextNonce "ch"; CFinalizeClose "ch"; CGetNextNonce "ch"])
    as (ch' & Hch' & Hnonce & _); [vm_compute; reflexivity..|].
  exists ch'. split; [exact Hch'|exact Hnonce].
Defined.

Lemma X3_witness :
  exists log,
    getAuditLog "ch"
      (run (H := toy_ethers)
         [CRecordOrderIntent "ch" (intent1 40); CRecordFill "ch" (fill1 50);
          CRecordOrderIntent "x" (intent1 90); CRecordOrderIntent "ch" (intent1 90)]
         (fst (initializeChannel "ch" "0xabc1" "0xdef2" b0
                 (run (H := toy_ethers) traded new_manager)))) = Some log /\
    orders log = [intent1 40; intent1 90] /\ fills log = [fill1 50].
Proof.
  apply (X3_audit_record_keeps_every_record (H := toy_ethers)
           (run (H := toy_ethers) traded new_manager) "ch" "0xabc1" "0xdef2" b0
           [CRecordOrderIntent "ch" (intent1 40); CRecordFill "ch" (fill1 50);
            CRecordOrderIntent "x" (intent1 90); CRecordOrderIntent "ch" (intent1 90)]).
  vm_compute. reflexivity.
Defined.

Lemma X4_witness :
  id traded_channel = "ch" /\
  exists log, getAuditLog "ch" (run (H := toy_ethers) traded new_manager) = Some log /\
    StronglySorted seq_lt (states log) /\
    Forall (fun s => 0 < su_sequence s <= sequence traded_channel /\
                     dual_signed (H := toy_ethers) traded_channel s) (states log) /\
    match last (states log) with
    | Some s => latestState traded_channel = Some s /\
                sequence traded_channel = su_sequence s /\
                balances traded_channel = su_balances s
    | None => latestState traded_channel = None /\ sequence traded_channel = 0
    end.
Proof.
  apply (X4_accepted_states_are_ordered_and_signed (H := toy_ethers)
           traded "ch" traded_channel).
  vm_compute. reflexivity.
Defined.

Lemma X5_witness :
  snd (updateChannelState (H := toy_ethers) "ch" su5
         (fst (initializeChannel "ch" "0xabc1" "0xdef2" b0
                 (run (H := toy_ethers) [CFinalizeClose "ch"]
                    (fst (updateChannelState (H := toy_ethers) "ch" su5
                            (run (H := toy_ethers) traded new_manager))))))) = true.
Proof.
  apply (X5_reopened_channel_accepts_old_update (H := toy_ethers) traded
           [CFinalizeClose "ch"] "ch" traded_channel su5 b0); vm_compute; reflexivity.
Defined.

Lemma X8_witness :
  snd (updateChannelState (H := toy_ethers) "ch2" su5
         (run (H := toy_ethers) twice new_manager)) = true /\
  snd (updateChannelState (H := toy_ethers) "ch2" su5
         (fst (updateChannelState (H := toy_ethers) "ch" su5
                 (run (H := toy_ethers) twice new_manager)))) = true.
Proof.
  apply (X8_update_is_not_bound_to_a_channel (H := toy_ethers)
           (run (H := toy_ethers) twice new_manager) "ch" "ch2" traded_channel
           {| id := "ch2"; userAddress := "0xABC1"; operatorAddress := "0xDEF2";
              sequence := 0; balances := b0; status := opening;
              latestState := None; nextNonce := 0 |} su5);
    try (vm_compute; reflexivity); [discriminate | vm_compute; discriminate].
Defined.

End ChannelExtras.

(* ===================================================================== *)
(** * Part VI: more of the matching engine                                *)
(* ===================================================================== *)

Module MatcherExtras.
Import Matcher MatcherProofs.
Local Open Scope Q_scope.

(** ** What [processOrder] builds when it accepts *)

Lemma insert_by_ext {A} (cmp cmp' : A -> A -> Q) x l :
  (forall a b, cmp a b = cmp' a b) -> insert_by cmp x l = insert_by cmp' x l.
Proof. intros E. induction l as [|y l IH]; simpl; [done|]. by rewrite E, IH. Qed.

Lemma sort_by_ext {A} (cmp cmp' : A -> A -> Q) l :
  (forall a b, cmp a b = cmp' a b) -> sort_by cmp l = sort_by cmp' l.
Proof.
  intros E. induction l as [|x l IH]; [done|].
  unfold sort_by in *. simpl. rewrite IH. by apply insert_by_ext.
Qed.

Lemma cmp_side_keys sd a b a' b' :
  keys a = keys a' -> keys b = keys b' -> cmp_side sd a b = cmp_side sd a' b'.
Proof.
  unfold keys. intros [= _ _ _ _ _ Hp _ Ht] [= _ _ _ _ _ Hp' _ Ht'].
  destruct sd; simpl; unfold cmp_bid, cmp_ask; by rewrite Hp, Hp', Ht, Ht'.
Qed.

Lemma deref_snoc_keys (h : Heap) x y l :
  keys x = keys y -> keys (deref (h ++ [x]) l) = keys (deref (h ++ [y]) l).
Proof.
  intros E. unfold deref.
  destruct (Nat.lt_trichotomy l (length h)) as [Hl|[->|Hl]].
  - by rewrite !lookup_total_app_l.
  - by rewrite !list_lookup_total_middle.
  - rewrite !list_lookup_total_alt, !lookup_ge_None_2; [done| |];
      rewrite length_app; simpl; lia.
Qed.

(** The order object that [processOrder] returns: the incoming order with
    what is left of it and the status that goes with that. *)
Definition final_order (o : Order) (remaining : Q) : Order :=
  let updated := set_remaining o remaining in
  if Qeq_bool remaining 0 then set_status updated FILLED
  else if Qltb remaining (quantity o) then set_status updated PARTIAL
  else updated.

Definition rests (r : OrderRequest) (remaining : Q) : bool :=
  Qltb 0 remaining && match r_type r with LIMIT => true | MARKET => false end.

Lemma final_order_keys o q : keys (final_order o q) = keys o.
Proof. unfold final_order. destruct (Qeq_bool q 0); [done|]. by destruct (Qltb _ _). Qed.

Lemma final_order_remaining o q : remainingQuantity (final_order o q) = q.
Proof. unfold final_order. destruct (Qeq_bool q 0); [done|]. by destruct (Qltb _ _). Qed.

Lemma processOrder_success gen now h state r h' res :
  processOrder gen now h state r = Some (h', res) ->
  success res = true ->
  let o := order_of gen now r in
  exists m,
    validateRequest state r = None /\
    runs gen now o (getMatchableOrders h (orderbook state) o)
      {| m_fills := []; remainingQty := quantity o; m_balances := balances state;
         m_orderbook := orderbook state; m_heap := h |} m /\
    length (m_heap m) = length h /\
    h' = m_heap m ++ [final_order o (remainingQty m)] /\
    res = {| success := true; error := None;
             order := Some (final_order o (remainingQty m));
             res_fills := m_fills m;
             newState :=
               with_orderbook_balances state
                 (if rests r (remainingQty m)
                  then set_side (m_orderbook m) (r_outcome r) (r_side r)
                         (sort_by (by_ref h' (cmp_side (r_side r)))
                            (side_of (m_orderbook m) (r_outcome r) (r_side r)
                             ++ [length h]))
                  else m_orderbook m)
                 (m_balances m) (fills state ++ m_fills m) (sequence state + 1)%Z
                 (now (S (length (m_fills m))))
                 (fst (last_prices (m_fills m) (lastYesPrice state, lastNoPrice state)))
                 (snd (last_prices (m_fills m) (lastYesPrice state, lastNoPrice state))) |}.
Proof.
  unfold processOrder. fold (order_of gen now r).
  destruct (validateRequest state r) as [e|] eqn:Hv; [by intros [= <- <-]|].
  destruct (matchOrder gen now h state (order_of gen now r)) as [m|] eqn:Hm;
    simpl; [|done].
  destruct (last_prices _ _) as [ly ln] eqn:Hlp. intros [= <- <-] _.
  exists m. split; [done|].
  pose proof (matchOrder_runs _ _ _ _ _ _ Hm) as Hr. split; [done|].
  destruct (runs_frame _ _ _ _ _ _ Hr) as (Hlen & _). simpl in Hlen.
  split; [done|].
  set (o := order_of gen now r).
  change (if Qeq_bool (remainingQty m) 0 then _ else _)
    with (final_order o (remainingQty m)).
  assert (Hh : <[length (m_heap m) := final_order o (remainingQty m)]>
                 (m_heap m ++ [set_remaining o (remainingQty m)])
               = m_heap m ++ [final_order o (remainingQty m)]).
  { rewrite insert_app_r_alt by lia. by rewrite Nat.sub_diag. }
  rewrite Hh. split; [done|].
  f_equal. unfold with_orderbook_balances. f_equal; [|by rewrite Hlp..].
  fold (rests r (remainingQty m)).
  destruct (rests r (remainingQty m)); [|done].
  unfold addToOrderbook. rewrite cloneOrderbook_id.
  assert (Hd : deref (m_heap m ++ [set_remaining o (remainingQty m)]) (length (m_heap m))
               = set_remaining o (remainingQty m)).
  { unfold deref. by rewrite list_lookup_total_middle. }
  rewrite Hd. simpl outcome. simpl side. rewrite Hlen. f_equal.
  apply sort_by_ext. intros a b. unfold by_ref.
  apply cmp_side_keys; apply deref_snoc_keys; by rewrite final_order_keys.
Qed.

(** ** Resting orders *)

(** What holds of every order that rests in a book: part of it is still
    to be filled, it is a limit order with a price strictly between 0 and
    1, and it is neither filled nor cancelled. *)
Definition live (o : Order) : Prop :=
  0 < remainingQuantity o /\ remainingQuantity o <= quantity o /\
  type o = LIMIT /\ 0 < price o /\ price o < 1 /\
  (status o = OPEN \/ status o = PARTIAL).

Definition all_live (h : Heap) (ob : Orderbook) : Prop :=
  forall l, In l (all_refs ob) -> live (deref h l).

(** Every reference of a book is a live object on the side that its
    outcome and side name. *)
Definition placed (h : Heap) (ob : Orderbook) : Prop :=
  forall o sd l, In l (side_of ob o sd) ->
    (l < length h)%nat /\ outcome (deref h l) = o /\ side (deref h l) = sd.

Lemma well_formed_placed h s : well_formed h s -> placed h (orderbook s).
Proof. intros [_ Hs] o sd l Hl. destruct (Hs o sd l Hl) as (? & ? & ? & _). done. Qed.

Lemma runs_placed gen now order ms st m :
  runs gen now order ms st m ->
  placed (m_heap st) (m_orderbook st) -> placed (m_heap m) (m_orderbook m).
Proof.
  intros Hr Hp o sd l Hl.
  destruct (runs_frame _ _ _ _ _ _ Hr) as (Hlen & Hkeys & _ & Hsub).
  destruct (Hp o sd l (Hsub _ _ _ Hl)) as (Hlt & Ho & Hs).
  destruct (keys_place _ _ (Hkeys l)) as [-> ->]. rewrite Hlen. done.
Qed.

Lemma live_settle mk rq :
  live mk -> 0 < rq ->
  Qeq_bool (remainingQuantity mk - Qmin rq (remainingQuantity mk)) 0 = false ->
  live (settle mk (Qmin rq (remainingQuantity mk))).
Proof.
  intros (Hr & Hq & Ht & Hp0 & Hp1 & Hs) Hrq Hz.
  unfold settle. simpl. rewrite Hz. unfold live. simpl.
  apply Qeq_bool_neq in Hz.
  destruct (Qmin_bounds rq (remainingQuantity mk)) as (H0 & _ & Hle);
    [done|by apply Qlt_le_weak|].
  repeat split; try done; lra.
Qed.

Lemma runs_live gen now order ms st m :
  runs gen now order ms st m ->
  placed (m_heap st) (m_orderbook st) ->
  all_live (m_heap st) (m_orderbook st) ->
  all_live (m_heap m) (m_orderbook m).
Proof.
  induction 1 as [st|l rest st Hq|l rest st Hq Hc|l rest st b m Hq Hc Hb Hr IH];
    try done.
  intros Hp Hl.
  pose proof (runs_fill gen now order l [] st b _ Hq Hc Hb (runs_end _ _ _ _)) as Hstep.
  apply IH; [by apply (runs_placed _ _ _ _ _ _ Hstep)|]. clear IH Hr Hstep.
  intros l' Hl'. apply in_all_refs in Hl' as (o & sd & Hl'). simpl in *.
  set (mk := deref (m_heap st) l) in *.
  set (q := Qmin (remainingQty st) (remainingQuantity mk)) in *.
  assert (Hin : In l' (side_of (m_orderbook st) o sd)).
  { destruct (Qeq_bool _ 0); [|done]. by apply removeFromOrderbook_incl in Hl'. }
  assert (Hlive : live (deref (m_heap st) l')).
  { apply Hl, in_all_refs. eauto. }
  destruct (decide (l = l')) as [<-|Hne]; [|by rewrite deref_insert_ne].
  destruct (Hp o sd l Hin) as (Hlt & Ho & Hs).
  rewrite deref_insert_eq by done.
  destruct (Qeq_bool (remainingQuantity mk - q) 0) eqn:Hz; [|by apply live_settle].
  exfalso. fold mk in Ho, Hs.
  destruct (keys_place _ _ (settle_keys mk q)) as [Ho' Hs'].
  rewrite <- Ho, <- Hs, <- Ho', <- Hs' in Hl'.
  apply removeFromOrderbook_gone in Hl'. by rewrite deref_insert_eq in Hl'.
Qed.

Lemma deref_snoc_old (h : Heap) x l : (l < length h)%nat -> deref (h ++ [x]) l = deref h l.
Proof. intros Hl. unfold deref. by rewrite lookup_total_app_l. Qed.

Lemma deref_snoc_new (h : Heap) x : deref (h ++ [x]) (length h) = x.
Proof. unfold deref. by rewrite list_lookup_total_middle. Qed.

Lemma runs_remaining gen now order ms st m :
  runs gen now order ms st m ->
  (forall l, In l ms -> 0 <= remainingQuantity (deref (m_heap st) l)) ->
  0 <= remainingQty st ->
  0 <= remainingQty m /\ remainingQty m <= remainingQty st.
Proof.
  induction 1 as [st|l rest st Hq|l rest st Hq Hc|l rest st b m Hq Hc Hb Hr IH];
    try (intros; split; [done|apply Qle_refl]).
  intros Hrem H0. simpl in *.
  destruct (Qmin_bounds (remainingQty st) (remainingQuantity (deref (m_heap st) l)))
    as (Hm0 & Hma & Hmb); [done|by apply Hrem; left|].
  destruct IH as [IH1 IH2]; [|lra|split; [done|lra]].
  intros l' Hl'.
  destruct (decide (l = l' /\ (l < length (m_heap st))%nat)) as [[<- Hlt]|Hn].
  - rewrite deref_insert_eq by done. rewrite settle_remaining. lra.
  - destruct (decide (l = l')) as [<-|Hne].
    + rewrite list_insert_ge by lia. apply Hrem. by left.
    + rewrite deref_insert_ne by done. apply Hrem. by right.
Qed.

(** The fills of a run, one after the other. *)
Lemma runs_left gen now order ms st m :
  runs gen now order ms st m ->
  exists fs, m_fills m = m_fills st ++ fs /\
    remainingQty m = left_after (remainingQty st) fs /\
    Forall (fun f => takerOrderId f = id order /\ f_outcome f = outcome order) fs.
Proof.
  induction 1 as [st|l rest st Hq|l rest st Hq Hc|l rest st b m Hq Hc Hb Hr IH];
    try (exists []; by rewrite app_nil_r).
  destruct IH as (fs & Hfs & Hrq & Hall). simpl in *.
  exists (the_fill gen now order st (deref (m_heap st) l) :: fs).
  split; [by rewrite Hfs, <- app_assoc|]. split; [done|].
  constructor; [done|done].
Qed.

Lemma queue_live h ob o :
  all_live h ob ->
  forall l, In l (getMatchableOrders h ob o) -> live (deref h l).
Proof.
  intros Hl l Hin. apply in_queue in Hin. apply Hl, in_all_refs. eauto.
Qed.

Lemma final_order_live gen now state r q :
  validateRequest state r = None ->
  rests r q = true -> q <= r_quantity r ->
  live (final_order (order_of gen now r) q).
Proof.
  intros Hv Hrest Hq. unfold rests in Hrest.
  apply andb_true_iff in Hrest as [Hpos Hty]. apply Qltb_lt in Hpos.
  destruct (r_type r) eqn:Et; [|done].
  apply validateRequest_accepts in Hv as (ub & _ & _ & Hlim & _).
  destruct (Hlim Et) as (p & Hp & Hp0 & Hp1).
  unfold live. rewrite final_order_remaining.
  pose proof (final_order_keys (order_of gen now r) q) as Hk.
  unfold keys in Hk. injection Hk as _ _ _ _ Hty' Hpr Hqu _.
  rewrite Hty', Hpr, Hqu. simpl. rewrite Et, Hp.
  repeat split; try done.
  unfold final_order. simpl.
  destruct (Qeq_bool q 0) eqn:Hz; [apply Qeq_bool_iff in Hz; lra|].
  destruct (Qltb q (r_quantity r)); simpl; auto.
Qed.

(** X13.  Resting orders stay live.  When every order in a well-formed
    book has something left to fill (no more than its quantity), is a
    limit order with a price strictly between 0 and 1 and is neither
    filled nor cancelled, the same holds of every order in the book
    that [processOrder] returns: a maker that is filled completely leaves
    the book, and what is left of the incoming order only rests when it
    is a positive remainder of a limit order. *)
Theorem X13_resting_orders_stay_live
    (gen : nat -> string) (now : nat -> Z) (h h' : Heap)
    (state : PredictionMarketState) (r : OrderRequest) (res : OrderResult) :
  well_formed h state ->
  all_live h (orderbook state) ->
  processOrder gen now h state r = Some (h', res) ->
  all_live h' (orderbook (newState res)).
Proof.
  intros Hwf Hlive Hp.
  destruct (success res) eqn:Hs.
  2:{ apply processOrder_inv in Hp as [(e & _ & -> & ->)|(_ & m & _ & Hs' & _)];
        [done|congruence]. }
  destruct (processOrder_success _ _ _ _ _ _ _ Hp Hs) as (m & Hv & Hr & Hlen & -> & ->).
  simpl. clear Hp Hs.
  pose proof (runs_placed _ _ _ _ _ _ Hr (well_formed_placed _ _ Hwf)) as Hpl.
  pose proof (runs_live _ _ _ _ _ _ Hr (well_formed_placed _ _ Hwf) Hlive) as Hli.
  assert (Hold : forall l, In l (all_refs (m_orderbook m)) ->
            live (deref (m_heap m ++ [final_order (order_of gen now r) (remainingQty m)]) l)).
  { intros l Hl. rewrite deref_snoc_old; [by apply Hli|].
    apply in_all_refs in Hl as (o & sd & Hl). by destruct (Hpl o sd l Hl). }
  destruct (rests r (remainingQty m)) eqn:Hrest; [|done].
  intros l Hl. apply in_all_refs in Hl as (o & sd & Hl).
  rewrite side_of_set_side in Hl. case_decide as Hd.
  2:{ apply Hold, in_all_refs. eauto. }
  apply list_elem_of_In in Hl. rewrite sort_by_perm in Hl.
  apply list_elem_of_In, in_app_iff in Hl as [Hl|[<-|[]]].
  { apply Hold, in_all_refs. eauto. }
  rewrite <- Hlen, deref_snoc_new.
  eapply final_order_live; [done..|].
  destruct (runs_remaining _ _ _ _ _ _ Hr) as [_ Hle]; simpl.
  - intros l Hl. by destruct (queue_live _ _ _ Hlive l Hl) as (?%Qlt_le_weak & _).
  - apply validateRequest_accepts in Hv as (ub & _ & ?%Qlt_le_weak & _). done.
  - done.
Qed.

(** ** The sides of the book are kept in priority order *)

(** Each side of the book is in the order of price-time priority that an
    order coming from the other side meets: bids from the highest price
    down, asks from the lowest price up, the earlier order first at one
    price. *)
Definition book_sorted (h : Heap) (ob : Orderbook) : Prop :=
  forall o sd,
    StronglySorted (fun a b => has_priority (opposite sd) (deref h a) (deref h b))
      (side_of ob o sd).

Lemma has_priority_keys s a b a' b' :
  keys a = keys a' -> keys b = keys b' -> has_priority s a b -> has_priority s a' b'.
Proof.
  unfold keys. intros [= _ _ _ _ _ Hp _ Ht] [= _ _ _ _ _ Hp' _ Ht'].
  unfold has_priority. by rewrite Hp, Hp', Ht, Ht'.
Qed.

Lemma StronglySorted_sublist_ext {A} (R R' : A -> A -> Prop) (l1 l2 : list A) :
  l1 `sublist_of` l2 ->
  (forall a b, In a l2 -> In b l2 -> R a b -> R' a b) ->
  StronglySorted R l2 -> StronglySorted R' l1.
Proof.
  induction 1 as [|x l1 l2 Hsub IH|x l1 l2 Hsub IH]; intros HR Hs.
  - constructor.
  - apply StronglySorted_inv in Hs as [Hs Hx]. constructor.
    + apply IH; [|done]. intros a b Ha Hb. apply HR; by right.
    + rewrite Forall_forall in *. intros y Hy.
      assert (y ∈ l2) as Hy2 by (by eapply elem_of_sublist).
      apply HR; [by left|right; by apply list_elem_of_In|by apply Hx].
  - apply StronglySorted_inv in Hs as [Hs _].
    apply IH; [|done]. intros a b Ha Hb. apply HR; by right.
Qed.

Lemma removeFromList_sublist h oid uid ls :
  fst (removeFromList h oid uid ls) `sublist_of` ls.
Proof.
  induction ls as [|l ls IH]; simpl; [done|].
  destruct (_ && _); simpl; [by constructor|].
  destruct (removeFromList h oid uid ls). simpl in *. by constructor.
Qed.

Lemma cancelOrder_sublist h state oid uid now o sd :
  side_of (orderbook (cancelOrder h state oid uid now)) o sd
    `sublist_of` side_of (orderbook state) o sd.
Proof.
  unfold cancelOrder. rewrite cloneOrderbook_id.
  pose proof (removeFromList_sublist h oid uid (yesBids (orderbook state))).
  pose proof (removeFromList_sublist h oid uid (yesAsks (orderbook state))).
  pose proof (removeFromList_sublist h oid uid (noBids (orderbook state))).
  pose proof (removeFromList_sublist h oid uid (noAsks (orderbook state))).
  destruct (removeFromList h oid uid (yesBids _)) as [yb f1].
  destruct (removeFromList h oid uid (yesAsks _)) as [ya f2].
  destruct (removeFromList h oid uid (noBids _)) as [nb f3].
  destruct (removeFromList h oid uid (noAsks _)) as [na f4].
  destruct (negb _); [done|]. by destruct o, sd.
Qed.

Lemma side_sorted h sd l :
  StronglySorted (fun a b => has_priority (opposite sd) (deref h a) (deref h b))
    (sort_by (by_ref h (cmp_side sd)) l).
Proof.
  apply sort_by_sorted.
  - intros a b. unfold by_ref. destruct sd; simpl.
    + apply cmp_bid_le.
    + apply cmp_ask_le.
  - intros a b Hc. apply has_priority_total. intros Hp.
    unfold by_ref in Hc. destruct sd; simpl in *.
    + apply cmp_bid_le in Hp. congruence.
    + apply cmp_ask_le in Hp. congruence.
  - intros a b c. apply has_priority_trans.
Qed.

(** X14.  The sides of the book are kept in priority order.  The book of
    [createInitialState] is in order, and [initUserBalance],
    [cancelOrder] and [processOrder] keep a book in order: bids from the
    highest price down, asks from the lowest price up, the earlier order
    first at one price. *)
Theorem X14_book_stays_in_priority_order
    (gen : nat -> string) (now : nat -> Z) (h : Heap) (state : PredictionMarketState) :
  (forall marketId question t, book_sorted h (orderbook (createInitialState marketId question t))) /\
  (book_sorted h (orderbook state) ->
   (forall u amount t, book_sorted h (orderbook (initUserBalance state u amount t))) /\
   (forall orderId owner t,
      book_sorted h (orderbook (cancelOrder h state orderId owner t))) /\
   (forall r h' res,
      well_formed h state ->
      processOrder gen now h state r = Some (h', res) ->
      book_sorted h' (orderbook (newState res)))).
Proof.
  split.
  { intros ? ? ? [] []; constructor. }
  intros Hso. repeat split.
  - done.
  - intros oid uid t o sd.
    eapply StronglySorted_sublist_ext; [apply cancelOrder_sublist| |apply Hso]. done.
  - intros r h' res Hwf Hp.
    destruct (success res) eqn:Hs.
    2:{ apply processOrder_inv in Hp as [(e & _ & -> & ->)|(_ & m & _ & Hs' & _)];
          [done|congruence]. }
    destruct (processOrder_success _ _ _ _ _ _ _ Hp Hs) as (m & Hv & Hr & Hlen & -> & ->).
    simpl. clear Hp Hs.
    destruct (runs_frame _ _ _ _ _ _ Hr) as (_ & Hkeys & _ & Hsub'). simpl in *.
    pose proof (runs_sublist _ _ _ _ _ _ Hr) as Hsub. simpl in Hsub.
    set (fin := final_order (order_of gen now r) (remainingQty m)).
    assert (Hold : forall o sd,
              StronglySorted
                (fun a b => has_priority (opposite sd) (deref (m_heap m ++ [fin]) a)
                              (deref (m_heap m ++ [fin]) b))
                (side_of (m_orderbook m) o sd)).
    { intros o sd.
      eapply StronglySorted_sublist_ext; [apply Hsub| |apply Hso].
      intros a b Ha Hb.
      destruct (well_formed_placed _ _ Hwf o sd a Ha) as (Hla & _).
      destruct (well_formed_placed _ _ Hwf o sd b Hb) as (Hlb & _).
      apply has_priority_keys; rewrite deref_snoc_old by lia; by rewrite Hkeys. }
    destruct (rests r (remainingQty m)); [|done].
    intros o sd. rewrite side_of_set_side. case_decide as Hd; [|apply Hold].
    destruct Hd as [<- <-]. apply side_sorted.
Qed.

Lemma insert_by_head {A} (cmp : A -> A -> Q) x l :
  Forall (fun y => Qle_bool (cmp x y) 0 = true) l -> insert_by cmp x l = x :: l.
Proof. destruct 1 as [|y l Hy _]; simpl; [done|]. by rewrite Hy. Qed.

(** X15.  On a book whose sides are in priority order the sort of
    [getMatchableOrders] changes nothing: the queue that an order is
    matched against is the opposite side of the book as it stands. *)
Theorem X15_getMatchableOrders_is_the_book_side (h : Heap) (ob : Orderbook) (order : Order) :
  book_sorted h ob ->
  getMatchableOrders h ob order = side_of ob (outcome order) (opposite (side order)).
Proof.
  intros Hso. rewrite getMatchableOrders_queue.
  specialize (Hso (outcome order) (opposite (side order))).
  induction Hso as [|x l Hs IH Hx]; [done|].
  unfold sort_by in *. simpl. rewrite IH. apply insert_by_head.
  eapply Forall_impl; [apply Hx|]. intros y Hy. simpl in Hy. unfold by_ref.
  destruct (side order); simpl in *.
  - by apply cmp_ask_le.
  - by apply cmp_bid_le.
Qed.

(** ** What becomes of the incoming order *)

(** X18.  The order that an accepted request comes back as.  It is the
    new object of the store, with the id, owner, outcome, side, type,
    price and quantity of the request; what remains of it is its quantity
    less the quantities of its fills, between 0 and the quantity; and its
    status is [FILLED] exactly when nothing remains, [PARTIAL] exactly
    when something but not all remains, [OPEN] exactly when all of it
    remains. *)
Theorem X18_processOrder_reports_the_order
    (gen : nat -> string) (now : nat -> Z) (h h' : Heap)
    (state : PredictionMarketState) (r : OrderRequest) (res : OrderResult) :
  (forall l, In l (side_of (orderbook state) (r_outcome r) (opposite (r_side r))) ->
             0 <= remainingQuantity (deref h l)) ->
  processOrder gen now h state r = Some (h', res) ->
  success res = true ->
  exists o,
    order res = Some o /\ h' !! length h = Some o /\
    keys o = keys (order_of gen now r) /\
    remainingQuantity o = taker_remaining (order_of gen now r) (res_fills res) /\
    0 <= remainingQuantity o /\ remainingQuantity o <= r_quantity r /\
    (status o = FILLED <-> remainingQuantity o == 0) /\
    (status o = PARTIAL <-> 0 < remainingQuantity o /\ remainingQuantity o < r_quantity r) /\
    (status o = OPEN <-> remainingQuantity o == r_quantity r).
Proof.
  intros Hrem Hp Hs.
  destruct (processOrder_success _ _ _ _ _ _ _ Hp Hs) as (m & Hv & Hr & Hlen & -> & ->).
  simpl. clear Hp Hs.
  exists (final_order (order_of gen now r) (remainingQty m)).
  split; [done|]. split.
  { rewrite <- Hlen. by rewrite list_lookup_middle. }
  split; [apply final_order_keys|]. rewrite final_order_remaining.
  destruct (runs_left _ _ _ _ _ _ Hr) as (fs & Hfs & Hrq & _). simpl in *. subst fs.
  split; [done|].
  apply validateRequest_accepts in Hv as (ub & _ & Hq & _).
  destruct (runs_remaining _ _ _ _ _ _ Hr) as [H0 Hle]; simpl.
  { intros l Hl. apply in_queue in Hl. by apply Hrem. }
  { by apply Qlt_le_weak. }
  split; [done|]. split; [done|].
  unfold final_order. simpl.
  destruct (Qeq_bool (remainingQty m) 0) eqn:Hz.
  { apply Qeq_bool_iff in Hz. simpl. repeat split; try done; intros; lra. }
  apply Qeq_bool_neq in Hz.
  assert (0 < remainingQty m) as Hpos.
  { destruct (Qle_lt_or_eq _ _ H0) as [?|E]; [done|]. destruct Hz. by symmetry. }
  destruct (Qltb (remainingQty m) (r_quantity r)) eqn:Hlt; simpl.
  - apply Qltb_lt in Hlt. repeat split; try done; intros; lra.
  - apply Qltb_ge in Hlt. simpl in Hle. repeat split; try done; intros; lra.
Qed.

(** X19.  What [processOrder] adds to the book.  The incoming order is
    put on the book exactly when it is a limit order with a positive
    remainder, and then on the side of its own outcome and side; the
    unfilled remainder of a market order is dropped.  Nothing else is
    added: every other entry of the new book was in the old one, on the
    same side. *)
Theorem X19_only_a_limit_remainder_rests
    (gen : nat -> string) (now : nat -> Z) (h h' : Heap)
    (state : PredictionMarketState) (r : OrderRequest) (res : OrderResult) :
  well_formed h state ->
  processOrder gen now h state r = Some (h', res) ->
  success res = true ->
  exists o,
    order res = Some o /\
    (forall ou sd,
       In (length h) (side_of (orderbook (newState res)) ou sd) <->
       r_type r = LIMIT /\ 0 < remainingQuantity o /\ ou = r_outcome r /\ sd = r_side r) /\
    (forall ou sd l, l <> length h ->
       In l (side_of (orderbook (newState res)) ou sd) ->
       In l (side_of (orderbook state) ou sd)).
Proof.
  intros Hwf Hp Hs.
  destruct (processOrder_success _ _ _ _ _ _ _ Hp Hs) as (m & Hv & Hr & Hlen & -> & ->).
  simpl. clear Hp Hs.
  exists (final_order (order_of gen now r) (remainingQty m)).
  split; [done|]. rewrite final_order_remaining.
  destruct (runs_frame _ _ _ _ _ _ Hr) as (_ & _ & _ & Hsub). simpl in Hsub.
  assert (Hnot : forall ou sd, ~ In (length h) (side_of (m_orderbook m) ou sd)).
  { intros ou sd Hin. apply Hsub in Hin.
    destruct (well_formed_placed _ _ Hwf ou sd _ Hin) as (? & _). lia. }
  unfold rests. split.
  - intros ou sd. destruct (Qltb 0 (remainingQty m)) eqn:Hq; simpl.
    2:{ apply Qltb_ge in Hq. split; [by intros ?%Hnot|]. intros (_ & ? & _). lra. }
    apply Qltb_lt in Hq.
    destruct (r_type r); [|split; [by intros ?%Hnot|by intros (? & _)]].
    rewrite side_of_set_side. case_decide as Hd.
    + destruct Hd as [<- <-]. split; [done|]. intros _.
      apply list_elem_of_In. rewrite sort_by_perm.
      apply list_elem_of_In, in_app_iff. right. by left.
    + split; [by intros ?%Hnot|]. intros (_ & _ & -> & ->). tauto.
  - intros ou sd l Hne.
    destruct (Qltb 0 (remainingQty m) && _); [|apply Hsub].
    rewrite side_of_set_side. case_decide as Hd; [|apply Hsub].
    destruct Hd as [<- <-]. intros Hin.
    apply list_elem_of_In in Hin. rewrite sort_by_perm in Hin.
    apply list_elem_of_In, in_app_iff in Hin as [Hin|[<-|[]]]; [by apply Hsub|done].
Qed.

(** ** Last traded prices *)

Definition prices_complementary (s : PredictionMarketState) : Prop :=
  match lastYesPrice s, lastNoPrice s with
  | Some y, Some n => y + n == 1
  | None, None => True
  | _, _ => False
  end.

Lemma last_prices_snoc fs f init :
  last_prices (fs ++ [f]) init =
    match f_outcome f with
    | YES => (Some (f_price f), Some (1 - f_price f))
    | NO => (Some (1 - f_price f), Some (f_price f))
    end.
Proof. unfold last_prices. by rewrite fold_left_app. Qed.

(** X20.  The last traded prices.  After an order with fills,
    [lastYesPrice] and [lastNoPrice] are the price of its last fill and
    one minus that price (the other way round for a NO order), so they
    add up to 1; an order without fills, and a rejected one, leave them
    as they were. *)
Theorem X20_last_prices_follow_the_last_fill
    (gen : nat -> string) (now : nat -> Z) (h h' : Heap)
    (state : PredictionMarketState) (r : OrderRequest) (res : OrderResult) :
  processOrder gen now h state r = Some (h', res) ->
  (prices_complementary state -> prices_complementary (newState res)) /\
  (res_fills res = [] ->
     lastYesPrice (newState res) = lastYesPrice state /\
     lastNoPrice (newState res) = lastNoPrice state) /\
  (forall f, last (res_fills res) = Some f ->
     match r_outcome r with
     | YES => lastYesPrice (newState res) = Some (f_price f) /\
              lastNoPrice (newState res) = Some (1 - f_price f)
     | NO => lastYesPrice (newState res) = Some (1 - f_price f) /\
             lastNoPrice (newState res) = Some (f_price f)
     end).
Proof.
  intros Hp.
  destruct (success res) eqn:Hs.
  2:{ apply processOrder_inv in Hp as [(e & _ & -> & ->)|(_ & m & _ & Hs' & _)];
        [|congruence]. simpl. repeat split; try done. }
  destruct (processOrder_success _ _ _ _ _ _ _ Hp Hs) as (m & Hv & Hr & Hlen & -> & ->).
  simpl. clear Hp Hs.
  destruct (runs_left _ _ _ _ _ _ Hr) as (fs & Hfs & _ & Hall). simpl in *. subst fs.
  destruct (m_fills m) as [|f0 fs0] eqn:Ef using rev_ind.
  { simpl. repeat split; try done. }
  clear IHfs0. rewrite last_prices_snoc.
  apply Forall_app in Hall as [_ [_ Ho]%Forall_inv]. rewrite Ho.
  unfold prices_complementary. simpl. split; [|split].
  - intros _. destruct (r_outcome r); simpl; ring.
  - intros E. by apply app_eq_nil in E as [_ ?].
  - intros f. rewrite last_snoc. intros [= <-]. by destruct (r_outcome r).
Qed.

(** ** The book is never crossed *)

(** No bid of an outcome is at or above an ask of the same outcome. *)
Definition uncrossed (h : Heap) (ob : Orderbook) : Prop :=
  forall o b a, In b (side_of ob o BUY) -> In a (side_of ob o SELL) ->
    price (deref h b) < price (deref h a).

Lemma canMatch_keys order a a' :
  keys a = keys a' -> canMatch order a = canMatch order a'.
Proof. unfold keys. intros [= _ _ _ _ _ Hp _ _]. unfold canMatch. by rewrite Hp. Qed.

Lemma canMatch_priority order a b :
  has_priority (side order) a b -> canMatch order a = false -> canMatch order b = false.
Proof.
  unfold has_priority, canMatch. destruct (side order); intros Hp Ha;
    apply not_true_iff_false; apply not_true_iff_false in Ha;
    rewrite Qle_bool_iff in *; intros Hb; apply Ha; destruct Hp as [?|[? _]]; lra.
Qed.

(** When the loop leaves part of the incoming order unfilled, nothing
    that is left on the opposite side can be matched with it. *)
Lemma runs_exhausts gen now order ms st m :
  runs gen now order ms st m ->
  0 < remainingQty m ->
  StronglySorted (fun a b => has_priority (side order) (deref (m_heap st) a)
                               (deref (m_heap st) b)) ms ->
  placed (m_heap st) (m_orderbook st) ->
  (forall l, In l ms -> 0 <= remainingQuantity (deref (m_heap st) l)) ->
  (forall l, In l (side_of (m_orderbook st) (outcome order) (opposite (side order))) ->
     In l ms \/ canMatch order (deref (m_heap st) l) = false) ->
  forall l, In l (side_of (m_orderbook m) (outcome order) (opposite (side order))) ->
    canMatch order (deref (m_heap m) l) = false.
Proof.
  induction 1 as [st|l0 rest st Hq|l0 rest st Hq Hc|l0 rest st b m Hq Hc Hb Hr IH];
    intros Hpos Hso Hpl Hrem Hside.
  - intros l Hl. by destruct (Hside l Hl).
  - lra.
  - intros l Hl. destruct (Hside l Hl) as [[<-|Hin]|?]; [done| |done].
    apply StronglySorted_inv in Hso as [_ Hall].
    rewrite Forall_forall in Hall.
    eapply canMatch_priority; [apply Hall; by apply list_elem_of_In|done].
  - pose proof (runs_fill gen now order l0 [] st b _ Hq Hc Hb (runs_end _ _ _ _)) as Hstep.
    destruct (runs_frame _ _ _ _ _ _ Hstep) as (_ & Hkeys & _ & Hsub).
    assert (Hrem' : forall l, In l rest ->
              0 <= remainingQuantity
                     (deref (m_heap (next_state st l0
                        (the_fill gen now order st (deref (m_heap st) l0)) b)) l)).
    { intros l' Hl'. simpl.
      destruct (Qmin_bounds (remainingQty st) (remainingQuantity (deref (m_heap st) l0)))
        as (Hm0 & Hma & Hmb); [done|by apply Hrem; left|].
      destruct (decide (l0 = l' /\ (l0 < length (m_heap st))%nat)) as [[<- Hlt]|Hn].
      - rewrite deref_insert_eq by done. rewrite settle_remaining. lra.
      - destruct (decide (l0 = l')) as [<-|Hne].
        + rewrite list_insert_ge by lia. apply Hrem. by left.
        + rewrite deref_insert_ne by done. apply Hrem. by right. }
    apply IH; clear IH; try done.
    + apply StronglySorted_inv in Hso as [Hso _].
      eapply StronglySorted_sublist_ext; [done| |apply Hso].
      intros x y _ _. by apply has_priority_keys.
    + by apply (runs_placed _ _ _ _ _ _ Hstep).
    + intros l Hl. pose proof (Hsub _ _ _ Hl) as Hl0.
      rewrite (canMatch_keys _ _ _ (Hkeys l)).
      destruct (Hside l Hl0) as [[<-|Hin]|?]; [|by left|by right].
      exfalso. simpl in Hl, Hr.
      set (mk := deref (m_heap st) l0) in *.
      set (q := Qmin (remainingQty st) (remainingQuantity mk)) in *.
      destruct (Hpl _ _ _ Hl0) as (Hlt & Ho & Hs). fold mk in Ho, Hs.
      destruct (Qeq_bool (remainingQuantity mk - q) 0) eqn:Hz.
      * destruct (keys_place _ _ (settle_keys mk q)) as [Ho' Hs'].
        rewrite <- Ho, <- Hs, <- Ho', <- Hs' in Hl.
        apply removeFromOrderbook_gone in Hl. by rewrite deref_insert_eq in Hl.
      * apply Qeq_bool_neq in Hz.
        destruct (runs_remaining _ _ _ _ _ _ Hr Hrem') as [_ Hle]; simpl.
        -- fold mk q. destruct (Qmin_bounds (remainingQty st) (remainingQuantity mk))
             as (_ & ? & _); [done|by apply Hrem; left|]. fold q in H. lra.
        -- simpl in Hle. fold mk q in Hle.
           assert (q == remainingQty st \/ q == remainingQuantity mk) as [E|E].
           { unfold q. destruct (Q.min_spec (remainingQty st) (remainingQuantity mk))
               as [[_ ->]|[_ ->]]; [by left|by right]. }
           ++ lra.
           ++ apply Hz. lra.
Qed.

Lemma keys_price o o' : keys o = keys o' -> price o = price o'.
Proof. unfold keys. congruence. Qed.

(** X16.  The book is never crossed.  If in a well-formed book of live
    orders every bid of an outcome is priced strictly below every ask of
    that outcome, the same holds of the book that [processOrder] returns:
    an order only rests after it has consumed every order that it could
    be matched with. *)
Theorem X16_book_is_never_crossed
    (gen : nat -> string) (now : nat -> Z) (h h' : Heap)
    (state : PredictionMarketState) (r : OrderRequest) (res : OrderResult) :
  well_formed h state ->
  all_live h (orderbook state) ->
  uncrossed h (orderbook state) ->
  processOrder gen now h state r = Some (h', res) ->
  uncrossed h' (orderbook (newState res)).
Proof.
  intros Hwf Hlive Hun Hp.
  destruct (success res) eqn:Hs.
  2:{ apply processOrder_inv in Hp as [(e & _ & -> & ->)|(_ & m & _ & Hs' & _)];
        [done|congruence]. }
  destruct (processOrder_success _ _ _ _ _ _ _ Hp Hs) as (m & Hv & Hr & Hlen & -> & ->).
  simpl. clear Hp Hs.
  pose proof (well_formed_placed _ _ Hwf) as Hpl.
  destruct (runs_frame _ _ _ _ _ _ Hr) as (_ & Hkeys & _ & Hsub). simpl in Hkeys, Hsub.
  set (o := order_of gen now r) in *.
  set (fin := final_order o (remainingQty m)).
  assert (Hprice : forall ou sd l, In l (side_of (m_orderbook m) ou sd) ->
            price (deref (m_heap m ++ [fin]) l) = price (deref h l)).
  { intros ou sd l Hl. destruct (Hpl ou sd l (Hsub _ _ _ Hl)) as (Hlt & _).
    rewrite deref_snoc_old by lia. apply keys_price, Hkeys. }
  assert (Hold : forall ou b a, In b (side_of (m_orderbook m) ou BUY) ->
            In a (side_of (m_orderbook m) ou SELL) ->
            price (deref (m_heap m ++ [fin]) b) < price (deref (m_heap m ++ [fin]) a)).
  { intros ou b a Hb Ha. rewrite (Hprice _ _ _ Hb), (Hprice _ _ _ Ha).
    apply (Hun ou); by apply Hsub. }
  destruct (rests r (remainingQty m)) eqn:Hrest; [|done].
  unfold rests in Hrest. apply andb_true_iff in Hrest as [Hpos Hty].
  apply Qltb_lt in Hpos.
  pose proof (runs_exhausts _ _ _ _ _ _ Hr Hpos) as Hex. simpl in Hex.
  specialize (Hex (getMatchableOrders_sorted h (orderbook state) o) Hpl).
  assert (Hno : forall l,
            In l (side_of (m_orderbook m) (r_outcome r) (opposite (r_side r))) ->
            canMatch o (deref h l) = false).
  { intros l Hl. rewrite <- (canMatch_keys _ _ _ (Hkeys l)). apply Hex; [| |done].
    - intros l' Hl'. by destruct (queue_live _ _ o Hlive l' Hl') as (?%Qlt_le_weak & _).
    - intros l' Hl'. left. by apply in_queue. }
  assert (Hnew : price (deref (m_heap m ++ [fin]) (length h)) = price o).
  { rewrite <- Hlen, deref_snoc_new. apply keys_price, final_order_keys. }
  intros ou b a. rewrite !side_of_set_side.
  change (outcome o) with (r_outcome r) in Hno.
  change (side o) with (r_side r) in Hno.
  destruct (r_side r) eqn:Esd; simpl opposite in Hno.
  - (* a bid rests *)
    case_decide as Hd1; case_decide as Hd2; try (destruct Hd2; discriminate);
      [|apply Hold].
    destruct Hd1 as [<- _]. intros Hb Ha.
    apply list_elem_of_In in Hb. rewrite sort_by_perm in Hb.
    apply list_elem_of_In, in_app_iff in Hb as [Hb|[<-|[]]];
      [by apply (Hold _ _ _ Hb Ha)|].
    rewrite Hnew, (Hprice _ _ _ Ha).
    specialize (Hno a Ha). unfold canMatch in Hno.
    change (side o) with (r_side r) in Hno. rewrite Esd in Hno.
    apply not_true_iff_false in Hno. rewrite Qle_bool_iff in Hno.
    by apply Qnot_le_lt.
  - (* an ask rests *)
    case_decide as Hd1; case_decide as Hd2; try (destruct Hd1; discriminate);
      [|apply Hold].
    destruct Hd2 as [<- _]. intros Hb Ha.
    apply list_elem_of_In in Ha. rewrite sort_by_perm in Ha.
    apply list_elem_of_In, in_app_iff in Ha as [Ha|[<-|[]]];
      [by apply (Hold _ _ _ Hb Ha)|].
    rewrite Hnew, (Hprice _ _ _ Hb).
    specialize (Hno b Hb). unfold canMatch in Hno.
    change (side o) with (r_side r) in Hno. rewrite Esd in Hno.
    apply not_true_iff_false in Hno. rewrite Qle_bool_iff in Hno.
    by apply Qnot_le_lt.
Qed.

(** ** The fills of an order *)

(** X17.  The fills of an order on a well-formed book of live orders.
    Each has a positive quantity, no more than what its maker had left,
    is priced at the price of its maker, a resting order of the opposite
    side of the same outcome, strictly between 0 and 1 and never worse
    for the taker than the price of the incoming order, and names the
    incoming order as its taker. *)
Theorem X17_fills_are_positive_at_the_maker_price
    (gen : nat -> string) (now : nat -> Z) (h h' : Heap)
    (state : PredictionMarketState) (r : OrderRequest) (res : OrderResult) :
  well_formed h state ->
  all_live h (orderbook state) ->
  processOrder gen now h state r = Some (h', res) ->
  Forall (fun f =>
      0 < f_quantity f /\ 0 < f_price f /\ f_price f < 1 /\
      takerOrderId f = gen O /\ f_outcome f = r_outcome r /\
      (exists l,
         In l (side_of (orderbook state) (r_outcome r) (opposite (r_side r))) /\
         makerOrderId f = id (deref h l) /\ f_price f = price (deref h l) /\
         f_quantity f <= remainingQuantity (deref h l)) /\
      match r_side r with
      | BUY => f_price f <= price (order_of gen now r)
      | SELL => price (order_of gen now r) <= f_price f
      end)
    (res_fills res).
Proof.
  intros Hwf Hlive Hp.
  destruct (success res) eqn:Hs.
  2:{ apply processOrder_inv in Hp as [(e & _ & -> & ->)|(_ & m & _ & Hs' & _)];
        [constructor|congruence]. }
  destruct (processOrder_success _ _ _ _ _ _ _ Hp Hs) as (m & Hv & Hr & Hlen & -> & ->).
  simpl. clear Hp Hs.
  set (o := order_of gen now r) in *.
  assert (Hq : forall l, In l (getMatchableOrders h (orderbook state) o) ->
            In l (side_of (orderbook state) (r_outcome r) (opposite (r_side r)))).
  { intros l Hl. by apply in_queue in Hl. }
  apply runs_fills in Hr as (fs & Hfs & Hlenfs & _ & Hi & _); simpl in *.
  2:{ rewrite getMatchableOrders_perm. by apply (well_formed_distinct h state). }
  2:{ intros l Hl. by destruct (well_formed_placed _ _ Hwf _ _ l (Hq l Hl)). }
  subst fs. apply Forall_forall. intros f Hf.
  apply list_elem_of_lookup in Hf as [i Hf].
  destruct (lookup_lt_is_Some_2 (getMatchableOrders h (orderbook state) o) i) as [l Hl].
  { apply lookup_lt_Some in Hf. lia. }
  destruct (Hi i l f Hl Hf) as (Hb & Hc & Hmid & Htid & Hout & Hpr & Hqty & _).
  assert (In l (getMatchableOrders h (orderbook state) o)) as Hin.
  { apply list_elem_of_In, list_elem_of_lookup. eauto. }
  destruct (queue_live _ _ o Hlive l Hin) as (Hrem & _ & _ & Hp0 & Hp1 & _).
  rewrite Hpr, Hqty.
  destruct (Q.min_spec (left_after (r_quantity r) (take i (m_fills m)))
              (remainingQuantity (deref h l))) as [[Hlt E]|[Hle E]].
  all: repeat split; try done; try (rewrite E; lra).
  all: try (exists l; repeat split; [by apply Hq|done|rewrite E; lra]).
  all: unfold canMatch in Hc; subst o; simpl in Hc;
    destruct (r_side r); by apply Qle_bool_iff in Hc.
Qed.

(** ** Validation, error by error *)



(** ** Conservation, well-formedness, bookkeeping *)

(** X11.  Trading moves cash and tokens, it makes and destroys none:
    when no resting order that the request can meet belongs to the
    requester, [processOrder] keeps the total USDC, the total YES tokens
    and the total NO tokens over all participants, and every participant
    keeps a balance record. *)
Theorem X11_trading_conserves_cash_and_tokens
    (gen : nat -> string) (now : nat -> Z) (h h' : Heap)
    (state : PredictionMarketState) (r : OrderRequest) (res : OrderResult) :
  (forall l, In l (side_of (orderbook state) (r_outcome r) (opposite (r_side r))) ->
             userId (deref h l) <> r_userId r) ->
  processOrder gen now h state r = Some (h', res) ->
  total usdc (balances (newState res)) == total usdc (balances state) /\
  total yes (balances (newState res)) == total yes (balances state) /\
  total no (balances (newState res)) == total no (balances state) /\
  (forall u, is_Some (balances state !! u) -> is_Some (balances (newState res) !! u)).
Proof.
  intros Hself Hp. pose proof (processOrder_conserves _ _ _ _ _ _ _ Hp Hself) as (? & ? & ?).
  repeat split; try done.
  intros u Hu.
  apply processOrder_inv in Hp as [(e & _ & _ & ->)|(_ & m & Hm & _ & _ & -> & _)];
    [done|].
  apply matchOrder_runs in Hm. by apply (runs_dom _ _ _ _ _ _ _ Hm).
Qed.

(** X12.  Well-formed books are what the engine produces: the book of
    [createInitialState] is well formed (distinct order ids, every
    reference a stored order on the side that its outcome and side name,
    owned by a participant with a balance record), and
    [initUserBalance], [cancelOrder] and [processOrder] keep it so, the
    last as long as the generated order id is not the id of a resting
    order. *)
Theorem X12_engine_keeps_the_book_well_formed
    (gen : nat -> string) (now : nat -> Z) (h : Heap) (state : PredictionMarketState) :
  (forall marketId question t, well_formed h (createInitialState marketId question t)) /\
  (well_formed h state ->
   (forall u amount t, well_formed h (initUserBalance state u amount t)) /\
   (forall orderId owner t, well_formed h (cancelOrder h state orderId owner t)) /\
   (forall r h' res,
      (forall l, In l (all_refs (orderbook state)) -> id (deref h l) <> gen O) ->
      processOrder gen now h state r = Some (h', res) ->
      well_formed h' (newState res))).
Proof.
  split; [intros; apply createInitialState_well_formed|].
  intros Hwf. split; [|split].
  - intros. by apply initUserBalance_well_formed.
  - intros. by apply cancelOrder_well_formed.
  - intros. by eapply processOrder_well_formed.
Qed.

Lemma removeFromList_length h oid uid ls :
  (length ls <= S (length (fst (removeFromList h oid uid ls))))%nat.
Proof.
  induction ls as [|l ls IH]; simpl; [lia|].
  destruct (_ && _); simpl; [lia|].
  destruct (removeFromList h oid uid ls). simpl in *. lia.
Qed.

Lemma sublist_In {A} (l1 l2 : list A) x : l1 `sublist_of` l2 -> In x l1 -> In x l2.
Proof.
  intros Hs Hx. apply list_elem_of_In. eapply elem_of_sublist; [|done].
  by apply list_elem_of_In.
Qed.

(** X22.  [cancelOrder] only removes: every side of the new book is the
    old side without at most one entry; balances, fills and last prices
    are untouched (nothing is refunded or released) and the sequence
    number goes up by at most one; a book of live orders stays one, and
    an uncrossed book stays uncrossed. *)
Theorem X22_cancelOrder_only_removes
    (h : Heap) (state : PredictionMarketState) (orderId owner : string) (t : Z) :
  let state' := cancelOrder h state orderId owner t in
  (forall o sd,
     side_of (orderbook state') o sd `sublist_of` side_of (orderbook state) o sd /\
     (length (side_of (orderbook state) o sd)
        <= S (length (side_of (orderbook state') o sd)))%nat) /\
  balances state' = balances state /\ fills state' = fills state /\
  lastYesPrice state' = lastYesPrice state /\ lastNoPrice state' = lastNoPrice state /\
  (sequence state <= sequence state' <= sequence state + 1)%Z /\
  (all_live h (orderbook state) -> all_live h (orderbook state')) /\
  (uncrossed h (orderbook state) -> uncrossed h (orderbook state')).
Proof.
  intros state'.
  assert (Hsub : forall o sd,
            side_of (orderbook state') o sd `sublist_of` side_of (orderbook state) o sd).
  { intros. apply cancelOrder_sublist. }
  split; [|split; [|split; [|split; [|split; [|split; [|split]]]]]].
  - intros o sd. split; [done|]. subst state'. unfold cancelOrder.
    rewrite cloneOrderbook_id.
    pose proof (removeFromList_length h orderId owner (yesBids (orderbook state))).
    pose proof (removeFromList_length h orderId owner (yesAsks (orderbook state))).
    pose proof (removeFromList_length h orderId owner (noBids (orderbook state))).
    pose proof (removeFromList_length h orderId owner (noAsks (orderbook state))).
    destruct (removeFromList h orderId owner (yesBids _)) as [yb f1].
    destruct (removeFromList h orderId owner (yesAsks _)) as [ya f2].
    destruct (removeFromList h orderId owner (noBids _)) as [nb f3].
    destruct (removeFromList h orderId owner (noAsks _)) as [na f4].
    destruct (negb _); [lia|]. by destruct o, sd.
  - subst state'. unfold cancelOrder.
    destruct (removeFromList _ _ _ _), (removeFromList _ _ _ _),
      (removeFromList _ _ _ _), (removeFromList _ _ _ _). by destruct (negb _).
  - subst state'. unfold cancelOrder.
    destruct (removeFromList _ _ _ _), (removeFromList _ _ _ _),
      (removeFromList _ _ _ _), (removeFromList _ _ _ _). by destruct (negb _).
  - subst state'. unfold cancelOrder.
    destruct (removeFromList _ _ _ _), (removeFromList _ _ _ _),
      (removeFromList _ _ _ _), (removeFromList _ _ _ _). by destruct (negb _).
  - subst state'. unfold cancelOrder.
    destruct (removeFromList _ _ _ _), (removeFromList _ _ _ _),
      (removeFromList _ _ _ _), (removeFromList _ _ _ _). by destruct (negb _).
  - subst state'. unfold cancelOrder.
    destruct (removeFromList _ _ _ _), (removeFromList _ _ _ _),
      (removeFromList _ _ _ _), (removeFromList _ _ _ _).
    destruct (negb _); simpl; lia.
  - intros Hl l Hin. apply Hl. apply in_all_refs in Hin as (o & sd & Hin).
    apply in_all_refs. exists o, sd. eapply sublist_In; [apply Hsub|done].
  - intros Hu o b a Hb Ha. apply (Hu o); (eapply sublist_In; [apply Hsub|done]).
Qed.

(** X21.  The bookkeeping of [processOrder].  The error is the answer of
    [validateRequest] and the request succeeds exactly when there is
    none.  A rejected request changes nothing.  An accepted one raises
    the sequence number by one, appends its fills to the fills of the
    market, stamps the state with the time read after the last fill,
    stores exactly one new order object and leaves the id, owner,
    outcome, side, type, price, quantity and timestamp of every stored
    order as they were. *)
Theorem X21_processOrder_bookkeeping
    (gen : nat -> string) (now : nat -> Z) (h h' : Heap)
    (state : PredictionMarketState) (r : OrderRequest) (res : OrderResult) :
  processOrder gen now h state r = Some (h', res) ->
  marketId (newState res) = marketId state /\
  question (newState res) = question state /\
  error res = validateRequest state r /\
  (success res = true <-> validateRequest state r = None) /\
  (success res = false ->
     h' = h /\ newState res = state /\ res_fills res = [] /\ order res = None) /\
  (success res = true ->
     sequence (newState res) = (sequence state + 1)%Z /\
     fills (newState res) = fills state ++ res_fills res /\
     s_timestamp (newState res) = now (S (length (res_fills res))) /\
     length h' = S (length h) /\
     (forall l, (l < length h)%nat -> keys (deref h' l) = keys (deref h l))).
Proof.
  intros Hp.
  destruct (success res) eqn:Hs.
  2:{ pose proof Hp as Hp'.
      apply processOrder_inv in Hp' as [(e & He & -> & ->)|(_ & m & _ & Hs' & _)];
        [|congruence]. simpl. rewrite He. repeat split; try done. }
  destruct (processOrder_success _ _ _ _ _ _ _ Hp Hs) as (m & Hv & Hr & Hlen & -> & ->).
  simpl. rewrite Hv. repeat split; try done.
  - rewrite length_app. simpl. lia.
  - intros l Hl. rewrite deref_snoc_old by lia.
    by destruct (runs_frame _ _ _ _ _ _ Hr) as (_ & Hkeys & _).
Qed.

(** ** The theorems at work on a market *)

Definition bid (i owner : string) (p q : Q) (ts : Z) : Order :=
  {| id := i; userId := owner; outcome := YES; side := BUY; type := LIMIT;
     price := p; quantity := q; remainingQuantity := q; timestamp := ts;
     status := OPEN |}.

(** Asks of dave at 0.30, of carol at 0.40 (time 3) and of bob at 0.40
    (time 5), and a bid of erin at 0.20. *)
Definition book_heap : Heap :=
  [ ask "o3" "dave" (3 # 10) 2 9; ask "o2" "carol" (4 # 10) 5 3;
    ask "o1" "bob" (4 # 10) 5 5; bid "b1" "erin" (2 # 10) 4 1 ].

Definition book_state : PredictionMarketState :=
  market {| yesBids := [3]%nat; yesAsks := [0; 1; 2]%nat; noBids := []; noAsks := [] |}
    (<["alice" := demo_balance]> (<["bob" := demo_balance]>
       (<["carol" := demo_balance]> (<["dave" := demo_balance]>
          (<["erin" := demo_balance]> ∅))))).

(** Alice bids 0.45 for 20: 12 are filled and 8 rest. *)
Definition alice_bids : OrderRequest :=
  request "alice" YES BUY LIMIT (Some (45 # 100)) 20.

Lemma book_state_well_formed : well_formed book_heap book_state.
Proof.
  split.
  - apply NoDup_ListNoDup. repeat constructor; simpl; intuition discriminate.
  - intros [] [] l; simpl; try tauto.
    + intros [<-|[]]. split; [simpl; lia|]. split; [reflexivity|].
      split; [reflexivity|]. eexists; vm_compute; reflexivity.
    + intros [<-|[<-|[<-|[]]]];
        (split; [simpl; lia|]; split; [reflexivity|]; split; [reflexivity|];
         eexists; vm_compute; reflexivity).
Qed.

Lemma book_state_live : all_live book_heap (orderbook book_state).
Proof.
  intros l. simpl. intros [<-|[<-|[<-|[<-|[]]]]]; unfold live; simpl;
    repeat split; try (by vm_compute); by left.
Qed.

Lemma book_state_sorted : book_sorted book_heap (orderbook book_state).
Proof.
  intros [] []; unfold book_state, market;
    cbn [side_of orderbook yesBids yesAsks noBids noAsks opposite];
    repeat first [apply SSorted_nil | apply SSorted_cons
                 | apply Forall_nil | apply Forall_cons; split];
    unfold has_priority;
    first [done | by left; vm_compute | right; split; by vm_compute].
Qed.

Lemma book_state_uncrossed : uncrossed book_heap (orderbook book_state).
Proof.
  intros [] b a; simpl; try tauto.
  intros [<-|[]] [<-|[<-|[<-|[]]]]; by vm_compute.
Qed.

Lemma book_state_no_self_trade l :
  In l (side_of (orderbook book_state) (r_outcome alice_bids)
          (opposite (r_side alice_bids))) ->
  userId (deref book_heap l) <> r_userId alice_bids.
Proof. simpl. intros [<-|[<-|[<-|[]]]]; by vm_compute. Qed.

Lemma X11_witness :
  exists h' res,
    processOrder genId clock book_heap book_state alice_bids = Some (h', res) /\
    total usdc (balances (newState res)) == total usdc (balances book_state).
Proof.
  destruct (processOrder genId clock book_heap book_state alice_bids)
    as [[h' res]|] eqn:E; [|vm_compute in E; discriminate].
  exists h', res. split; [reflexivity|].
  exact (proj1 (X11_trading_conserves_cash_and_tokens _ _ _ _ _ _ _
                  book_state_no_self_trade E)).
Defined.

Lemma X13_witness :
  exists h' res,
    processOrder genId clock book_heap book_state alice_bids = Some (h', res) /\
    all_live h' (orderbook (newState res)).
Proof.
  destruct (processOrder genId clock book_heap book_state alice_bids)
    as [[h' res]|] eqn:E; [|vm_compute in E; discriminate].
  exists h', res. split; [reflexivity|].
  exact (X13_resting_orders_stay_live _ _ _ _ _ _ _
           book_state_well_formed book_state_live E).
Defined.

Lemma X15_witness :
  getMatchableOrders book_heap (orderbook book_state) (order_of genId clock alice_bids)
  = [0; 1; 2]%nat.
Proof.
  exact (X15_getMatchableOrders_is_the_book_side book_heap (orderbook book_state)
           (order_of genId clock alice_bids) book_state_sorted).
Defined.

Lemma X16_witness :
  exists h' res,
    processOrder genId clock book_heap book_state alice_bids = Some (h', res) /\
    uncrossed h' (orderbook (newState res)).
Proof.
  destruct (processOrder genId clock book_heap book_state alice_bids)
    as [[h' res]|] eqn:E; [|vm_compute in E; discriminate].
  exists h', res. split; [reflexivity|].
  exact (X16_book_is_never_crossed _ _ _ _ _ _ _
           book_state_well_formed book_state_live book_state_uncrossed E).
Defined.

Lemma X17_witness :
  exists h' res,
    processOrder genId clock book_heap book_state alice_bids = Some (h', res) /\
    Forall (fun f => 0 < f_quantity f /\ 0 < f_price f)
      (res_fills res).
Proof.
  destruct (processOrder genId clock book_heap book_state alice_bids)
    as [[h' res]|] eqn:E; [|vm_compute in E; discriminate].
  exists h', res. split; [reflexivity|].
  eapply Forall_impl;
    [exact (X17_fills_are_positive_at_the_maker_price _ _ _ _ _ _ _
              book_state_well_formed book_state_live E)|].
  intros f (Hq & Hp & _). split; [exact Hq|exact Hp].
Defined.

Lemma book_state_remaining l :
  In l (side_of (orderbook book_state) (r_outcome alice_bids)
          (opposite (r_side alice_bids))) ->
  0 <= remainingQuantity (deref book_heap l).
Proof. simpl. intros [<-|[<-|[<-|[]]]]; by vm_compute. Qed.

Lemma alice_bids_accepted h' res :
  processOrder genId clock book_heap book_state alice_bids = Some (h', res) ->
  success res = true.
Proof. vm_compute. by intros [= <- <-]. Qed.

Lemma X18_witness :
  exists h' res o,
    processOrder genId clock book_heap book_state alice_bids = Some (h', res) /\
    order res = Some o /\ (status o = PARTIAL <->
      0 < remainingQuantity o /\ remainingQuantity o < r_quantity alice_bids).
Proof.
  destruct (processOrder genId clock book_heap book_state alice_bids)
    as [[h' res]|] eqn:E; [|vm_compute in E; discriminate].
  destruct (X18_processOrder_reports_the_order _ _ _ _ _ _ _
              book_state_remaining E (alice_bids_accepted _ _ E))
    as (o & Ho & _ & _ & _ & _ & _ & _ & Hpartial & _).
  exists h', res, o. split; [reflexivity|]. split; [exact Ho|exact Hpartial].
Defined.

Lemma X19_witness :
  exists h' res,
    processOrder genId clock book_heap book_state alice_bids = Some (h', res) /\
    forall ou sd l, l <> length book_heap ->
      In l (side_of (orderbook (newState res)) ou sd) ->
      In l (side_of (orderbook book_state) ou sd).
Proof.
  destruct (processOrder genId clock book_heap book_state alice_bids)
    as [[h' res]|] eqn:E; [|vm_compute in E; discriminate].
  destruct (X19_only_a_limit_remainder_rests _ _ _ _ _ _ _
              book_state_well_formed E (alice_bids_accepted _ _ E))
    as (o & _ & _ & Hold).
  exists h', res. split; [reflexivity|exact Hold].
Defined.

Lemma X20_witness :
  exists h' res,
    processOrder genId clock book_heap book_state alice_bids = Some (h', res) /\
    prices_complementary (newState res).
Proof.
  destruct (processOrder genId clock book_heap book_state alice_bids)
    as [[h' res]|] eqn:E; [|vm_compute in E; discriminate].
  exists h', res. split; [reflexivity|].
  exact (proj1 (X20_last_prices_follow_the_last_fill _ _ _ _ _ _ _ E) I).
Defined.

Lemma X21_witness :
  exists h' res,
    processOrder genId clock book_heap book_state alice_bids = Some (h', res) /\
    error res = validateRequest book_state alice_bids.
Proof.
  destruct (processOrder genId clock book_heap book_state alice_bids)
    as [[h' res]|] eqn:E; [|vm_compute in E; discriminate].
  exists h', res. split; [reflexivity|].
  destruct (X21_processOrder_bookkeeping _ _ _ _ _ _ _ E) as (_ & _ & He & _).
  exact He.
Defined.

Lemma X12_witness :
  well_formed book_heap (cancelOrder book_heap book_state "o2" "carol" 7).
Proof.
  destruct (X12_engine_keeps_the_book_well_formed genId clock book_heap book_state)
    as (_ & Hkeep).
  destruct (Hkeep book_state_well_formed) as (_ & Hcancel & _).
  exact (Hcancel "o2" "carol" 7%Z).
Defined.

Lemma X14_witness :
  book_sorted book_heap (orderbook (cancelOrder book_heap book_state "o2" "carol" 7)).
Proof.
  destruct (X14_book_stays_in_priority_order genId clock book_heap book_state)
    as (_ & Hkeep).
  destruct (Hkeep book_state_sorted) as (_ & Hcancel & _).
  exact (Hcancel "o2" "carol" 7%Z).
Defined.

Lemma X22_witness :
  all_live book_heap (orderbook (cancelOrder book_heap book_state "o2" "carol" 7)) /\
  uncrossed book_heap (orderbook (cancelOrder book_heap book_state "o2" "carol" 7)).
Proof.
  destruct (X22_cancelOrder_only_removes book_heap book_state "o2" "carol" 7)
    as (_ & _ & _ & _ & _ & _ & Hlive & Hun).
  split; [exact (Hlive book_state_live)|exact (Hun book_state_uncrossed)].
Defined.

End MatcherExtras.

(* ===================================================================== *)
(** * Part VII: the order-book display                                    *)
(* ===================================================================== *)

Module DisplayProofs.
Import Matcher MatcherProofs MatcherExtras.
Local Open Scope Q_scope.

(** ** The aggregated book *)

Definition level_quantity (levels : list PriceLevel) : Q :=
  fold_right (fun lv acc => pl_quantity lv + acc) 0 levels.

Definition level_count (levels : list PriceLevel) : Z :=
  fold_right (fun lv acc => (orderCount lv + acc)%Z) 0%Z levels.

Definition resting_quantity (h : Heap) (orders : list loc) : Q :=
  fold_right (fun l acc => remainingQuantity (deref h l) + acc) 0 orders.

(** No level of the list has the price [p]. *)
Definition fresh (p : Q) (levels : list PriceLevel) : Prop :=
  Forall (fun lv => ~ pl_price lv == p) levels.

Inductive distinct_levels : list PriceLevel -> Prop :=
| distinct_nil : distinct_levels []
| distinct_cons lv levels :
    fresh (pl_price lv) levels -> distinct_levels levels ->
    distinct_levels (lv :: levels).

Lemma add_level_quantity o levels :
  level_quantity (add_level o levels) == level_quantity levels + remainingQuantity o.
Proof.
  induction levels as [|lv levels IH]; simpl; [ring|].
  destruct (Qeq_bool _ _); simpl; [ring|]. rewrite IH. ring.
Qed.

Lemma add_level_count o levels :
  level_count (add_level o levels) = (level_count levels + 1)%Z.
Proof.
  induction levels as [|lv levels IH]; simpl; [done|].
  destruct (Qeq_bool _ _); simpl; lia.
Qed.

Lemma add_level_fresh o p levels :
  ~ price o == p -> fresh p levels -> fresh p (add_level o levels).
Proof.
  intros Hne. induction 1 as [|lv levels Hlv Hf IH]; simpl.
  - by repeat constructor.
  - destruct (Qeq_bool _ _); constructor; done.
Qed.

Lemma add_level_distinct o levels :
  distinct_levels levels -> distinct_levels (add_level o levels).
Proof.
  induction 1 as [|lv levels Hf Hd IH]; simpl.
  - repeat constructor.
  - destruct (Qeq_bool (pl_price lv) (price o)) eqn:E.
    + by constructor.
    + apply Qeq_bool_neq in E. constructor; [|done].
      apply add_level_fresh; [|done]. intros E'. apply E. by symmetry.
Qed.

Lemma add_level_prices o levels lv :
  In lv (add_level o levels) ->
  pl_price lv = price o \/ exists lv', In lv' levels /\ pl_price lv = pl_price lv'.
Proof.
  induction levels as [|x levels IH]; simpl.
  - intros [<-|[]]. by left.
  - destruct (Qeq_bool _ _).
    + intros [<-|Hin]; right; eauto.
    + intros [<-|Hin]; [right; eauto|].
      destruct (IH Hin) as [?|(lv' & ? & ?)]; [by left|right; eauto].
Qed.

Lemma add_level_covers o levels :
  (exists lv, In lv (add_level o levels) /\ pl_price lv == price o) /\
  (forall lv', In lv' levels ->
     exists lv, In lv (add_level o levels) /\ pl_price lv = pl_price lv').
Proof.
  induction levels as [|x levels [IH1 IH2]]; simpl.
  - split; [eexists; split; [by left|done]|by intros ? []].
  - destruct (Qeq_bool (pl_price x) (price o)) eqn:E.
    + apply Qeq_bool_iff in E. split.
      * eexists. split; [by left|done].
      * intros lv' [<-|Hin].
        -- eexists. split; [by left|done].
        -- exists lv'. split; [by right|done].
    + split.
      * destruct IH1 as (lv & ? & ?). exists lv. split; [by right|done].
      * intros lv' [<-|Hin]; [eexists; split; [by left|done]|].
        destruct (IH2 _ Hin) as (lv & ? & ?). exists lv. split; [by right|done].
Qed.

Lemma add_level_positive o levels :
  0 < remainingQuantity o ->
  Forall (fun lv => 0 < pl_quantity lv /\ (0 < orderCount lv)%Z) levels ->
  Forall (fun lv => 0 < pl_quantity lv /\ (0 < orderCount lv)%Z) (add_level o levels).
Proof.
  intros Ho. induction 1 as [|lv levels [Hq Hc] Hf IH]; simpl.
  - repeat constructor; done.
  - destruct (Qeq_bool _ _); constructor; try done. simpl. split; [lra|lia].
Qed.

(** What the loop of [aggregateOrders] keeps, from any levels on. *)
Lemma aggregate_from h orders levels :
  let levels' := fold_left (fun levels l => add_level (deref h l) levels) orders levels in
  level_quantity levels' == level_quantity levels + resting_quantity h orders /\
  level_count levels' = (level_count levels + Z.of_nat (length orders))%Z /\
  (distinct_levels levels -> distinct_levels levels') /\
  (forall lv, In lv levels' ->
     (exists lv', In lv' levels /\ pl_price lv = pl_price lv') \/
     (exists l, In l orders /\ pl_price lv = price (deref h l))) /\
  (forall l, In l orders -> exists lv, In lv levels' /\ pl_price lv == price (deref h l)) /\
  (forall lv', In lv' levels -> exists lv, In lv levels' /\ pl_price lv = pl_price lv') /\
  ((forall l, In l orders -> 0 < remainingQuantity (deref h l)) ->
   Forall (fun lv => 0 < pl_quantity lv /\ (0 < orderCount lv)%Z) levels ->
   Forall (fun lv => 0 < pl_quantity lv /\ (0 < orderCount lv)%Z) levels').
Proof.
  revert levels. induction orders as [|l orders IH]; intros levels; simpl.
  - repeat split; try done; try ring; try lia; eauto.
  - destruct (IH (add_level (deref h l) levels)) as (Hq & Hc & Hd & Hp & Hcov & Hkeep & Hpos).
    split; [|split; [|split; [|split; [|split; [|split]]]]].
    + rewrite Hq, add_level_quantity. ring.
    + rewrite Hc, add_level_count. lia.
    + intros. by apply Hd, add_level_distinct.
    + intros lv Hlv. destruct (Hp lv Hlv) as [(lv' & Hin & E)|(l' & Hin & E)].
      * destruct (add_level_prices _ _ _ Hin) as [E'|(lv'' & ? & E')].
        -- right. exists l. split; [by left|congruence].
        -- left. exists lv''. split; [done|congruence].
      * right. exists l'. split; [by right|done].
    + intros l' [<-|Hin]; [|by apply Hcov].
      destruct (add_level_covers (deref h l) levels) as [(lv & Hlv & E) _].
      destruct (Hkeep lv Hlv) as (lv2 & ? & E2). exists lv2. split; [done|].
      by rewrite E2.
    + intros lv' Hin.
      destruct (add_level_covers (deref h l) levels) as [_ Hk].
      destruct (Hk lv' Hin) as (lv & Hlv & E).
      destruct (Hkeep lv Hlv) as (lv2 & ? & E2). exists lv2. split; [done|congruence].
    + intros Hall Hf. apply Hpos; [intros; apply Hall; by right|].
      apply add_level_positive; [apply Hall; by left|done].
Qed.

Lemma aggregateOrders_spec h orders :
  let levels := aggregateOrders h orders in
  level_quantity levels == resting_quantity h orders /\
  level_count levels = Z.of_nat (length orders) /\
  distinct_levels levels /\
  (forall lv, In lv levels -> exists l, In l orders /\ pl_price lv = price (deref h l)) /\
  (forall l, In l orders -> exists lv, In lv levels /\ pl_price lv == price (deref h l)) /\
  ((forall l, In l orders -> 0 < remainingQuantity (deref h l)) ->
   Forall (fun lv => 0 < pl_quantity lv /\ (0 < orderCount lv)%Z) levels).
Proof.
  destruct (aggregate_from h orders []) as (Hq & Hc & Hd & Hp & Hcov & _ & Hpos).
  simpl in *. unfold aggregateOrders.
  split; [by rewrite Hq, Qplus_0_l|]. split; [done|]. split; [apply Hd; constructor|].
  split; [|split; [done|]].
  - intros lv Hlv. by destruct (Hp lv Hlv) as [(? & [] & _)|?].
  - intros Hall. by apply Hpos.
Qed.

Lemma level_quantity_perm l l' :
  Permutation l l' -> level_quantity l == level_quantity l'.
Proof.
  induction 1 as [|x l l' _ IH|x y l|l l' l'' _ IH1 _ IH2]; simpl.
  - reflexivity.
  - by rewrite IH.
  - ring.
  - by rewrite IH1.
Qed.

Lemma level_count_perm l l' : Permutation l l' -> level_count l = level_count l'.
Proof.
  induction 1 as [|x l l' _ IH|x y l|l l' l'' _ IH1 _ IH2]; simpl; lia.
Qed.

Lemma distinct_levels_perm l l' :
  Permutation l l' -> distinct_levels l -> distinct_levels l'.
Proof.
  induction 1 as [|x l l' Hp IH|x y l|l l' l'' _ IH1 _ IH2]; intros Hd.
  - done.
  - inversion Hd as [|? ? Hf Hd']; subst. constructor; [|by apply IH].
    unfold fresh in *. by rewrite <- Hp.
  - inversion Hd as [|? ? Hf Hd']; subst.
    inversion Hd' as [|? ? Hf' Hd'']; subst.
    apply Forall_cons in Hf as [Hxy Hf].
    constructor; [|by constructor].
    constructor; [|done]. intros E. apply Hxy. by symmetry.
  - auto.
Qed.

(** The two sorts of [getOrderbookDisplay]. *)
Definition by_price_desc (a b : PriceLevel) : Q := pl_price b - pl_price a.
Definition by_price_asc (a b : PriceLevel) : Q := pl_price a - pl_price b.

Lemma sort_desc_sorted l :
  StronglySorted (fun a b => pl_price b <= pl_price a) (sort_by by_price_desc l).
Proof.
  apply sort_by_sorted; unfold by_price_desc.
  - intros a b Hc. apply Qle_bool_iff in Hc. lra.
  - intros a b Hc. apply not_true_iff_false in Hc. rewrite Qle_bool_iff in Hc. lra.
  - intros a b c ? ?. lra.
Qed.

Lemma sort_asc_sorted l :
  StronglySorted (fun a b => pl_price a <= pl_price b) (sort_by by_price_asc l).
Proof.
  apply sort_by_sorted; unfold by_price_asc.
  - intros a b Hc. apply Qle_bool_iff in Hc. lra.
  - intros a b Hc. apply not_true_iff_false in Hc. rewrite Qle_bool_iff in Hc. lra.
  - intros a b c ? ?. lra.
Qed.

Lemma strictly_desc l :
  distinct_levels l ->
  StronglySorted (fun a b => pl_price b <= pl_price a) l ->
  StronglySorted (fun a b => pl_price b < pl_price a) l.
Proof.
  induction 1 as [|x l Hf Hd IH]; intros Hs; [constructor|].
  apply StronglySorted_inv in Hs as [Hs Hx]. constructor; [by apply IH|].
  unfold fresh in Hf. rewrite Forall_forall in *. intros y Hy.
  specialize (Hf y Hy). specialize (Hx y Hy). simpl in *.
  destruct (Qle_lt_or_eq _ _ Hx) as [?|E]; [done|]. by destruct Hf.
Qed.

Lemma strictly_asc l :
  distinct_levels l ->
  StronglySorted (fun a b => pl_price a <= pl_price b) l ->
  StronglySorted (fun a b => pl_price a < pl_price b) l.
Proof.
  induction 1 as [|x l Hf Hd IH]; intros Hs; [constructor|].
  apply StronglySorted_inv in Hs as [Hs Hx]. constructor; [by apply IH|].
  unfold fresh in Hf. rewrite Forall_forall in *. intros y Hy.
  specialize (Hf y Hy). specialize (Hx y Hy). simpl in *.
  destruct (Qle_lt_or_eq _ _ Hx) as [?|E]; [done|]. destruct Hf. by symmetry.
Qed.

(** X23.  The levels of the display aggregate a side of the book.  For
    the YES bids and for the YES asks: the quantities of the levels add
    up to the remaining quantities of the resting orders and the order
    counts to the number of orders; every order's price has a level and
    every level has the price of an order; no two levels have the same
    price, bid levels come from the highest price down and ask levels
    from the lowest price up; and when every resting order has something
    left to fill, every level has a positive quantity and count. *)
Theorem X23_display_levels_aggregate_the_side (h : Heap) (state : PredictionMarketState) :
  let d := getOrderbookDisplay h state in
  let bids := yesBids (orderbook state) in
  let asks := yesAsks (orderbook state) in
  level_quantity (d_yesBids d) == resting_quantity h bids /\
  level_count (d_yesBids d) = Z.of_nat (length bids) /\
  level_quantity (d_yesAsks d) == resting_quantity h asks /\
  level_count (d_yesAsks d) = Z.of_nat (length asks) /\
  StronglySorted (fun a b => pl_price b < pl_price a) (d_yesBids d) /\
  StronglySorted (fun a b => pl_price a < pl_price b) (d_yesAsks d) /\
  (forall lv, In lv (d_yesBids d) ->
     exists l, In l bids /\ pl_price lv = price (deref h l)) /\
  (forall l, In l bids ->
     exists lv, In lv (d_yesBids d) /\ pl_price lv == price (deref h l)) /\
  (forall lv, In lv (d_yesAsks d) ->
     exists l, In l asks /\ pl_price lv = price (deref h l)) /\
  (forall l, In l asks ->
     exists lv, In lv (d_yesAsks d) /\ pl_price lv == price (deref h l)) /\
  ((forall l, In l (bids ++ asks) -> 0 < remainingQuantity (deref h l)) ->
   Forall (fun lv => 0 < pl_quantity lv /\ (0 < orderCount lv)%Z)
     (d_yesBids d ++ d_yesAsks d)).
Proof.
  intros d bids asks. subst d. simpl. fold bids asks.
  destruct (aggregateOrders_spec h bids) as (Hq & Hc & Hd & Hp & Hcov & Hpos).
  destruct (aggregateOrders_spec h asks) as (Hq' & Hc' & Hd' & Hp' & Hcov' & Hpos').
  simpl in *.
  assert (forall (cmp : PriceLevel -> PriceLevel -> Q) l x,
            In x (sort_by cmp l) <-> In x l) as Hin.
  { intros. rewrite <- !list_elem_of_In. by rewrite sort_by_perm. }
  rewrite !(level_quantity_perm _ _ (sort_by_perm _ _)).
  rewrite !(level_count_perm _ _ (sort_by_perm _ _)).
  split; [done|]. split; [done|]. split; [done|]. split; [done|].
  split; [|split; [|split; [|split; [|split; [|split]]]]].
  - apply strictly_desc; [|apply sort_desc_sorted].
    apply (distinct_levels_perm _ _ (Permutation_sym (sort_by_perm _ _)) Hd).
  - apply strictly_asc; [|apply sort_asc_sorted].
    apply (distinct_levels_perm _ _ (Permutation_sym (sort_by_perm _ _)) Hd').
  - intros lv Hlv. apply Hp. by apply Hin in Hlv.
  - intros l Hl. destruct (Hcov l Hl) as (lv & ? & ?). exists lv. by rewrite Hin.
  - intros lv Hlv. apply Hp'. by apply Hin in Hlv.
  - intros l Hl. destruct (Hcov' l Hl) as (lv & ? & ?). exists lv. by rewrite Hin.
  - intros Hall. rewrite !sort_by_perm. apply Forall_app. split.
    + apply Hpos. intros l Hl. apply Hall, in_app_iff. by left.
    + apply Hpos'. intros l Hl. apply Hall, in_app_iff. by right.
Qed.

Lemma best_none_iff h (cmp : PriceLevel -> PriceLevel -> Q) orders :
  best (sort_by cmp (aggregateOrders h orders)) = None <-> orders = [].
Proof.
  destruct (aggregateOrders_spec h orders) as (_ & Hc & _). simpl in Hc.
  rewrite <- (level_count_perm _ _ (sort_by_perm cmp _)) in Hc.
  split.
  - destruct (sort_by cmp _); [|done]. intros _. simpl in Hc.
    destruct orders; [done|]. simpl in Hc. lia.
  - by intros ->.
Qed.

Lemma best_bid_is_highest h orders bid :
  best (sort_by by_price_desc (aggregateOrders h orders)) = Some bid ->
  (exists l, In l orders /\ price (deref h l) = bid) /\
  (forall l, In l orders -> price (deref h l) <= bid).
Proof.
  destruct (aggregateOrders_spec h orders) as (_ & _ & _ & Hp & Hc & _). simpl in *.
  pose proof (sort_desc_sorted (aggregateOrders h orders)) as Hs.
  assert (forall x, In x (sort_by by_price_desc (aggregateOrders h orders)) <->
                    In x (aggregateOrders h orders)) as Hin.
  { intros. rewrite <- !list_elem_of_In. by rewrite sort_by_perm. }
  destruct (sort_by by_price_desc (aggregateOrders h orders)) as [|top rest]; [done|].
  simpl. intros [= <-]. apply StronglySorted_inv in Hs as [_ Hall]. split.
  - destruct (Hp top) as (l & ? & ?); [apply Hin; by left|]. by exists l.
  - intros l Hl. destruct (Hc l Hl) as (lv & Hlv & <-).
    apply Hin in Hlv as [<-|Hlv]; [apply Qle_refl|].
    rewrite Forall_forall in Hall. apply Hall. by apply list_elem_of_In.
Qed.

Lemma best_ask_is_lowest h orders ask :
  best (sort_by by_price_asc (aggregateOrders h orders)) = Some ask ->
  (exists l, In l orders /\ price (deref h l) = ask) /\
  (forall l, In l orders -> ask <= price (deref h l)).
Proof.
  destruct (aggregateOrders_spec h orders) as (_ & _ & _ & Hp & Hc & _). simpl in *.
  pose proof (sort_asc_sorted (aggregateOrders h orders)) as Hs.
  assert (forall x, In x (sort_by by_price_asc (aggregateOrders h orders)) <->
                    In x (aggregateOrders h orders)) as Hin.
  { intros. rewrite <- !list_elem_of_In. by rewrite sort_by_perm. }
  destruct (sort_by by_price_asc (aggregateOrders h orders)) as [|top rest]; [done|].
  simpl. intros [= <-]. apply StronglySorted_inv in Hs as [_ Hall]. split.
  - destruct (Hp top) as (l & ? & ?); [apply Hin; by left|]. by exists l.
  - intros l Hl. destruct (Hc l Hl) as (lv & Hlv & <-).
    apply Hin in Hlv as [<-|Hlv]; [apply Qle_refl|].
    rewrite Forall_forall in Hall. apply Hall. by apply list_elem_of_In.
Qed.

(** X24.  The best prices of the display.  [bestYesBid] is the highest
    price among the YES bids and [bestYesAsk] the lowest among the YES
    asks, each [null] exactly when its side is empty; [spread] and
    [midPrice] are [null] exactly when a side is empty, and otherwise the
    ask less the bid and the mean of the two; on an uncrossed book the
    spread is positive and the mid price lies strictly between the bid
    and the ask.  The NO sides of the book are not looked at. *)
Theorem X24_display_best_prices_and_spread (h : Heap) (state : PredictionMarketState) :
  let d := getOrderbookDisplay h state in
  let bids := yesBids (orderbook state) in
  let asks := yesAsks (orderbook state) in
  (bestYesBid d = None <-> bids = []) /\
  (bestYesAsk d = None <-> asks = []) /\
  (forall bid, bestYesBid d = Some bid ->
     (exists l, In l bids /\ price (deref h l) = bid) /\
     (forall l, In l bids -> price (deref h l) <= bid)) /\
  (forall ask, bestYesAsk d = Some ask ->
     (exists l, In l asks /\ price (deref h l) = ask) /\
     (forall l, In l asks -> ask <= price (deref h l))) /\
  (spread d = None <-> bids = [] \/ asks = []) /\
  (midPrice d = None <-> bids = [] \/ asks = []) /\
  (forall bid ask, bestYesBid d = Some bid -> bestYesAsk d = Some ask ->
     spread d = Some (ask - bid) /\ midPrice d = Some ((bid + ask) / 2) /\
     (uncrossed h (orderbook state) ->
        0 < ask - bid /\ bid < (bid + ask) / 2 /\ (bid + ask) / 2 < ask)).
Proof.
  intros d bids asks.
  pose proof (best_none_iff h by_price_desc bids) as Hb.
  pose proof (best_none_iff h by_price_asc asks) as Ha.
  pose proof (best_bid_is_highest h bids) as Hbid.
  pose proof (best_ask_is_lowest h asks) as Hask.
  subst d. unfold getOrderbookDisplay. simpl.
  fold bids asks. fold by_price_desc by_price_asc.
  destruct (best (sort_by by_price_desc (aggregateOrders h bids))) as [bid|] eqn:Eb;
    destruct (best (sort_by by_price_asc (aggregateOrders h asks))) as [ask|] eqn:Ea.
  all: split; [done|]; split; [done|]; split; [done|]; split; [done|].
  all: split; [split; [try done; tauto|intros [E|E]; [by apply Hb in E|by apply Ha in E]]|].
  all: split; [split; [try done; tauto|intros [E|E]; [by apply Hb in E|by apply Ha in E]]|].
  all: intros bid' ask'; try done.
  intros [= <-] [= <-]. split; [done|]. split; [done|]. intros Hun.
  destruct (Hbid bid eq_refl) as [(lb & Hlb & <-) _].
  destruct (Hask ask eq_refl) as [(la & Hla & <-) _].
  pose proof (Hun YES lb la Hlb Hla) as Hlt.
  repeat split.
  - lra.
  - apply Qlt_shift_div_l; lra.
  - apply Qlt_shift_div_r; lra.
Qed.

(** *** The theorems at work on a market *)

Lemma X23_witness :
  Forall (fun lv => 0 < pl_quantity lv /\ (0 < orderCount lv)%Z)
    (d_yesBids (getOrderbookDisplay book_heap book_state)
     ++ d_yesAsks (getOrderbookDisplay book_heap book_state)).
Proof.
  destruct (X23_display_levels_aggregate_the_side book_heap book_state)
    as (_ & _ & _ & _ & _ & _ & _ & _ & _ & _ & Hpos).
  apply Hpos. simpl. intros l [<-|[<-|[<-|[<-|[]]]]]; by vm_compute.
Defined.

Lemma X24_witness :
  0 < (3 # 10) - (2 # 10) /\ (2 # 10) < ((2 # 10) + (3 # 10)) / 2 /\
  ((2 # 10) + (3 # 10)) / 2 < (3 # 10).
Proof.
  destruct (X24_display_best_prices_and_spread book_heap book_state)
    as (_ & _ & _ & _ & _ & _ & Hboth).
  destruct (Hboth (2 # 10) (3 # 10)) as (_ & _ & Hun);
    [vm_compute; reflexivity..|].
  exact (Hun book_state_uncrossed).
Defined.

End DisplayProofs.

(* ===================================================================== *)
(** * Part VIII: the audit log of the matching client                     *)
(* ===================================================================== *)

Module AuditLogProofs.
Import AuditLog.
Local Open Scope Z_scope.

(** The entry that a call records for a channel. *)
Definition entry_of (channelId : string) (c : LogCall) : option AuditEntry :=
  match c with
  | CRecordOrder cid o now =>
      if String.eqb cid channelId
      then Some {| timestamp := now; type := order; data := DOrder o |} else None
  | CRecordFill cid f now =>
      if String.eqb cid channelId
      then Some {| timestamp := now; type := fill; data := DFill f |} else None
  | CRecordStateUpdate cid s now =>
      if String.eqb cid channelId
      then Some {| timestamp := now; type := state_update; data := DState s |} else None
  | CClearLog _ => None
  end.

Definition clears (channelId : string) (c : LogCall) : bool :=
  match c with
  | CClearLog cid => String.eqb cid channelId
  | _ => false
  end.

(** The last [10000] elements of a list. *)
Definition last_entries (l : list AuditEntry) : list AuditEntry :=
  drop (Z.to_nat (Z.of_nat (length l) - 10000)) l.

Lemma getLog_addEntry cid cid' e logs :
  getLog cid' (addEntry cid e logs) =
    if decide (cid = cid')
    then let l := getLog cid logs ++ [e] in
         if 10000 <? Z.of_nat (length l) then tail l else l
    else getLog cid' logs.
Proof.
  unfold getLog, addEntry. rewrite lookup_insert. by case_decide.
Qed.

Lemma last_entries_snoc l e :
  (let l' := last_entries l ++ [e] in
   if 10000 <? Z.of_nat (length l') then tail l' else l') = last_entries (l ++ [e]).
Proof.
  unfold last_entries. simpl. rewrite !length_app, !length_drop. simpl.
  destruct (10000 <? _) eqn:E.
  - apply Z.ltb_lt in E.
    rewrite drop_app_le by lia.
    replace (Z.to_nat (Z.of_nat (length l + 1) - 10000))
      with (Z.to_nat (Z.of_nat (length l) - 10000) + 1)%nat by lia.
    rewrite <- drop_drop.
    destruct (drop _ l) as [|x d] eqn:Ed; [|done].
    apply (f_equal length) in Ed. rewrite length_drop in Ed. simpl in Ed. lia.
  - apply Z.ltb_ge in E. rewrite drop_app_le by lia.
    f_equal. f_equal. lia.
Qed.

Lemma last_entries_short l :
  Z.of_nat (length l) <= 10000 -> last_entries l = l.
Proof.
  intros Hl. unfold last_entries.
  replace (Z.to_nat (Z.of_nat (length l) - 10000)) with 0%nat by lia. done.
Qed.

Lemma last_entries_length l : Z.of_nat (length (last_entries l)) <= 10000.
Proof. unfold last_entries. rewrite length_drop. lia. Qed.

Lemma log_run_snoc cs c logs : log_run (cs ++ [c]) logs = log_call c (log_run cs logs).
Proof. unfold log_run. by rewrite fold_left_app. Qed.

Lemma call_entry c logs cid :
  clears cid c = false ->
  getLog cid (log_call c logs) =
    match entry_of cid c with
    | Some e => let l := getLog cid logs ++ [e] in
                if 10000 <? Z.of_nat (length l) then tail l else l
    | None => getLog cid logs
    end.
Proof.
  intros Hc.
  destruct c; simpl in *; unfold recordOrder, recordFill, recordStateUpdate;
    rewrite ?getLog_addEntry.
  1-3: case_decide as Hd;
    [subst; by rewrite String.eqb_refl
    |by apply String.eqb_neq in Hd as ->].
  apply String.eqb_neq in Hc. unfold getLog, clearLog.
  rewrite lookup_delete. by case_decide.
Qed.

Lemma log_between_clears (cs : list LogCall) (logs : Logs) (cid : string) :
  Z.of_nat (length (getLog cid logs)) <= 10000 ->
  forallb (fun c => negb (clears cid c)) cs = true ->
  getLog cid (log_run cs logs) =
    last_entries (getLog cid logs ++ omap (entry_of cid) cs).
Proof.
  intros Hb.
  induction cs as [|c cs IH] using rev_ind; intros Hn.
  { simpl. rewrite app_nil_r. by rewrite last_entries_short. }
  rewrite forallb_app in Hn. apply andb_true_iff in Hn as [Hcs Hc].
  simpl in Hc. rewrite andb_true_r in Hc. apply negb_true_iff in Hc.
  rewrite log_run_snoc, omap_app, call_entry, (IH Hcs) by done. simpl.
  destruct (entry_of cid c) as [e|]; simpl.
  - rewrite app_assoc. apply last_entries_snoc.
  - by rewrite app_nil_r.
Qed.

(** X25.  The log of a channel is a window on what was recorded.  From
    a cleared (or never used) channel on, and until the channel is
    cleared again, [getLog] answers the last 10000 of the entries
    recorded for the channel, in the order they were recorded, each with
    the time read when it was recorded: the log never has more than
    10000 entries, the oldest entries are the ones dropped, and records
    for other channels do not count. *)
Theorem X25_log_keeps_the_last_10000_entries
    (cs : list LogCall) (logs : Logs) (cid : string) :
  forallb (fun c => negb (clears cid c)) cs = true ->
  getLog cid (log_run cs (clearLog cid logs)) = last_entries (omap (entry_of cid) cs) /\
  Z.of_nat (length (getLog cid (log_run cs (clearLog cid logs)))) <= 10000.
Proof.
  intros Hn.
  assert (getLog cid (clearLog cid logs) = []) as Hclear.
  { unfold getLog, clearLog. rewrite lookup_delete. by case_decide. }
  rewrite (log_between_clears cs (clearLog cid logs) cid), Hclear; [|by rewrite Hclear|done].
  split; [done|]. apply last_entries_length.
Qed.

(** X26.  [getStats] counts every entry of the log once: the three
    counts are not negative and add up to the length of the log, and all
    three are 0 for a channel without a log. *)
Theorem X26_getStats_counts_every_entry_once (logs : Logs) (cid : string) :
  let s := getStats cid logs in
  totalOrders s + totalFills s + totalStateUpdates s
    = Z.of_nat (length (getLog cid logs)) /\
  0 <= totalOrders s /\ 0 <= totalFills s /\ 0 <= totalStateUpdates s /\
  (logs !! cid = None -> s = {| totalOrders := 0; totalFills := 0; totalStateUpdates := 0 |}).
Proof.
  intros s. subst s. unfold getStats. simpl.
  split; [|split; [lia|split; [lia|split; [lia|]]]].
  - induction (getLog cid logs) as [|[ts [] d] l IH]; simpl; [done|..]; lia.
  - intros Hn. unfold getLog. by rewrite Hn.
Qed.

(** *** Entries in the order of the clock *)

Definition chronological (l : list AuditEntry) : Prop :=
  StronglySorted (fun a b => timestamp a <= timestamp b) l.

Lemma chronological_snoc l e :
  chronological l -> Forall (fun x => timestamp x <= timestamp e) l ->
  chronological (l ++ [e]).
Proof.
  induction 1 as [|a l Hs IH Ha]; intros Hf; simpl.
  - repeat constructor.
  - apply Forall_cons in Hf as [Hae Hf]. constructor; [by apply IH|].
    apply Forall_app. split; [done|]. by repeat constructor.
Qed.

Lemma chronological_tail l : chronological l -> chronological (tail l).
Proof. destruct 1; [constructor|done]. Qed.

Lemma filter_none {A} (f : A -> bool) (l : list A) :
  Forall (fun x => f x = false) l -> List.filter f l = [].
Proof. induction 1 as [|x l Hx _ IH]; simpl; [done|]. by rewrite Hx. Qed.

Lemma filter_since_suffix since l :
  chronological l ->
  List.filter (fun entry => since <? timestamp entry) l =
    drop (length (List.filter (fun entry => timestamp entry <=? since) l)) l.
Proof.
  induction 1 as [|a l Hs IH Ha]; simpl; [done|].
  destruct (since <? timestamp a) eqn:E.
  - apply Z.ltb_lt in E.
    destruct (timestamp a <=? since) eqn:E'; [apply Z.leb_le in E'; lia|].
    assert (List.filter (fun entry => timestamp entry <=? since) l = []) as Hnone.
    { apply filter_none. eapply Forall_impl; [exact Ha|].
      intros x Hx. apply Z.leb_gt. simpl in Hx. lia. }
    rewrite Hnone in *. simpl in *. by rewrite IH.
  - apply Z.ltb_ge in E.
    destruct (timestamp a <=? since) eqn:E'; [|apply Z.leb_gt in E'; lia].
    simpl. done.
Qed.

(** X27.  While the clock does not go back, the log of a channel is in
    the order of its timestamps (adding an entry that is not older than
    the entries of the log keeps it so, also when the oldest entry is
    dropped), and on such a log [getLogSince] answers a suffix of the
    log: the log without its entries that are not later than the given
    time. *)
Theorem X27_getLogSince_is_a_suffix
    (logs : Logs) (cid : string) (e : AuditEntry) (since : Z) :
  chronological (getLog cid logs) ->
  Forall (fun x => timestamp x <= timestamp e) (getLog cid logs) ->
  chronological (getLog cid (addEntry cid e logs)) /\
  getLogSince cid since logs =
    drop (length (List.filter (fun entry => timestamp entry <=? since) (getLog cid logs)))
      (getLog cid logs).
Proof.
  intros Hc Hf. split; [|by apply filter_since_suffix].
  rewrite getLog_addEntry. case_decide; [|done]. simpl.
  destruct (10000 <? _); [apply chronological_tail|]; by apply chronological_snoc.
Qed.

(** X28.  The text that [exportLog] writes is JSON that reads back:
    [JSON.parse] of it answers the array of the entries of the log, each
    with its timestamp, its type and the order intent, fill or state
    update that it holds. *)
Theorem X28_exportLog_reads_back (logs : Logs) (cid : string) :
  JSON.parse (exportLog cid logs) =
    Some (JSON.JArr (map js_AuditEntry (getLog cid logs))).
Proof.
  unfold exportLog. apply JSONProofs.parse_stringify.
  cbn [JSONProofs.distinct_keys].
  induction (getLog cid logs) as [|e l IH]; simpl; [done|]. split; [|done].
  split; [apply NoDup_ListNoDup; repeat constructor; simpl; intuition discriminate|].
  split; [done|]. split; [done|]. split; [|done].
  destruct (data e).
  - apply ChannelProofs.js_OrderIntent_keys.
  - apply ChannelProofs.js_Fill_keys.
  - apply ChannelProofs.js_StateUpdate_keys.
Qed.

(** *** The theorems at work on a log *)

Definition three_records : list LogCall :=
  [CRecordOrder "ch" (ChannelProofs.intent1 40) 1;
   CRecordFill "ch" (ChannelProofs.fill1 50) 2;
   CRecordOrder "other" (ChannelProofs.intent1 90) 3].

Lemma X25_witness :
  getLog "ch" (log_run three_records (clearLog "ch" new_logs)) =
    last_entries (omap (entry_of "ch") three_records) /\
  Z.of_nat (length (getLog "ch" (log_run three_records (clearLog "ch" new_logs)))) <= 10000.
Proof.
  apply (X25_log_keeps_the_last_10000_entries three_records new_logs "ch").
  vm_compute. reflexivity.
Defined.

Definition late_entry : AuditEntry :=
  {| timestamp := 7; type := fill; data := DFill (ChannelProofs.fill1 50) |}.

Lemma X27_witness :
  getLogSince "ch" 1 (log_run three_records new_logs) =
    drop (length (List.filter (fun entry => timestamp entry <=? 1)
                    (getLog "ch" (log_run three_records new_logs))))
      (getLog "ch" (log_run three_records new_logs)).
Proof.
  apply (X27_getLogSince_is_a_suffix (log_run three_records new_logs) "ch" late_entry 1).
  - vm_compute. repeat constructor; discriminate.
  - vm_compute. repeat constructor; discriminate.
Defined.

Lemma X26_witness :
  getStats "nobody" (log_run three_records new_logs) =
    {| totalOrders := 0; totalFills := 0; totalStateUpdates := 0 |}.
Proof.
  destruct (X26_getStats_counts_every_entry_once (log_run three_records new_logs) "nobody")
    as (_ & _ & _ & _ & Hnone).
  apply Hnone. vm_compute. reflexivity.
Defined.

End AuditLogProofs.

(* ===================================================================== *)
(** * Part IX: the state manager                                          *)
(* ===================================================================== *)

Module StateManagerProofs.
Import Matcher StateManager.
Local Open Scope Q_scope.

(** X29.  [depositUSDC] replaces the balance of the user, it does not add
    to it: without an address (none, or the empty string) it throws and
    [getUserBalance] answers [null]; with one, the balance of the user
    becomes the deposited amount with no YES and no NO tokens, whatever
    it was before, the book, the fills and the other balances are
    untouched and the sequence number goes up by one.  [reset] keeps the
    address and forgets the balances. *)
Theorem X29_depositUSDC_replaces_the_balance (m : ManagerFields) (amount : Q) (now : Z) :
  (known_address m = None ->
     depositUSDC amount now m = None /\ getUserBalance m = None) /\
  (forall address, known_address m = Some address ->
     exists m', depositUSDC amount now m = Some m' /\
       getUserBalance m' = Some {| usdc := amount; yes := 0; no := 0 |} /\
       getUserAddress m' = getUserAddress m /\
       orderbook (getState m') = orderbook (getState m) /\
       fills (getState m') = fills (getState m) /\
       sequence (getState m') = (sequence (getState m) + 1)%Z /\
       (forall other, other <> address ->
          balances (getState m') !! other = balances (getState m) !! other)) /\
  (forall marketId question t,
     getUserBalance (reset marketId question t m) = None /\
     getUserAddress (reset marketId question t m) = getUserAddress m /\
     getState (reset marketId question t m) = createInitialState marketId question t).
Proof.
  unfold depositUSDC, getUserBalance, getUserAddress, getState, reset, known_address.
  split; [|split].
  - intros Hn. by rewrite Hn.
  - intros address Ha. rewrite Ha. eexists. split; [done|]. simpl.
    destruct (userAddress m) as [a|]; [|done].
    destruct (String.eqb a EmptyString); [done|]. injection Ha as ->.
    rewrite lookup_insert. case_decide; [|done].
    repeat split; try done. intros other Hne. rewrite lookup_insert. by case_decide.
  - intros marketId question t. simpl.
    destruct (userAddress m) as [a|]; [|done].
    by destruct (String.eqb a EmptyString).
Qed.

(** *** The theorem at work *)

Definition fresh_manager : ManagerFields :=
  create "prediction-market-1" "Will ETH reach $5000 by end of 2025?" 0.

Lemma X29_witness :
  depositUSDC 1000 1 fresh_manager = None /\
  exists m',
    depositUSDC 1000 1 (initialize "0xabc1" fresh_manager) = Some m' /\
    getUserBalance m' = Some {| usdc := 1000; yes := 0; no := 0 |}.
Proof.
  split.
  - destruct (X29_depositUSDC_replaces_the_balance fresh_manager 1000 1)
      as (Hnone & _).
    exact (proj1 (Hnone eq_refl)).
  - destruct (X29_depositUSDC_replaces_the_balance
                (initialize "0xabc1" fresh_manager) 1000 1) as (_ & Hsome & _).
    destruct (Hsome "0xabc1" eq_refl) as (m' & Hm' & Hbal & _).
    exists m'. split; [exact Hm'|exact Hbal].
Defined.

End StateManagerProofs.
